(** * Levelling.io: the room-scoped state engine of [backend/src/socket/handlers.ts]

    A shallow embedding of the socket handlers of the game server and the
    properties of its combat, collection and room-lifecycle rules.

    Conventions of the model.
    - The three module-level [Map]s of the source ([rooms],
      [globalFarmObjects], [obstacles]) are finite maps keyed by strings.
      A JS [Map] also remembers insertion order; that order only shows in
      the order of the arrays sent in snapshots and is abstracted to the
      key order of the finite map.
    - Scores and obstacle coordinates are JS numbers that only ever hold
      integers (they start at integer literals and are changed by integer
      amounts), so they are modelled in [Z].  Positions come from the
      client or from [Math.random()] and are modelled as rationals;
      [Math.sqrt(v) > 120] is read over the reals as [120 * 120 < v].
    - [Date.now()] and [Math.random()] are read from an environment given
      to each handler run; successive calls read successive indices.
    - [setTimeout] appends a pending timer to the state; a timer firing is
      an input event of its own.
    - [socket.emit] and [socket.to(room).emit] append to an output log. *)

From Stdlib Require Import ZArith QArith Qround.
From stdpp Require Import base gmap strings list fin_maps pretty.

Local Open Scope string_scope.
Local Open Scope list_scope.
Local Open Scope Z_scope.

(** ** Data model *)

Record Position := { x : Q; y : Q }.

Record PlayerData := {
  id : string;
  name : string;
  color : Z;
  position : Position;
  velocity : Position;
  score : Z;
  isAlive : bool;
  respawnTime : option Z
}.

Record FarmObject := {
  fo_id : string;
  fo_position : Position;
  fo_type : string;
  value : Z
}.

(** An entry of a room's obstacle array: [{ id, x, y, part }]. *)
Record Obstacle := {
  ob_id : string;
  ob_x : Z;
  ob_y : Z;
  part : string
}.

(** Pending [setTimeout] callbacks.  Each closes over the socket whose
    handler scheduled it. *)
Inductive Timer :=
| RespawnTimer (socket gameId targetId : string)   (* delay 3000 ms *)
| RegenTimer (socket gameId : string).             (* delay 2000 ms *)

Definition timer_delay (t : Timer) : Z :=
  match t with
  | RespawnTimer _ _ _ => 3000
  | RegenTimer _ _ => 2000
  end.

Record State := {
  rooms : gmap string (gmap string PlayerData);
  globalFarmObjects : gmap string (gmap string FarmObject);
  obstacles : gmap string (list Obstacle);
  timers : list Timer
}.

Definition initial_state : State :=
  {| rooms := ∅; globalFarmObjects := ∅; obstacles := ∅; timers := [] |}.

(** Field updates, written out (the source mutates objects in place). *)

Definition set_rooms (r : gmap string (gmap string PlayerData)) (s : State) : State :=
  {| rooms := r; globalFarmObjects := globalFarmObjects s;
     obstacles := obstacles s; timers := timers s |}.

Definition set_farm (f : gmap string (gmap string FarmObject)) (s : State) : State :=
  {| rooms := rooms s; globalFarmObjects := f;
     obstacles := obstacles s; timers := timers s |}.

Definition set_obstacles (o : gmap string (list Obstacle)) (s : State) : State :=
  {| rooms := rooms s; globalFarmObjects := globalFarmObjects s;
     obstacles := o; timers := timers s |}.

Definition set_timers (t : list Timer) (s : State) : State :=
  {| rooms := rooms s; globalFarmObjects := globalFarmObjects s;
     obstacles := obstacles s; timers := t |}.

Definition setTimeout (t : Timer) (s : State) : State :=
  set_timers (timers s ++ [t]) s.

Definition with_score (v : Z) (p : PlayerData) : PlayerData :=
  {| id := id p; name := name p; color := color p; position := position p;
     velocity := velocity p; score := v; isAlive := isAlive p;
     respawnTime := respawnTime p |}.

Definition with_isAlive (b : bool) (p : PlayerData) : PlayerData :=
  {| id := id p; name := name p; color := color p; position := position p;
     velocity := velocity p; score := score p; isAlive := b;
     respawnTime := respawnTime p |}.

Definition with_respawnTime (t : Z) (p : PlayerData) : PlayerData :=
  {| id := id p; name := name p; color := color p; position := position p;
     velocity := velocity p; score := score p; isAlive := isAlive p;
     respawnTime := Some t |}.

Definition with_position (q : Position) (p : PlayerData) : PlayerData :=
  {| id := id p; name := name p; color := color p; position := q;
     velocity := velocity p; score := score p; isAlive := isAlive p;
     respawnTime := respawnTime p |}.

Definition with_velocity (q : Position) (p : PlayerData) : PlayerData :=
  {| id := id p; name := name p; color := color p; position := position p;
     velocity := q; score := score p; isAlive := isAlive p;
     respawnTime := respawnTime p |}.

(** ** Outbound notifications *)

Inductive Payload :=
| currentPlayers (players : list PlayerData)
| obstaclesUpdate (obs : list Obstacle)
| farmObjectsUpdate (objects : list FarmObject)
| playerJoined (playerId name : string) (color : Z) (position velocity : Position)
    (score : Z) (isAlive : bool)
| playerMoved (playerId : string) (position : Position) (velocity : option Position)
| playerLeft (playerId : string) (name : option string)
| playerShot (playerId : string) (direction position : Position)
| playerKilled (killerId targetId : string) (killerScore targetScore pointsStolen : Z)
| playerRespawned (playerId : string) (position : Position)
| farmObjectDestroyed (objectId playerId : string) (playerScore : Z).

(** [socket.to(room).emit] reaches the room's channel except the socket
    itself; [socket.emit] reaches the socket only. *)
Inductive Scope :=
| ToRoomExcept (room socket : string)
| ToSocket (socket : string).

Inductive Effect :=
| Emit (scope : Scope) (payload : Payload)
| JoinChannel (socket room : string).            (* socket.join(gameId) *)

(** The pair of calls the handlers use to reach the whole room. *)
Definition broadcast (socket gameId : string) (p : Payload) : list Effect :=
  [Emit (ToRoomExcept gameId socket) p; Emit (ToSocket socket) p].

(** ** The environment of a handler run *)

(** A result of [Math.random()]: the rational [numer / (numer + slack)],
    which ranges over exactly the rationals of [0, 1). *)
Record Draw := { numer : N; slack : positive }.

Definition draw_den (d : Draw) : positive :=
  match numer d with
  | N0 => slack d
  | Npos p => (p + slack d)%positive
  end.

Definition draw_val (d : Draw) : Q := Z.of_N (numer d) # draw_den d.

Record Env := {
  clock : nat -> Z;              (* the k-th reading: Date.now() *)
  random : nat -> Draw;          (* the k-th reading: Math.random() *)
  toString36 : Draw -> string    (* r.toString(36).substr(2, 9) *)
}.

(** ** Obstacles: [generateObstacles] and its inner [createLShape] *)

Definition applyRotation (baseX baseY rotation : Z) (p : Z * Z) : Z * Z :=
  let '(x, y) := p in
  if decide (rotation = 1) then
    let tempX := x - baseX in
    let tempY := y - baseY in
    (baseX - tempY, baseY + tempX)
  else if decide (rotation = 2) then
    (baseX - (x - baseX), baseY - (y - baseY))
  else if decide (rotation = 3) then
    let tempX := x - baseX in
    let tempY := y - baseY in
    (baseX + tempY, baseY - tempX)
  else (x, y).

Definition lShapeId (baseX baseY i : Z) : string :=
  "obstacle-L-" +:+ pretty baseX +:+ "-" +:+ pretty baseY +:+ "-" +:+ pretty i.

Definition stemPoint (baseX baseY rotation i : Z) : Obstacle :=
  let '(x, y) := applyRotation baseX baseY rotation (baseX, baseY + i * 60) in
  {| ob_id := lShapeId baseX baseY i; ob_x := x; ob_y := y; part := "stem" |}.

Definition footPoint (baseX baseY rotation i : Z) : Obstacle :=
  let '(x, y) :=
    applyRotation baseX baseY rotation (baseX + i * 60, baseY + 2 * 60) in
  {| ob_id := lShapeId baseX baseY (i + 3); ob_x := x; ob_y := y; part := "foot" |}.

(** The two [for] loops: [i = 0, 1, 2] for the stem, [i = 1, 2] for the foot. *)
Definition createLShape (baseX baseY rotation : Z) : list Obstacle :=
  (stemPoint baseX baseY rotation <$> [0; 1; 2]) ++
  (footPoint baseX baseY rotation <$> [1; 2]).

Definition centerObstacles : list (Z * Z) :=
  [(1000, 750); (1000, 650); (1000, 850); (900, 750); (1100, 750)].

Definition centerPoint (i : nat) (pos : Z * Z) : Obstacle :=
  {| ob_id := "obstacle-center-" +:+ pretty i;
     ob_x := pos.1; ob_y := pos.2; part := "center" |}.

(** The array built when the room has no obstacles yet.  (The [count]
    parameter of the source function is never read.) *)
Definition roomObstacles : list Obstacle :=
  createLShape 300 300 0 ++
  createLShape 1700 300 1 ++
  createLShape 300 1100 3 ++
  createLShape 1700 1100 2 ++
  imap centerPoint centerObstacles.

Definition generateObstacles (gameId : string) (s : State) : State * list Obstacle :=
  let s' :=
    match obstacles s !! gameId with
    | None => set_obstacles (<[gameId := roomObstacles]> (obstacles s)) s
    | Some _ => s
    end in
  (s', default [] (obstacles s' !! gameId)).

(** ** Collectibles: [generateFarmObjects] *)

Record TypeAndValue := { tv_type : string; tv_value : Z }.

Definition typesAndValues : list TypeAndValue :=
  [ {| tv_type := "crystal"; tv_value := 5 |};
    {| tv_type := "coin"; tv_value := 1 |};
    {| tv_type := "gem"; tv_value := 10 |} ].

(** [typesAndValues[Math.floor(Math.random() * typesAndValues.length)]].
    The index is always in range (lemma [pickType_elem] below), so the
    fallback of the lookup is never taken. *)
Definition pickType (d : Draw) : TypeAndValue :=
  let i := Qfloor (draw_val d * inject_Z (Z.of_nat (length typesAndValues))) in
  default {| tv_type := "crystal"; tv_value := 5 |} (typesAndValues !! Z.to_nat i).

(** [`farm-${Date.now()}-${Math.random().toString(36).substr(2, 9)}`],
    the clock read at index [k] and the random number at index [k + 1]. *)
Definition farmId (env : Env) (k : nat) : string :=
  "farm-" +:+ pretty (clock env k) +:+ "-" +:+ toString36 env (random env (S k)).

(** One pair of samples of the placement loop:
    [x = Math.random() * 1800 + 100; y = Math.random() * 1300 + 100]. *)
Definition samplePosition (env : Env) (k : nat) : Position :=
  {| x := draw_val (random env k) * 1800 + 100;
     y := draw_val (random env (S k)) * 1300 + 100 |}.

(** The callback of [roomObstacles.every]:
    [Math.sqrt(dx * dx + dy * dy) > 120]. *)
Definition farEnough (p : Position) (obstacle : Obstacle) : bool :=
  let dx := (x p - inject_Z (ob_x obstacle))%Q in
  let dy := (y p - inject_Z (ob_y obstacle))%Q in
  negb (Qle_bool (dx * dx + dy * dy) (120 * 120)).

Definition validPosition (p : Position) (obs : list Obstacle) : bool :=
  forallb (farEnough p) obs.

(** [while (!validPosition) { ... }].  The source loop has no counter; the
    model runs it for at most [fuel] iterations and answers [None] when
    the loop is still running after that. *)
Fixpoint placeLoop (fuel : nat) (env : Env) (k : nat) (obs : list Obstacle)
  : option (Position * nat) :=
  match fuel with
  | O => None
  | S fuel' =>
      let p := samplePosition env k in
      if validPosition p obs then Some (p, (k + 2)%nat)
      else placeLoop fuel' env (k + 2)%nat obs
  end.

(** The [for (let i = 0; i < toCreate; i++)] loop. *)
Fixpoint createFarmObjects (fuel : nat) (env : Env) (toCreate k : nat)
    (obs : list Obstacle) (roomFarmObjects : gmap string FarmObject)
  : option (gmap string FarmObject * nat) :=
  match toCreate with
  | O => Some (roomFarmObjects, k)
  | S n =>
      let id := farmId env k in
      let type := pickType (random env (k + 2)%nat) in
      match placeLoop fuel env (k + 3)%nat obs with
      | None => None
      | Some (p, k') =>
          createFarmObjects fuel env n k' obs
            (<[id := {| fo_id := id; fo_position := p;
                        fo_type := tv_type type; value := tv_value type |}]>
               roomFarmObjects)
      end
  end.

(** [Array.from(map.values())]. *)
Definition values {A} (m : gmap string A) : list A := (map_to_list m).*2.

Definition generateFarmObjects (fuel : nat) (env : Env) (socket gameId : string)
    (count k : nat) (s : State) : option (State * list Effect * nat) :=
  let s1 :=
    match globalFarmObjects s !! gameId with
    | None => set_farm (<[gameId := ∅]> (globalFarmObjects s)) s
    | Some _ => s
    end in
  let roomFarmObjects := default ∅ (globalFarmObjects s1 !! gameId) in
  if decide (size roomFarmObjects < count)%nat then
    let toCreate := (count - size roomFarmObjects)%nat in
    match createFarmObjects fuel env toCreate k
            (default [] (obstacles s1 !! gameId)) roomFarmObjects with
    | None => None
    | Some (roomFarmObjects', k') =>
        let s2 := set_farm (<[gameId := roomFarmObjects']> (globalFarmObjects s1)) s1 in
        let out :=
          if decide (0 < toCreate)%nat then
            match rooms s2 !! gameId with
            | Some _ => broadcast socket gameId (farmObjectsUpdate (values roomFarmObjects'))
            | None => []
            end
          else [] in
        Some (s2, out, k')
    end
  else Some (s1, [], k).

(** ** Respawn: the callback scheduled by a kill

    The source has this body twice: as the closure passed to [setTimeout] in
    the hit handler, and as a function of the same name that is never
    called. *)

Definition respawnPlayer (env : Env) (socket gameId targetId : string) (s : State)
  : State * list Effect :=
  match rooms s !! gameId with
  | Some roomPlayers =>
      match roomPlayers !! targetId with
      | Some player =>
          let pos := samplePosition env 0 in
          let player' :=
            with_velocity {| x := 0; y := 0 |}
              (with_position pos (with_isAlive true player)) in
          (set_rooms (<[gameId := <[targetId := player']> roomPlayers]> (rooms s)) s,
           broadcast socket gameId (playerRespawned targetId pos))
      | None => (s, [])
      end
  | None => (s, [])
  end.

(** ** The socket handlers *)

Definition newPlayer (socket name : string) (color : Z) : PlayerData :=
  {| id := socket; name := name; color := color;
     position := {| x := 400; y := 300 |};
     velocity := {| x := 0; y := 0 |};
     score := 0; isAlive := true; respawnTime := None |}.

Definition joinGame (fuel : nat) (env : Env) (socket gameId : string)
    (name : option string) (color : option Z) (s : State)
  : option (State * list Effect) :=
  let '(name, k) :=
    match name with
    | Some n => (n, 0%nat)
    | None => ("Player-" +:+ pretty (Qfloor (draw_val (random env 0) * 1000)), 1%nat)
    end in
  let color := default 0x1a75ff color in
  let s1 :=
    match rooms s !! gameId with
    | None => set_rooms (<[gameId := ∅]> (rooms s)) s
    | Some _ => s
    end in
  match rooms s1 !! gameId with
  | Some roomPlayers =>
      let roomPlayers' :=
        match roomPlayers !! socket with
        | None => <[socket := newPlayer socket name color]> roomPlayers
        | Some _ => roomPlayers
        end in
      let s2 := set_rooms (<[gameId := roomPlayers']> (rooms s1)) s1 in
      let '(s3, roomObstacles) := generateObstacles gameId s2 in
      match generateFarmObjects fuel env socket gameId 10 k s3 with
      | None => None
      | Some (s4, out, _) =>
          Some (s4,
            [JoinChannel socket gameId] ++ out ++
            [Emit (ToSocket socket) (currentPlayers (values roomPlayers'));
             Emit (ToSocket socket) (obstaclesUpdate roomObstacles)] ++
            match globalFarmObjects s4 !! gameId with
            | Some m => [Emit (ToSocket socket) (farmObjectsUpdate (values m))]
            | None => []
            end ++
            [Emit (ToRoomExcept gameId socket)
               (playerJoined socket name color {| x := 400; y := 300 |}
                  {| x := 0; y := 0 |} 0 true)])
      end
  | None => Some (s1, [])
  end.

Definition playerMove (socket gameId : string) (position : Position)
    (velocity : option Position) (s : State) : State * list Effect :=
  let s' :=
    match rooms s !! gameId with
    | Some roomPlayers =>
        match roomPlayers !! socket with
        | Some player =>
            let player1 := with_position position player in
            let player2 :=
              match velocity with
              | Some v => with_velocity v player1
              | None => player1
              end in
            set_rooms (<[gameId := <[socket := player2]> roomPlayers]> (rooms s)) s
        | None => s
        end
    | None => s
    end in
  (s', [Emit (ToRoomExcept gameId socket) (playerMoved socket position velocity)]).

(** The body of [rooms.forEach((roomPlayers, roomId) => ...)] in the
    disconnect handler, on the registry and the output built so far.  The
    name sent is read from [roomPlayers] after the player was deleted. *)
Definition disconnectRoom (socket roomId : string) (roomPlayers : gmap string PlayerData)
    (acc : gmap string (gmap string PlayerData) * list Effect)
  : gmap string (gmap string PlayerData) * list Effect :=
  if decide (is_Some (roomPlayers !! socket)) then
    let roomPlayers' := delete socket roomPlayers in
    let rooms1 := <[roomId := roomPlayers']> acc.1 in
    let rooms2 :=
      if decide (size roomPlayers' = 0%nat) then delete roomId rooms1 else rooms1 in
    (rooms2,
     acc.2 ++ [Emit (ToRoomExcept roomId socket)
                 (playerLeft socket (name <$> roomPlayers' !! socket))])
  else acc.

(** The handler also stops the periodic debug log, which is not part of the
    state.  Rooms are visited in key order here, in insertion order in the
    source; each room is visited once either way. *)
Definition disconnect (socket : string) (s : State) : State * list Effect :=
  let r := map_fold (disconnectRoom socket) (rooms s, []) (rooms s) in
  (set_rooms r.1 s, r.2).

Definition playerShoot (socket gameId : string) (direction position : Position)
    (s : State) : State * list Effect :=
  (s, [Emit (ToRoomExcept gameId socket) (playerShot socket direction position)]).

(** [Math.floor(target.score * 0.5)]. *)
Definition pointsToSteal (target : PlayerData) : Z :=
  Qfloor (inject_Z (score target) * (1 # 2)).

Definition playerHit (env : Env) (socket gameId shooterId targetId : string)
    (s : State) : State * list Effect :=
  if decide (shooterId = targetId) then (s, [])
  else
    match rooms s !! gameId with
    | Some roomPlayers =>
        match roomPlayers !! shooterId, roomPlayers !! targetId with
        | Some shooter, Some target =>
            if isAlive target then
              let stolen := pointsToSteal target in
              let shooter' := with_score (score shooter + (20 + stolen)) shooter in
              let reduced := score target - stolen in
              let target' :=
                with_respawnTime (clock env 0 + 3000)
                  (with_isAlive false
                     (with_score (if decide (reduced < 0) then 0 else reduced) target)) in
              let roomPlayers' :=
                <[targetId := target']> (<[shooterId := shooter']> roomPlayers) in
              (setTimeout (RespawnTimer socket gameId targetId)
                 (set_rooms (<[gameId := roomPlayers']> (rooms s)) s),
               broadcast socket gameId
                 (playerKilled shooterId targetId (score shooter') (score target') stolen))
            else (s, [])
        | _, _ => (s, [])
        end
    | None => (s, [])
    end.

Definition farmObjectHit (socket gameId objectId : string) (s : State)
  : State * list Effect :=
  match globalFarmObjects s !! gameId with
  | Some roomFarmObjects =>
      match roomFarmObjects !! objectId with
      | Some farmObject =>
          match rooms s !! gameId with
          | Some roomPlayers =>
              match roomPlayers !! socket with
              | Some player =>
                  let player' := with_score (score player + value farmObject) player in
                  let s1 :=
                    set_rooms (<[gameId := <[socket := player']> roomPlayers]> (rooms s)) s in
                  let s2 :=
                    set_farm (<[gameId := delete objectId roomFarmObjects]>
                                (globalFarmObjects s1)) s1 in
                  (setTimeout (RegenTimer socket gameId) s2,
                   broadcast socket gameId
                     (farmObjectDestroyed objectId socket (score player')))
              | None => (s, [])
              end
          | None => (s, [])
          end
      | None => (s, [])
      end
  | None => (s, [])
  end.

Definition collectResource (socket gameId resourceId : string) (s : State)
  : State * list Effect :=
  match globalFarmObjects s !! gameId with
  | Some roomFarmObjects =>
      match roomFarmObjects !! resourceId with
      | Some farmObject =>
          match rooms s !! gameId with
          | Some roomPlayers =>
              match roomPlayers !! socket with
              | Some player =>
                  let player' := with_score (score player + value farmObject) player in
                  let s1 :=
                    set_rooms (<[gameId := <[socket := player']> roomPlayers]> (rooms s)) s in
                  let s2 :=
                    set_farm (<[gameId := delete resourceId roomFarmObjects]>
                                (globalFarmObjects s1)) s1 in
                  (setTimeout (RegenTimer socket gameId) s2,
                   broadcast socket gameId
                     (farmObjectDestroyed resourceId socket (score player')))
              | None => (s, [])
              end
          | None => (s, [])
          end
      | None => (s, [])
      end
  | None => (s, [])
  end.

(** ** Events and runs *)

Inductive ClientEvent :=
| JoinGame (gameId : string) (name : option string) (color : option Z)
| PlayerMove (gameId : string) (position : Position) (velocity : option Position)
| Disconnect
| PlayerShoot (gameId : string) (direction position : Position)
| PlayerHit (gameId shooterId targetId : string)
| FarmObjectHit (gameId objectId : string)
| CollectResource (gameId resourceId : string).

Inductive Event :=
| FromSocket (socket : string) (ev : ClientEvent)
| TimerFires (t : Timer).

Global Instance Timer_eq_dec : EqDecision Timer.
Proof. solve_decision. Defined.

Fixpoint removeFirst (t : Timer) (l : list Timer) : list Timer :=
  match l with
  | [] => []
  | t' :: l' => if decide (t = t') then l' else t' :: removeFirst t l'
  end.

Definition handle (fuel : nat) (env : Env) (socket : string) (ev : ClientEvent)
    (s : State) : option (State * list Effect) :=
  match ev with
  | JoinGame gameId name color => joinGame fuel env socket gameId name color s
  | PlayerMove gameId position velocity => Some (playerMove socket gameId position velocity s)
  | Disconnect => Some (disconnect socket s)
  | PlayerShoot gameId direction position => Some (playerShoot socket gameId direction position s)
  | PlayerHit gameId shooterId targetId => Some (playerHit env socket gameId shooterId targetId s)
  | FarmObjectHit gameId objectId => Some (farmObjectHit socket gameId objectId s)
  | CollectResource gameId resourceId => Some (collectResource socket gameId resourceId s)
  end.

(** A pending timer leaves the queue and its callback runs; a timer that is
    not pending cannot fire.  Pending timers may fire in any order, which
    includes the order of their delays. *)
Definition fire (fuel : nat) (env : Env) (t : Timer) (s : State)
  : option (State * list Effect) :=
  if decide (t ∈ timers s) then
    let s' := set_timers (removeFirst t (timers s)) s in
    match t with
    | RespawnTimer socket gameId targetId =>
        Some (respawnPlayer env socket gameId targetId s')
    | RegenTimer socket gameId =>
        match generateFarmObjects fuel env socket gameId 10 0 s' with
        | None => None
        | Some (s'', out, _) => Some (s'', out)
        end
    end
  else Some (s, []).

Definition step (fuel : nat) (env : Env) (ev : Event) (s : State)
  : option (State * list Effect) :=
  match ev with
  | FromSocket socket ev => handle fuel env socket ev s
  | TimerFires t => fire fuel env t s
  end.

(** The server run on a list of events, each with the environment its
    handler reads; [None] when some handler is still running after [fuel]
    iterations of a placement loop. *)
Fixpoint run (fuel : nat) (s : State) (evs : list (Env * Event))
  : option (State * list Effect) :=
  match evs with
  | [] => Some (s, [])
  | (env, ev) :: rest =>
      match step fuel env ev s with
      | None => None
      | Some (s1, out1) =>
          match run fuel s1 rest with
          | None => None
          | Some (s2, out2) => Some (s2, out1 ++ out2)
          end
      end
  end.

(** ** Auxiliary definitions used in the statements *)

(** What the loop of the disconnect handler leaves of one room. *)
Definition afterLeave (socket : string) (roomPlayers : gmap string PlayerData)
  : option (gmap string PlayerData) :=
  if decide (is_Some (roomPlayers !! socket)) then
    if decide (size (delete socket roomPlayers) = 0%nat) then None
    else Some (delete socket roomPlayers)
  else Some roomPlayers.

(** The coordinates of an obstacle point. *)
Definition coords (o : Obstacle) : Z * Z := (ob_x o, ob_y o).

(** The L template at a base point: three stem points going down from the
    base and two foot points going right from the end of the stem, 60
    apart. *)
Definition lTemplate (bx by_ : Z) : list (Z * Z) :=
  [(bx, by_); (bx, by_ + 60); (bx, by_ + 120); (bx + 60, by_ + 120); (bx + 120, by_ + 120)].

(** The rotation formulas as the specification states them, for a number of
    quarter turns about the base [(bx, by)]: 90 degrees sends [(x, y)] to
    [(bx - (y - by), by + (x - bx))], 180 degrees mirrors both axes about
    the base, 270 degrees is the inverse of 90 degrees. *)
Definition rotateAbout (quarterTurns : Z) (bx by_ : Z) (p : Z * Z) : Z * Z :=
  match quarterTurns with
  | 1 => (bx - (p.2 - by_), by_ + (p.1 - bx))
  | 2 => (bx - (p.1 - bx), by_ - (p.2 - by_))
  | 3 => (bx + (p.2 - by_), by_ - (p.1 - bx))
  | _ => p
  end.

(** The environment in which every [Math.random()] returns 1/2, so that
    every sampled position is (1000, 750), the central obstacle. *)
Definition halfEnv : Env :=
  {| clock := λ _, 0;
     random := λ _, {| numer := 1; slack := 1 |};
     toString36 := λ _, "i" |}.

(** An environment whose k-th random number is k / (k + 1000) and whose
    clock starts at [t0]. *)
Definition countingEnv (t0 : Z) : Env :=
  {| clock := λ k, t0 + Z.of_nat k;
     random := λ k, {| numer := N.of_nat k; slack := 1000 |};
     toString36 := λ d, pretty (numer d) |}.

(** A collectible as [generateFarmObjects] makes them: its key is one of the
    identifiers of the run, its type and value come from one row of the
    table, and its position passed the clearance test. *)
Definition generated (env : Env) (obs : list Obstacle) (o : string) (fo : FarmObject) : Prop :=
  (∃ j, o = farmId env j) ∧ fo_id fo = o ∧
  (∃ tv, tv ∈ typesAndValues ∧ fo_type fo = tv_type tv ∧ value fo = tv_value tv) ∧
  validPosition (fo_position fo) obs = true.

(** How a run of [generateFarmObjects] relates a room's collectibles before
    ([m]) and after ([m']). *)
Definition farmExtends (env : Env) (obs : list Obstacle) (count : nat)
    (m m' : gmap string FarmObject) : Prop :=
  (∀ o fo, m' !! o = Some fo → m !! o = Some fo ∨ generated env obs o fo) ∧
  (∀ o, is_Some (m !! o) → is_Some (m' !! o)) ∧
  ((count ≤ size m)%nat → m' = m).

(** The name and the player map of a join. *)
Definition joinName (env : Env) (name : option string) : string :=
  match name with
  | Some n => n
  | None => "Player-" +:+ pretty (Qfloor (draw_val (random env 0) * 1000))
  end.

Definition joinedPlayers (socket : string) (p : PlayerData)
    (roomPlayers : gmap string PlayerData) : gmap string PlayerData :=
  match roomPlayers !! socket with
  | None => <[socket := p]> roomPlayers
  | Some _ => roomPlayers
  end.

(** The record of player [p] in room [g], and collectible [o] of room [g]. *)
Definition playerAt (s : State) (g p : string) : option PlayerData :=
  rooms s !! g ≫= (.!! p).

Definition objectAt (s : State) (g o : string) : option FarmObject :=
  globalFarmObjects s !! g ≫= (.!! o).

(** A player after a kill took effect on it, as shooter and as target. *)
Definition afterKill (stolen : Z) (shooter : PlayerData) : PlayerData :=
  with_score (score shooter + (20 + stolen)) shooter.

Definition killed (now : Z) (target : PlayerData) : PlayerData :=
  with_respawnTime (now + 3000)
    (with_isAlive false
       (with_score (Z.max 0 (score target - pointsToSteal target)) target)).

(** A player after its respawn timer fired. *)
Definition revived (pos : Position) (player : PlayerData) : PlayerData :=
  with_velocity {| x := 0; y := 0 |} (with_position pos (with_isAlive true player)).

(** The shooter and target records when a hit report is accepted. *)
Definition validHit (s : State) (gameId shooterId targetId : string)
  : option (PlayerData * PlayerData) :=
  if decide (shooterId = targetId) then None
  else
    match playerAt s gameId shooterId, playerAt s gameId targetId with
    | Some shooter, Some target =>
        if isAlive target then Some (shooter, target) else None
    | _, _ => None
    end.

(** The collectible and the collector's record when a collect report is
    accepted. *)
Definition collectible (s : State) (socket gameId objectId : string)
  : option (FarmObject * PlayerData) :=
  match objectAt s gameId objectId, playerAt s gameId socket with
  | Some farmObject, Some player => Some (farmObject, player)
  | _, _ => None
  end.

(** Every score held in a room is non-negative, and so is every collectible
    value. *)
Definition scoresNonneg (s : State) : Prop :=
  ∀ g p pl, playerAt s g p = Some pl → 0 ≤ score pl.

Definition valuesNonneg (s : State) : Prop :=
  ∀ g o fo, objectAt s g o = Some fo → 0 ≤ value fo.

(** The room-wide half of an object-destroyed notification for collectible
    [o] of room [g] (each such notification is this emit followed by its
    echo to the sender), and how many a log holds. *)
Definition isDestroyed (g o : string) (e : Effect) : bool :=
  match e with
  | Emit (ToRoomExcept g' _) (farmObjectDestroyed o' _ _) => bool_decide (g' = g ∧ o' = o)
  | _ => false
  end.

Definition countDestroyed (g o : string) (out : list Effect) : nat :=
  length (List.filter (isDestroyed g o) out).

(** An effect other than an object-destroyed emit. *)
Definition notDestroyed (e : Effect) : Prop :=
  match e with
  | Emit _ (farmObjectDestroyed _ _ _) => False
  | _ => True
  end.

(** 1 while collectible [o] is in room [g], 0 otherwise. *)
Definition presence (s : State) (g o : string) : nat :=
  match objectAt s g o with Some _ => 1%nat | None => 0%nat end.

(** The handler run of this event generates no collectible named [o]: the
    identifiers it can build all differ from [o]. *)
Definition neverGenerates (o : string) (ev : Env * Event) : Prop :=
  ∀ j, farmId ev.1 j ≠ o.

(** The state in which player [socket] of room [gameId] has the given
    alive flag and everything else is as in [s]. *)
Definition withAlive (b : bool) (socket gameId : string) (s : State) : State :=
  set_rooms (alter (alter (with_isAlive b) socket) gameId (rooms s)) s.

(** Player [t] is in room [g] and dead; player [t] is dead or not in room
    [g]. *)
Definition deadIn (s : State) (g t : string) : Prop :=
  ∃ pl, playerAt s g t = Some pl ∧ isAlive pl = false.

Definition goneOrDead (s : State) (g t : string) : Prop :=
  ∀ pl, playerAt s g t = Some pl → isAlive pl = false.

(** The event is not the respawn timer of player [t] of room [g]; the event
    does not come from socket [t]. *)
Definition notRespawnOf (g t : string) (ev : Env * Event) : Prop :=
  ∀ socket, ev.2 ≠ TimerFires (RespawnTimer socket g t).

Definition notFrom (t : string) (ev : Env * Event) : Prop :=
  ∀ e, ev.2 ≠ FromSocket t e.

(** The transport delivers nothing from a socket after its disconnect
    event. *)
Fixpoint silentAfterDisconnect (t : string) (evs : list (Env * Event)) : Prop :=
  match evs with
  | [] => True
  | (_, FromSocket t' Disconnect) :: rest =>
      if decide (t' = t) then Forall (notFrom t) rest
      else silentAfterDisconnect t rest
  | _ :: rest => silentAfterDisconnect t rest
  end.

(** A concrete session in room "r": Ann joins, Ann leaves (the room is now
    empty), Bob joins.  Each handler run reads its own clock and random
    numbers. *)
Definition joinAnn : Env * Event :=
  (countingEnv 1000, FromSocket "a" (JoinGame "r" (Some "Ann") None)).

Definition leaveAnn : Env * Event :=
  (countingEnv 2000, FromSocket "a" Disconnect).

Definition joinBob : Env * Event :=
  (countingEnv 5000, FromSocket "b" (JoinGame "r" (Some "Bob") None)).

(** The player map and the collectibles of room [g] at the end of a run. *)
Definition roomOf (g : string) (r : option (State * list Effect))
  : option (option (gmap string PlayerData)) :=
  (λ r, rooms r.1 !! g) <$> r.

Definition farmOf (g : string) (r : option (State * list Effect))
  : option (gmap string FarmObject) :=
  r ≫= λ r, globalFarmObjects r.1 !! g.

(** The result of a run that finished, and whether it finished. *)
Definition outcome (r : option (State * list Effect)) : State * list Effect :=
  default (initial_state, []) r.

Definition finished (r : option (State * list Effect)) : bool :=
  match r with Some _ => true | None => false end.

(** The collectibles of room [g] at the end of a run, as the list of their
    entries. *)
Definition farmList (g : string) (r : option (State * list Effect))
  : option (list (string * FarmObject)) :=
  map_to_list <$> farmOf g r.

(** A room with a shooter without points and a target with 100 points. *)
Definition arena : State :=
  {| rooms :=
       {[ "r" := {[ "a" := newPlayer "a" "Ann" 1;
                    "b" := with_score 100 (newPlayer "b" "Bob" 2) ]} ]};
     globalFarmObjects := ∅;
     obstacles := ∅;
     timers := [] |}.

(** A room whose only player is dead, with one gem to collect. *)
Definition graveyard : State :=
  {| rooms :=
       {[ "r" := {[ "b" := with_isAlive false (with_score 7 (newPlayer "b" "Bob" 2)) ]} ]};
     globalFarmObjects :=
       {[ "r" := {[ "gem-1" := {| fo_id := "gem-1";
                                  fo_position := {| x := 500; y := 500 |};
                                  fo_type := "gem"; value := 10 |} ]} ]};
     obstacles := ∅;
     timers := [] |}.

(** Ann and Bob join room "r", Bob collects a crystal, Ann kills Bob, and
    reports of the same hit and the same collect arrive again. *)
Definition skirmish : list (Env * Event) :=
  [ joinAnn; joinBob;
    (halfEnv, FromSocket "b" (FarmObjectHit "r" "farm-1000-1"));
    (halfEnv, FromSocket "a" (PlayerHit "r" "a" "b"));
    (halfEnv, FromSocket "a" (PlayerHit "r" "a" "b"));
    (halfEnv, FromSocket "a" (CollectResource "r" "farm-1000-1")) ].

(** What happens in room "r" after Bob was killed there: Bob moves, Ann
    shoots and reports another hit, Bob leaves. *)
Definition aftermath : list (Env * Event) :=
  [ (halfEnv, FromSocket "b" (PlayerMove "r" {| x := 10; y := 20 |} None));
    (halfEnv, FromSocket "a" (PlayerShoot "r" {| x := 1; y := 0 |} {| x := 400; y := 300 |}));
    (halfEnv, FromSocket "a" (PlayerHit "r" "a" "b"));
    (halfEnv, FromSocket "b" Disconnect) ].

(** The scores a notification shows to the clients. *)
Definition payloadScores (p : Payload) : list Z :=
  match p with
  | currentPlayers players => score <$> players
  | playerJoined _ _ _ _ _ sc _ => [sc]
  | playerKilled _ _ killerScore targetScore _ => [killerScore; targetScore]
  | farmObjectDestroyed _ _ playerScore => [playerScore]
  | _ => []
  end.

Definition effectScores (e : Effect) : list Z :=
  match e with
  | Emit _ p => payloadScores p
  | JoinChannel _ _ => []
  end.

Definition emitsNonneg (out : list Effect) : Prop :=
  Forall (λ e, Forall (λ v, 0 ≤ v) (effectScores e)) out.

(** ** Further notions used in the properties of the handlers *)

(** The rectangle from which positions are sampled:
    [Math.random() * 1800 + 100] by [Math.random() * 1300 + 100]. *)
Definition inBounds (p : Position) : Prop :=
  (100 <= x p)%Q ∧ (x p < 1900)%Q ∧ (100 <= y p)%Q ∧ (y p < 1400)%Q.

(** The type and value of a collectible are one row of [typesAndValues]. *)
Definition fromTable (fo : FarmObject) : Prop :=
  (fo_type fo = "crystal" ∧ value fo = 5) ∨
  (fo_type fo = "coin" ∧ value fo = 1) ∨
  (fo_type fo = "gem" ∧ value fo = 10).

(** The room an event names, if it names one (a disconnect names none). *)
Definition eventRoom (ev : Event) : option string :=
  match ev with
  | FromSocket _ (JoinGame g _ _) => Some g
  | FromSocket _ (PlayerMove g _ _) => Some g
  | FromSocket _ Disconnect => None
  | FromSocket _ (PlayerShoot g _ _) => Some g
  | FromSocket _ (PlayerHit g _ _) => Some g
  | FromSocket _ (FarmObjectHit g _) => Some g
  | FromSocket _ (CollectResource g _) => Some g
  | TimerFires (RespawnTimer _ g _) => Some g
  | TimerFires (RegenTimer _ g) => Some g
  end.

(** No registered room is empty; records carry the key they are stored
    under. *)
Definition roomsNonempty (s : State) : Prop :=
  ∀ g roomPlayers, rooms s !! g = Some roomPlayers → roomPlayers ≠ ∅.

Definition keysMatch (s : State) : Prop :=
  (∀ g p pl, playerAt s g p = Some pl → id pl = p) ∧
  (∀ g o fo, objectAt s g o = Some fo → fo_id fo = o).

(** Every collectible is inside the map, clear of the 25 obstacles and typed
    by the table; no room holds more than 10 collectibles. *)
Definition farmWellPlaced (s : State) : Prop :=
  ∀ g o fo, objectAt s g o = Some fo →
    inBounds (fo_position fo) ∧
    validPosition (fo_position fo) roomObstacles = true ∧
    fromTable fo.

Definition farmCapped (s : State) : Prop :=
  ∀ g m, globalFarmObjects s !! g = Some m → (size m ≤ 10)%nat.

(** What the repopulation needs to find: every room that has collectibles or
    a pending repopulation timer has the obstacle list. *)
Definition obstaclesReady (s : State) : Prop :=
  (∀ g l, obstacles s !! g = Some l → l = roomObstacles) ∧
  (∀ g, is_Some (globalFarmObjects s !! g) → is_Some (obstacles s !! g)) ∧
  (∀ socket g, RegenTimer socket g ∈ timers s → is_Some (obstacles s !! g)).

(** An environment with a constant clock whose k-th random number is
    k / (k + 1000), rendered as the decimal of k. *)
Definition tickEnv : Env :=
  {| clock := λ _, 7;
     random := λ k, {| numer := N.of_nat k; slack := 1000 |};
     toString36 := λ d, pretty (numer d) |}.

(** A room with one live and one dead player, and a second room. *)
Definition twoRooms : State :=
  {| rooms :=
       {[ "r" := {[ "a" := with_isAlive false (with_score 30 (newPlayer "a" "Ann" 1));
                    "b" := with_score 9 (newPlayer "b" "Bob" 2) ]};
          "q" := {[ "a" := with_score 4 (newPlayer "a" "Ann" 1);
                    "c" := newPlayer "c" "Cy" 3 ]} ]};
     globalFarmObjects :=
       {[ "r" := {[ "gem-1" := {| fo_id := "gem-1";
                                  fo_position := {| x := 500; y := 500 |};
                                  fo_type := "gem"; value := 10 |} ]} ]};
     obstacles := {[ "r" := roomObstacles ]};
     timers := [] |}.


(** The identifiers that the [for] loop of [generateFarmObjects] builds, in
    the order of its iterations: the identifier of an iteration is read at
    the draw index where the iteration starts, and the next iteration starts
    where the placement loop of this one stopped. *)
Fixpoint createdIds (fuel : nat) (env : Env) (toCreate k : nat) (obs : list Obstacle)
  : list string :=
  match toCreate with
  | O => []
  | S n =>
      farmId env k ::
      match placeLoop fuel env (k + 3)%nat obs with
      | None => []
      | Some (_, k') => createdIds fuel env n k' obs
      end
  end.

(** Wherever in the stream of random numbers a placement loop starts, one of
    its first [fuel] samples is farther than 120 from every obstacle. *)
Definition placementWithin (fuel : nat) (env : Env) (obs : list Obstacle) : Prop :=
  ∀ k : nat, ∃ n : nat,
    (n < fuel)%nat ∧ validPosition (samplePosition env (k + 2 * n)) obs = true.

(** The number of random numbers the join handler has read when it calls
    [generateFarmObjects]: one for the default name, none otherwise. *)
Definition joinDraws (name : option string) : nat :=
  match name with Some _ => 0%nat | None => 1%nat end.

(** The environment in which the clock stands at 7 and every
    [Math.random()] returns 0: every identifier is "farm-7-" (the base-36
    rendering of 0 is "0", of which [substr(2, 9)] is empty), every type is
    the first row of the table and every sampled position is the corner
    (100, 100). *)
Definition frozenEnv : Env :=
  {| clock := λ _, 7;
     random := λ _, {| numer := 0; slack := 1 |};
     toString36 := λ _, "" |}.

(** As [frozenEnv], with a clock that advances by one at each reading. *)
Definition cornerEnv : Env :=
  {| clock := λ k, Z.of_nat k;
     random := λ _, {| numer := 0; slack := 1 |};
     toString36 := λ _, "" |}.

(** Ann joins room "r", collects "farm-7-", the repopulation timer of her
    collect fires, and she collects "farm-7-" again. *)
Definition recollect : list (Env * Event) :=
  [ (frozenEnv, FromSocket "a" (JoinGame "r" (Some "Ann") None));
    (frozenEnv, FromSocket "a" (FarmObjectHit "r" "farm-7-"));
    (frozenEnv, TimerFires (RegenTimer "a" "r"));
    (frozenEnv, FromSocket "a" (CollectResource "r" "farm-7-")) ].

(** The number of collectibles of room [g] (none when the room has no
    collectible map yet). *)
Definition farmCount (s : State) (g : string) : nat :=
  size (default ∅ (globalFarmObjects s !! g)).

(** The identifiers built by [generateFarmObjects] called for room [g] in
    state [s] with the first draw index [k], and by the call a join makes
    (after [generateObstacles] has stored the obstacle list of a room that
    had none). *)
Definition runIds (fuel : nat) (env : Env) (g : string) (count k : nat) (s : State)
  : list string :=
  createdIds fuel env (count - farmCount s g) k (default [] (obstacles s !! g)).

Definition joinIds (fuel : nat) (env : Env) (g : string) (name : option string)
    (s : State) : list string :=
  createdIds fuel env (10 - farmCount s g) (joinDraws name)
    (default roomObstacles (obstacles s !! g)).

(** The identifiers of the collectibles of room [g] at the end of a run. *)
Definition farmIds (g : string) (r : option (State * list Effect))
  : option (list string) :=
  (λ l, l.*1) <$> farmList g r.

(** * Properties *)

(** ** Basic facts *)

Lemma pointsToSteal_half (target : PlayerData) :
  pointsToSteal target = score target / 2.
Proof.
  unfold pointsToSteal, Qfloor. simpl. by rewrite Z.mul_1_r.
Qed.

Lemma set_rooms_same (s : State) : set_rooms (rooms s) s = s.
Proof. by destruct s. Qed.

Lemma collectResource_farmObjectHit (socket gameId resourceId : string) (s : State) :
  collectResource socket gameId resourceId s = farmObjectHit socket gameId resourceId s.
Proof. reflexivity. Qed.

Section Combat.
Context (env : Env) (socket gameId : string).

Lemma playerHit_self (playerId : string) (s : State) :
  playerHit env socket gameId playerId playerId s = (s, []).
Proof. unfold playerHit. by rewrite decide_True. Qed.

Lemma playerHit_no_room (shooterId targetId : string) (s : State) :
  rooms s !! gameId = None →
  playerHit env socket gameId shooterId targetId s = (s, []).
Proof. intros H. unfold playerHit. rewrite H. by case_decide. Qed.

Lemma playerHit_no_shooter (shooterId targetId : string) (s : State)
    (roomPlayers : gmap string PlayerData) :
  rooms s !! gameId = Some roomPlayers →
  roomPlayers !! shooterId = None →
  playerHit env socket gameId shooterId targetId s = (s, []).
Proof. intros H1 H2. unfold playerHit. rewrite H1, H2. by case_decide. Qed.

Lemma playerHit_no_target (shooterId targetId : string) (s : State)
    (roomPlayers : gmap string PlayerData) :
  rooms s !! gameId = Some roomPlayers →
  roomPlayers !! targetId = None →
  playerHit env socket gameId shooterId targetId s = (s, []).
Proof.
  intros H1 H2. unfold playerHit. rewrite H1, H2.
  case_decide; [done|]. by destruct (roomPlayers !! shooterId).
Qed.

Lemma playerHit_dead_target (shooterId targetId : string) (s : State)
    (roomPlayers : gmap string PlayerData) (target : PlayerData) :
  rooms s !! gameId = Some roomPlayers →
  roomPlayers !! targetId = Some target →
  isAlive target = false →
  playerHit env socket gameId shooterId targetId s = (s, []).
Proof.
  intros H1 H2 H3. unfold playerHit. rewrite H1, H2, H3.
  case_decide; [done|]. by destruct (roomPlayers !! shooterId).
Qed.
End Combat.

(** C1. A hit by a present shooter on a live target other than the shooter
    steals [floor(target.score * 0.5)]: the shooter gains 20 plus the stolen
    points, the target keeps [max(0, score - stolen)], is marked dead with
    respawn deadline [Date.now() + 3000], a respawn timer is scheduled and
    the kill notification carrying both new scores and the stolen amount
    goes to the room and to the sender.  With target score 100 and shooter
    score 0 the new scores are 70 and 50. *)
Theorem playerHit_valid (env : Env) (socket gameId shooterId targetId : string)
    (s : State) (roomPlayers : gmap string PlayerData) (shooter target : PlayerData) :
  shooterId ≠ targetId →
  rooms s !! gameId = Some roomPlayers →
  roomPlayers !! shooterId = Some shooter → isAlive shooter = true →
  roomPlayers !! targetId = Some target → isAlive target = true →
  let stolen := Qfloor (inject_Z (score target) * (1 # 2)) in
  let shooter' := with_score (score shooter + (20 + stolen)) shooter in
  let target' :=
    with_respawnTime (clock env 0 + 3000)
      (with_isAlive false (with_score (Z.max 0 (score target - stolen)) target)) in
  playerHit env socket gameId shooterId targetId s =
    (setTimeout (RespawnTimer socket gameId targetId)
       (set_rooms
          (<[gameId := <[targetId := target']> (<[shooterId := shooter']> roomPlayers)]>
             (rooms s)) s),
     [Emit (ToRoomExcept gameId socket)
        (playerKilled shooterId targetId (score shooter + (20 + stolen))
           (Z.max 0 (score target - stolen)) stolen);
      Emit (ToSocket socket)
        (playerKilled shooterId targetId (score shooter + (20 + stolen))
           (Z.max 0 (score target - stolen)) stolen)]) ∧
  stolen = score target / 2 ∧
  (score target = 100 → score shooter = 0 →
   score shooter' = 70 ∧ score target' = 50).
Proof.
  intros Hne Hroom Hsh _ Htg Halive stolen shooter' target'.
  assert (Hmax : (if decide (score target - stolen < 0) then 0
                  else score target - stolen) = Z.max 0 (score target - stolen)).
  { case_decide; lia. }
  split; [|split].
  - unfold playerHit. rewrite decide_False by done.
    rewrite Hroom, Hsh, Htg, Halive.
    fold stolen. unfold pointsToSteal. fold stolen. rewrite Hmax. reflexivity.
  - apply (pointsToSteal_half target).
  - intros Ht Hs. subst shooter' target'. simpl.
    assert (stolen = 50) as ->.
    { subst stolen. rewrite Ht. reflexivity. }
    rewrite Ht, Hs. done.
Qed.

(** ** Disconnect *)

Section Disconnect.
Context (socket : string).

Lemma disconnect_fold_lookup (M m : gmap string (gmap string PlayerData)) :
  m ⊆ M →
  ∀ g, (map_fold (disconnectRoom socket) (M, []) m).1 !! g =
    match m !! g with
    | Some roomPlayers => afterLeave socket roomPlayers
    | None => M !! g
    end.
Proof.
  apply (map_fold_weak_ind
           (λ r m, m ⊆ M → ∀ g, r.1 !! g =
              match m !! g with
              | Some roomPlayers => afterLeave socket roomPlayers
              | None => M !! g
              end)); [done|].
  intros i rp m' r Hi IH Hsub g.
  assert (Hm' : m' ⊆ M).
  { etrans; [|exact Hsub]. by apply insert_subseteq. }
  assert (HMi : M !! i = Some rp).
  { eapply lookup_weaken; [|exact Hsub]. apply lookup_insert_eq. }
  specialize (IH Hm').
  unfold disconnectRoom, afterLeave.
  destruct (decide (i = g)) as [->|Hne].
  - rewrite lookup_insert_eq.
    case_decide; simpl.
    + case_decide.
      * by rewrite lookup_delete_eq.
      * by rewrite lookup_insert_eq.
    + by rewrite IH, Hi.
  - rewrite lookup_insert_ne by done.
    case_decide; simpl; [|apply IH].
    case_decide.
    + rewrite lookup_delete_ne, lookup_insert_ne by done. apply IH.
    + rewrite lookup_insert_ne by done. apply IH.
Qed.

Lemma disconnect_rooms (s : State) (g : string) :
  rooms (disconnect socket s).1 !! g = rooms s !! g ≫= afterLeave socket.
Proof.
  unfold disconnect; simpl.
  rewrite disconnect_fold_lookup by done.
  by destruct (rooms s !! g).
Qed.

Lemma disconnect_farm (s : State) :
  globalFarmObjects (disconnect socket s).1 = globalFarmObjects s.
Proof. reflexivity. Qed.

Lemma disconnect_obstacles (s : State) :
  obstacles (disconnect socket s).1 = obstacles s.
Proof. reflexivity. Qed.

Lemma disconnect_timers (s : State) :
  timers (disconnect socket s).1 = timers s.
Proof. reflexivity. Qed.

Lemma disconnect_fold_out (M m : gmap string (gmap string PlayerData)) (e : Effect) :
  e ∈ (map_fold (disconnectRoom socket) (M, []) m).2 ↔
  ∃ roomId roomPlayers,
    m !! roomId = Some roomPlayers ∧ is_Some (roomPlayers !! socket) ∧
    e = Emit (ToRoomExcept roomId socket) (playerLeft socket None).
Proof.
  apply (map_fold_weak_ind
           (λ r m, e ∈ r.2 ↔
              ∃ roomId roomPlayers,
                m !! roomId = Some roomPlayers ∧ is_Some (roomPlayers !! socket) ∧
                e = Emit (ToRoomExcept roomId socket) (playerLeft socket None))).
  { simpl. split; [by intros ?%elem_of_nil|]. by intros (?&?&?%lookup_empty_Some&_). }
  intros i rp m' r Hi IH. unfold disconnectRoom.
  case_decide as Hmem; simpl.
  - rewrite elem_of_app, IH, list_elem_of_singleton, lookup_delete_eq. simpl.
    split.
    + intros [(g & rp' & Hg & Hin & ->)| ->].
      * exists g, rp'. split; [|done].
        rewrite lookup_insert_ne; [done|]. intros ->. congruence.
      * exists i, rp. by rewrite lookup_insert_eq.
    + intros (g & rp' & Hg & Hin & ->).
      destruct (decide (i = g)) as [->|Hne]; [by right|].
      left. exists g, rp'. by rewrite lookup_insert_ne in Hg.
  - rewrite IH. split.
    + intros (g & rp' & Hg & Hin & ->). exists g, rp'. split; [|done].
      rewrite lookup_insert_ne; [done|]. intros ->. congruence.
    + intros (g & rp' & Hg & Hin & ->).
      destruct (decide (i = g)) as [->|Hne].
      * rewrite lookup_insert_eq in Hg. by simplify_eq.
      * exists g, rp'. by rewrite lookup_insert_ne in Hg.
Qed.
End Disconnect.

(** C9. Every notification of a disconnect is a [playerLeft] whose name is
    undefined, one for each room the player was a member of: the name is
    looked up in the room's map after the player has been deleted from it. *)
Theorem disconnect_name_undefined (socket : string) (s : State) :
  (∀ e, e ∈ (disconnect socket s).2 →
        ∃ roomId, e = Emit (ToRoomExcept roomId socket) (playerLeft socket None)) ∧
  (∀ roomId roomPlayers,
     rooms s !! roomId = Some roomPlayers → is_Some (roomPlayers !! socket) →
     Emit (ToRoomExcept roomId socket) (playerLeft socket None) ∈ (disconnect socket s).2) ∧
  (∀ roomId n,
     Emit (ToRoomExcept roomId socket) (playerLeft socket (Some n)) ∉ (disconnect socket s).2).
Proof.
  unfold disconnect; simpl. split; [|split].
  - intros e (g & rp & _ & _ & ->)%disconnect_fold_out. by exists g.
  - intros g rp Hg Hin. apply disconnect_fold_out. by exists g, rp.
  - intros g n (g' & rp & _ & _ & [=])%disconnect_fold_out.
Qed.

(** ** The obstacle layout *)

Lemma createLShape_rotation (bx by_ q : Z) :
  q ∈ [0; 1; 2; 3] →
  coords <$> createLShape bx by_ q = rotateAbout q bx by_ <$> lTemplate bx by_.
Proof.
  intros Hq. repeat (apply elem_of_cons in Hq as [->|Hq]);
    [..|by apply elem_of_nil in Hq];
    unfold createLShape, stemPoint, footPoint, coords; simpl;
    repeat (f_equal; try lia).
Qed.

Lemma rotateAbout_270_inverse (bx by_ : Z) (p : Z * Z) :
  rotateAbout 3 bx by_ (rotateAbout 1 bx by_ p) = p ∧
  rotateAbout 1 bx by_ (rotateAbout 3 bx by_ p) = p.
Proof. destruct p; simpl; split; f_equal; lia. Qed.

Lemma generateObstacles_fresh (gameId : string) (s : State) :
  obstacles s !! gameId = None →
  generateObstacles gameId s =
    (set_obstacles (<[gameId := roomObstacles]> (obstacles s)) s, roomObstacles).
Proof.
  intros H. unfold generateObstacles. rewrite H. simpl.
  by rewrite lookup_insert_eq.
Qed.

Lemma generateObstacles_known (gameId : string) (s : State) (l : list Obstacle) :
  obstacles s !! gameId = Some l →
  generateObstacles gameId s = (s, l).
Proof. intros H. unfold generateObstacles. by rewrite H, H. Qed.

Lemma roomObstacles_length : length roomObstacles = 25%nat.
Proof. reflexivity. Qed.

Lemma roomObstacles_quadrants :
  Forall (λ o, ob_x o < 1000 ∧ ob_y o < 750) (createLShape 300 300 0) ∧
  Forall (λ o, 1000 < ob_x o ∧ ob_y o < 750) (createLShape 1700 300 1) ∧
  Forall (λ o, ob_x o < 1000 ∧ 750 < ob_y o) (createLShape 300 1100 3) ∧
  Forall (λ o, 1000 < ob_x o ∧ 750 < ob_y o) (createLShape 1700 1100 2).
Proof. repeat split; repeat constructor; simpl; lia. Qed.

(** ** The placement loop *)

Lemma placeLoop_sound (fuel : nat) (env : Env) (k : nat) (obs : list Obstacle)
    (p : Position) (k' : nat) :
  placeLoop fuel env k obs = Some (p, k') → validPosition p obs = true.
Proof.
  revert k. induction fuel as [|fuel IH]; intros k; simpl; [done|].
  destruct (validPosition (samplePosition env k) obs) eqn:Hv.
  - by intros [= <- <-].
  - apply IH.
Qed.

Lemma placeLoop_all_rejected (env : Env) (obs : list Obstacle) (fuel k : nat) :
  (∀ j : nat, validPosition (samplePosition env (k + 2 * j)) obs = false) →
  placeLoop fuel env k obs = None.
Proof.
  revert k. induction fuel as [|fuel IH]; intros k H; simpl; [done|].
  specialize (H 0%nat) as H0. rewrite Nat.mul_0_r, Nat.add_0_r in H0. rewrite H0.
  apply IH. intros j. specialize (H (S j)).
  by replace (k + 2 + 2 * j)%nat with (k + 2 * S j)%nat by lia.
Qed.

Lemma placeLoop_first_valid (env : Env) (obs : list Obstacle) (n fuel k : nat) :
  (∀ j : nat, (j < n)%nat → validPosition (samplePosition env (k + 2 * j)) obs = false) →
  validPosition (samplePosition env (k + 2 * n)) obs = true →
  placeLoop fuel env k obs =
    if decide (n < fuel)%nat
    then Some (samplePosition env (k + 2 * n), (k + 2 * n + 2)%nat)
    else None.
Proof.
  revert fuel k. induction n as [|n IH]; intros fuel k Hrej Hok.
  - rewrite Nat.mul_0_r, Nat.add_0_r in *.
    destruct fuel; simpl; [done|]. by rewrite Hok.
  - destruct fuel as [|fuel]; simpl; [done|].
    specialize (Hrej 0%nat ltac:(lia)) as H0.
    rewrite Nat.mul_0_r, Nat.add_0_r in H0. rewrite H0.
    rewrite (IH fuel (k + 2)%nat).
    + replace (k + 2 + 2 * n)%nat with (k + 2 * S n)%nat by lia.
      repeat case_decide; done || lia.
    + intros j Hj. specialize (Hrej (S j) ltac:(lia)).
      by replace (k + 2 + 2 * j)%nat with (k + 2 * S j)%nat by lia.
    + by replace (k + 2 + 2 * n)%nat with (k + 2 * S n)%nat by lia.
Qed.

Lemma farEnough_spec (p : Position) (o : Obstacle) :
  farEnough p o = true ↔
  (120 * 120 < (x p - inject_Z (ob_x o)) * (x p - inject_Z (ob_x o)) +
               (y p - inject_Z (ob_y o)) * (y p - inject_Z (ob_y o)))%Q.
Proof.
  unfold farEnough. rewrite negb_true_iff. split.
  - intros H. apply Qnot_le_lt. intros Hle. apply Qle_bool_iff in Hle. congruence.
  - intros H. destruct (Qle_bool _ _) eqn:E; [|done].
    apply Qle_bool_iff in E. by apply Qlt_not_le in H.
Qed.

Lemma halfEnv_stuck (fuel k : nat) : placeLoop fuel halfEnv k roomObstacles = None.
Proof.
  apply placeLoop_all_rejected. intros j. by vm_compute.
Qed.

(** C8, as the claim states it, fails: in the generated obstacle layout, when
    [Math.random()] keeps returning 1/2 every sample is the point (1000, 750)
    of the central obstacle, and no number of iterations makes the loop
    return. *)
Lemma placement_not_bounded :
  ¬ ∃ fuel, is_Some (placeLoop fuel halfEnv 0 roomObstacles).
Proof. intros [fuel [r Hr]]. by rewrite halfEnv_stuck in Hr. Qed.

(** C8, amended.  The placement loop has no bound on attempts and no
    relaxation of the clearance: it returns the first sampled position that
    is farther than 120 from every obstacle, after as many attempts as that
    takes; when no sample ever is, it never returns; and a position it
    returns is always farther than 120 from every obstacle of the room.  In
    a room without obstacles it returns the first sample. *)
Theorem placement_unbounded_rejection_sampling (env : Env) (obs : list Obstacle) (k : nat) :
  (∀ n : nat,
     (∀ j : nat, (j < n)%nat → validPosition (samplePosition env (k + 2 * j)) obs = false) →
     validPosition (samplePosition env (k + 2 * n)) obs = true →
     (∀ fuel, (n < fuel)%nat →
        placeLoop fuel env k obs =
          Some (samplePosition env (k + 2 * n), (k + 2 * n + 2)%nat)) ∧
     (∀ fuel, (fuel ≤ n)%nat → placeLoop fuel env k obs = None)) ∧
  ((∀ j : nat, validPosition (samplePosition env (k + 2 * j)) obs = false) →
   ∀ fuel, placeLoop fuel env k obs = None) ∧
  (∀ fuel p k', placeLoop fuel env k obs = Some (p, k') →
     ∀ o, o ∈ obs →
       (120 * 120 < (x p - inject_Z (ob_x o)) * (x p - inject_Z (ob_x o)) +
                    (y p - inject_Z (ob_y o)) * (y p - inject_Z (ob_y o)))%Q) ∧
  (∀ fuel, placeLoop (S fuel) env k [] = Some (samplePosition env k, (k + 2)%nat)).
Proof.
  repeat split.
  - intros fuel Hf. rewrite (placeLoop_first_valid env obs n) by done.
    by rewrite decide_True.
  - intros fuel Hf. rewrite (placeLoop_first_valid env obs n) by done.
    rewrite decide_False; [done|lia].
  - intros H fuel. by apply placeLoop_all_rejected.
  - intros fuel p k' Hp o Ho. apply placeLoop_sound in Hp.
    apply farEnough_spec. unfold validPosition in Hp.
    rewrite forallb_forall in Hp. apply Hp. by apply list_elem_of_In.
Qed.

Lemma placement_unbounded_rejection_sampling_witness :
  placeLoop 3 (countingEnv 0) 0 roomObstacles = Some (samplePosition (countingEnv 0) 0, 2%nat) ∧
  placeLoop 0 (countingEnv 0) 0 roomObstacles = None ∧
  (∀ fuel, placeLoop fuel halfEnv 0 roomObstacles = None).
Proof.
  pose proof (placement_unbounded_rejection_sampling (countingEnv 0) roomObstacles 0)
    as (H1 & _ & _ & _).
  pose proof (placement_unbounded_rejection_sampling halfEnv roomObstacles 0)
    as (_ & H2 & _ & _).
  destruct (H1 0%nat) as [Ha Hb]; [intros j Hj; lia | by vm_compute |].
  split; [|split].
  - apply (Ha 3%nat). lia.
  - apply (Hb 0%nat). lia.
  - apply H2. intros j. by vm_compute.
Defined.

(** ** Collectible generation *)

Lemma draw_lt_den (d : Draw) : 0 ≤ Z.of_N (numer d) < Z.pos (draw_den d).
Proof. unfold draw_den. destruct (numer d); simpl; lia. Qed.

Lemma draw_val_range (d : Draw) : (0 <= draw_val d)%Q ∧ (draw_val d < 1)%Q.
Proof.
  pose proof (draw_lt_den d). unfold draw_val, Qle, Qlt. simpl. lia.
Qed.

Lemma pickType_elem (d : Draw) : pickType d ∈ typesAndValues.
Proof.
  unfold pickType.
  set (i := Qfloor _).
  assert (Hi : 0 ≤ i < 3).
  { subst i. unfold Qfloor, draw_val, Qmult. simpl.
    rewrite Pos.mul_1_r. pose proof (draw_lt_den d).
    split.
    - apply Z.div_pos; lia.
    - apply Z.div_lt_upper_bound; lia. }
  clearbody i.
  assert (i = 0 ∨ i = 1 ∨ i = 2) as [E|[E|E]] by lia; subst i; simpl;
    repeat first [apply list_elem_of_here | apply list_elem_of_further].
Qed.

Lemma typesAndValues_positive (tv : TypeAndValue) :
  tv ∈ typesAndValues → 0 < tv_value tv.
Proof.
  unfold typesAndValues. intros H.
  repeat (apply elem_of_cons in H as [->|H]); [done..|by apply elem_of_nil in H].
Qed.

Lemma generated_value (env : Env) (obs : list Obstacle) (o : string) (fo : FarmObject) :
  generated env obs o fo → 0 < value fo.
Proof.
  intros (_ & _ & (tv & Htv & _ & ->) & _). by apply typesAndValues_positive.
Qed.

Lemma createFarmObjects_spec (fuel : nat) (env : Env) (obs : list Obstacle)
    (n k : nat) (m m' : gmap string FarmObject) (k' : nat) :
  createFarmObjects fuel env n k obs m = Some (m', k') →
  (∀ o fo, m' !! o = Some fo → m !! o = Some fo ∨ generated env obs o fo) ∧
  (∀ o, is_Some (m !! o) → is_Some (m' !! o)).
Proof.
  revert k m. induction n as [|n IH]; intros k m; simpl.
  { intros [= <- <-]. split; [by left|done]. }
  destruct (placeLoop fuel env (k + 3) obs) as [[p k1]|] eqn:Hp; [|done].
  intros [Hin Hdom]%IH. split.
  - intros o fo [H|H]%Hin; [|by right].
    destruct (decide (farmId env k = o)) as [<-|Hne].
    + rewrite lookup_insert_eq in H. injection H as <-. right.
      split; [by exists k|]. split; [done|]. split.
      * exists (pickType (random env (k + 2))). split; [apply pickType_elem|done].
      * simpl. by eapply placeLoop_sound.
    + rewrite lookup_insert_ne in H by done. by left.
  - intros o Ho. apply Hdom.
    destruct (decide (farmId env k = o)) as [<-|Hne].
    + rewrite lookup_insert_eq. by eexists.
    + by rewrite lookup_insert_ne.
Qed.

Lemma generateFarmObjects_spec (fuel : nat) (env : Env) (socket gameId : string)
    (count k : nat) (s s' : State) (out : list Effect) (k' : nat) :
  generateFarmObjects fuel env socket gameId count k s = Some (s', out, k') →
  rooms s' = rooms s ∧ obstacles s' = obstacles s ∧ timers s' = timers s ∧
  (∃ m', globalFarmObjects s' = <[gameId := m']> (globalFarmObjects s) ∧
         farmExtends env (default [] (obstacles s !! gameId)) count
           (default ∅ (globalFarmObjects s !! gameId)) m') ∧
  (∀ e, e ∈ out → ∃ sc l, e = Emit sc (farmObjectsUpdate l)).
Proof.
  unfold generateFarmObjects.
  set (s1 := match globalFarmObjects s !! gameId with
             | None => set_farm (<[gameId := ∅]> (globalFarmObjects s)) s
             | Some _ => s end).
  assert (Hs1 : rooms s1 = rooms s ∧ obstacles s1 = obstacles s ∧ timers s1 = timers s ∧
                globalFarmObjects s1 =
                  <[gameId := default ∅ (globalFarmObjects s !! gameId)]> (globalFarmObjects s)).
  { subst s1. destruct (globalFarmObjects s !! gameId) eqn:E; simpl; [|done].
    by rewrite insert_id. }
  destruct Hs1 as (Hr & Ho & Ht & Hf).
  assert (Hm : default ∅ (globalFarmObjects s1 !! gameId) =
               default ∅ (globalFarmObjects s !! gameId)).
  { by rewrite Hf, lookup_insert_eq. }
  rewrite Hm, Ho. set (m := default ∅ (globalFarmObjects s !! gameId)) in *.
  case_decide as Hsize.
  - destruct (createFarmObjects _ _ _ _ _ _) as [[m' k1]|] eqn:Hc; [|done].
    intros [= <- <- <-]. simpl. rewrite Hr, Ho, Ht, Hf, insert_insert_eq.
    repeat split; try done.
    + exists m'. split; [done|].
      apply createFarmObjects_spec in Hc as [H1 H2].
      repeat split; [done..|]. lia.
    + intros e. case_decide; [|by intros ?%elem_of_nil].
      destruct (rooms s !! gameId); [|by intros ?%elem_of_nil].
      unfold broadcast. intros He.
      repeat (apply elem_of_cons in He as [->|He]); [by eexists _, _..|].
      by apply elem_of_nil in He.
  - intros [= <- <- <-]. repeat split; try done.
    + exists m. split; [done|]. repeat split; [by left|done..].
    + by intros e ?%elem_of_nil.
Qed.

Lemma generateFarmObjects_total (fuel : nat) (env : Env) (socket gameId : string)
    (count k : nat) (s : State) (m : gmap string FarmObject) :
  globalFarmObjects s !! gameId = Some m → (count ≤ size m)%nat →
  generateFarmObjects fuel env socket gameId count k s = Some (s, [], k).
Proof.
  intros H Hsize. unfold generateFarmObjects. rewrite H. simpl. rewrite H. simpl.
  rewrite decide_False; [done|lia].
Qed.

(** ** When a generation run returns, and which identifiers it builds *)

Lemma placeLoop_accepts (env : Env) (obs : list Obstacle) (fuel k n : nat) :
  (n < fuel)%nat →
  validPosition (samplePosition env (k + 2 * n)) obs = true →
  is_Some (placeLoop fuel env k obs).
Proof.
  revert k n. induction fuel as [|fuel IH]; intros k n Hn Hok; [lia|]. simpl.
  destruct (validPosition (samplePosition env k) obs) eqn:Hk; [by eexists|].
  destruct n as [|n].
  - rewrite Nat.mul_0_r, Nat.add_0_r in Hok. congruence.
  - apply (IH (k + 2)%nat n); [lia|].
    by replace (k + 2 + 2 * n)%nat with (k + 2 * S n)%nat by lia.
Qed.

Lemma placeLoop_within (fuel : nat) (env : Env) (obs : list Obstacle) (k : nat) :
  placementWithin fuel env obs → is_Some (placeLoop fuel env k obs).
Proof. intros H. destruct (H k) as (n & Hn & Hok). by eapply placeLoop_accepts. Qed.

Lemma createFarmObjects_returns (fuel : nat) (env : Env) (obs : list Obstacle)
    (n k : nat) (m : gmap string FarmObject) :
  placementWithin fuel env obs → is_Some (createFarmObjects fuel env n k obs m).
Proof.
  intros H. revert k m. induction n as [|n IH]; intros k m; simpl; [by eexists|].
  destruct (placeLoop_within fuel env obs (k + 3) H) as [[p k1] ->]. apply IH.
Qed.

Lemma createFarmObjects_ids (fuel : nat) (env : Env) (obs : list Obstacle)
    (n k : nat) (m m' : gmap string FarmObject) (k' : nat) :
  createFarmObjects fuel env n k obs m = Some (m', k') →
  length (createdIds fuel env n k obs) = n ∧
  (∀ o, o ∉ createdIds fuel env n k obs → m' !! o = m !! o) ∧
  (∀ o, o ∈ createdIds fuel env n k obs → is_Some (m' !! o)) ∧
  (size m' ≤ size m + n)%nat ∧
  (size m' = (size m + n)%nat ↔
   NoDup (createdIds fuel env n k obs) ∧
   ∀ o, o ∈ createdIds fuel env n k obs → m !! o = None).
Proof.
  revert k m. induction n as [|n IH]; intros k m; simpl.
  { intros [= <- <-]. split; [done|]. split; [done|].
    split; [by intros o ?%elem_of_nil|]. split; [lia|].
    split; [|lia]. intros _. split; [constructor|by intros o ?%elem_of_nil]. }
  destruct (placeLoop fuel env (k + 3) obs) as [[p k1]|] eqn:Hp; [|done].
  set (fo := {| fo_id := farmId env k; fo_position := p;
                fo_type := tv_type (pickType (random env (k + 2)%nat));
                value := tv_value (pickType (random env (k + 2)%nat)) |}).
  intros Hc. destruct (IH _ _ Hc) as (Hlen & Hkeep & Hnew & Hle & Hiff).
  set (ids := createdIds fuel env n k1 obs) in *.
  assert (Hsize1 : size (<[farmId env k := fo]> m) =
                   match m !! farmId env k with
                   | Some _ => size m
                   | None => S (size m)
                   end).
  { destruct (m !! farmId env k) eqn:E.
    - by rewrite map_size_insert_Some.
    - by rewrite map_size_insert_None. }
  split; [by rewrite Hlen|]. split; [|split; [|split]].
  - intros o [Hne Ho]%not_elem_of_cons. rewrite Hkeep by done.
    by rewrite lookup_insert_ne.
  - intros o Ho. destruct (decide (o ∈ ids)) as [Hin|Hout]; [by apply Hnew|].
    apply elem_of_cons in Ho as [->|Ho]; [|done].
    rewrite Hkeep by done. rewrite lookup_insert_eq. by eexists.
  - rewrite Hsize1 in Hle. destruct (m !! farmId env k); lia.
  - rewrite NoDup_cons. split.
    + intros Hsz.
      destruct (m !! farmId env k) eqn:E; [rewrite Hsize1 in Hle; lia|].
      rewrite Hsize1 in Hiff, Hle.
      destruct Hiff as [Hiff _]. destruct Hiff as [Hnd Hfresh]; [lia|].
      assert (Hnotin : farmId env k ∉ ids).
      { intros Hin. specialize (Hfresh _ Hin). by rewrite lookup_insert_eq in Hfresh. }
      split; [done|]. intros o [->|Ho]%elem_of_cons; [done|].
      specialize (Hfresh _ Ho). rewrite lookup_insert_ne in Hfresh; [done|].
      by intros <-.
    + intros [[Hnotin Hnd] Hfresh].
      assert (E : m !! farmId env k = None) by apply Hfresh, list_elem_of_here.
      rewrite E in Hsize1. rewrite Hsize1 in Hiff.
      destruct Hiff as [_ Hiff]. rewrite Hiff; [lia|]. split; [done|].
      intros o Ho. rewrite lookup_insert_ne by (by intros <-).
      by apply Hfresh, list_elem_of_further.
Qed.

(** [generateFarmObjects], with the lookups of the source resolved. *)
Lemma generateFarmObjects_eq (fuel : nat) (env : Env) (socket g : string)
    (count k : nat) (s : State) :
  generateFarmObjects fuel env socket g count k s =
    if decide (size (default ∅ (globalFarmObjects s !! g)) < count)%nat then
      match createFarmObjects fuel env
              (count - size (default ∅ (globalFarmObjects s !! g))) k
              (default [] (obstacles s !! g))
              (default ∅ (globalFarmObjects s !! g)) with
      | None => None
      | Some (m', k') =>
          Some (set_farm (<[g := m']> (globalFarmObjects s)) s,
                match rooms s !! g with
                | Some _ => broadcast socket g (farmObjectsUpdate (values m'))
                | None => []
                end, k')
      end
    else
      Some (set_farm (<[g := default ∅ (globalFarmObjects s !! g)]>
                        (globalFarmObjects s)) s, [], k).
Proof.
  unfold generateFarmObjects.
  set (s1 := match globalFarmObjects s !! g with
             | None => set_farm (<[g := ∅]> (globalFarmObjects s)) s
             | Some _ => s end).
  assert (Hs1 : s1 = set_farm (<[g := default ∅ (globalFarmObjects s !! g)]>
                                 (globalFarmObjects s)) s).
  { subst s1. destruct (globalFarmObjects s !! g) eqn:E; simpl; [|done].
    rewrite insert_id by done. by destruct s. }
  rewrite Hs1. simpl. rewrite lookup_insert_eq. simpl.
  case_decide as Hsize; [|done].
  destruct (createFarmObjects _ _ _ _ _ _) as [[m' k1]|]; [|done].
  rewrite insert_insert_eq. unfold set_farm. simpl.
  by rewrite decide_True by lia.
Qed.

Lemma generateFarmObjects_cases (fuel : nat) (env : Env) (socket g : string)
    (count k : nat) (s s' : State) (out : list Effect) (k' : nat) :
  generateFarmObjects fuel env socket g count k s = Some (s', out, k') →
  let m := default ∅ (globalFarmObjects s !! g) in
  ((count ≤ size m)%nat ∧ out = [] ∧ k' = k ∧
   globalFarmObjects s' = <[g := m]> (globalFarmObjects s)) ∨
  ((size m < count)%nat ∧
   ∃ m', createFarmObjects fuel env (count - size m) k
           (default [] (obstacles s !! g)) m = Some (m', k') ∧
         globalFarmObjects s' = <[g := m']> (globalFarmObjects s) ∧
         out = match rooms s !! g with
               | Some _ => broadcast socket g (farmObjectsUpdate (values m'))
               | None => []
               end).
Proof.
  rewrite generateFarmObjects_eq. simpl. case_decide as Hsize.
  - destruct (createFarmObjects _ _ _ _ _ _) as [[m' k1]|] eqn:Hc; [|done].
    intros [= <- <- <-]. right. split; [done|]. by exists m'.
  - intros [= <- <- <-]. left. split; [lia|]. done.
Qed.

Lemma generateFarmObjects_returns (fuel : nat) (env : Env) (socket g : string)
    (count k : nat) (s : State) :
  placementWithin fuel env (default [] (obstacles s !! g)) ∨
  (count ≤ size (default ∅ (globalFarmObjects s !! g)))%nat →
  is_Some (generateFarmObjects fuel env socket g count k s).
Proof.
  intros H. rewrite generateFarmObjects_eq. case_decide as Hsize; [|by eexists].
  destruct H as [H|H]; [|lia].
  destruct (createFarmObjects_returns fuel env _
              (count - size (default ∅ (globalFarmObjects s !! g))) k
              (default ∅ (globalFarmObjects s !! g)) H) as [[m' k1] ->].
  by eexists.
Qed.

(** The registry of players is read only to decide whom to tell. *)
Lemma generateFarmObjects_any_registry (fuel : nat) (env : Env) (socket g : string)
    (count k : nat) (s s' : State) (out : list Effect) (k' : nat)
    (r : gmap string (gmap string PlayerData)) :
  generateFarmObjects fuel env socket g count k s = Some (s', out, k') →
  ∃ out', generateFarmObjects fuel env socket g count k (set_rooms r s) =
            Some (set_rooms r s', out', k').
Proof.
  rewrite !generateFarmObjects_eq. simpl. case_decide as Hsize.
  - destruct (createFarmObjects _ _ _ _ _ _) as [[m' k1]|]; [|done].
    intros [= <- <- <-]. by eexists.
  - intros [= <- <- <-]. by eexists.
Qed.

(** What a generation run does to the room's collectibles, in terms of the
    identifiers it builds. *)
Lemma generateFarmObjects_ids (fuel : nat) (env : Env) (socket g : string)
    (count k : nat) (s s' : State) (out : list Effect) (k' : nat) :
  generateFarmObjects fuel env socket g count k s = Some (s', out, k') →
  ∃ m', globalFarmObjects s' = <[g := m']> (globalFarmObjects s) ∧
    length (createdIds fuel env
              (count - size (default ∅ (globalFarmObjects s !! g))) k
              (default [] (obstacles s !! g))) =
      (count - size (default ∅ (globalFarmObjects s !! g)))%nat ∧
    (∀ o, o ∉ createdIds fuel env
                (count - size (default ∅ (globalFarmObjects s !! g))) k
                (default [] (obstacles s !! g)) →
          m' !! o = default ∅ (globalFarmObjects s !! g) !! o) ∧
    (∀ o, is_Some (m' !! o) ↔
          is_Some (default ∅ (globalFarmObjects s !! g) !! o) ∨
          o ∈ createdIds fuel env
                (count - size (default ∅ (globalFarmObjects s !! g))) k
                (default [] (obstacles s !! g))) ∧
    (size m' ≤ size (default ∅ (globalFarmObjects s !! g)) `max` count)%nat ∧
    ((size (default ∅ (globalFarmObjects s !! g)) < count)%nat →
     (size m' = count ↔
      NoDup (createdIds fuel env
               (count - size (default ∅ (globalFarmObjects s !! g))) k
               (default [] (obstacles s !! g))) ∧
      ∀ o, o ∈ createdIds fuel env
                 (count - size (default ∅ (globalFarmObjects s !! g))) k
                 (default [] (obstacles s !! g)) →
           default ∅ (globalFarmObjects s !! g) !! o = None)) ∧
    ((count ≤ size (default ∅ (globalFarmObjects s !! g)))%nat →
     m' = default ∅ (globalFarmObjects s !! g)).
Proof.
  intros Hg.
  destruct (generateFarmObjects_cases _ _ _ _ _ _ _ _ _ _ Hg)
    as [(Hle & _ & _ & Hf)|(Hlt & m' & Hc & Hf & _)]; simpl in *.
  - exists (default ∅ (globalFarmObjects s !! g)). split; [done|].
    replace (count - size (default ∅ (globalFarmObjects s !! g)))%nat with 0%nat by lia.
    simpl. split; [done|]. split; [done|]. split.
    { intros o. split; [by left|]. by intros [?|?%elem_of_nil]. }
    split; [lia|]. split; [lia|]. done.
  - exists m'. split; [done|].
    destruct (createFarmObjects_ids _ _ _ _ _ _ _ _ Hc) as (Hlen & Hkeep & Hnew & Hsz & Hiff).
    pose proof (createFarmObjects_spec _ _ _ _ _ _ _ _ Hc) as [_ Hdom].
    split; [done|]. split; [done|]. split.
    { intros o. split.
      - intros Ho.
        destruct (decide (o ∈ createdIds fuel env
                    (count - size (default ∅ (globalFarmObjects s !! g))) k
                    (default [] (obstacles s !! g)))) as [Hin|Hout]; [by right|].
        left. by rewrite <-Hkeep.
      - intros [Ho|Ho]; [by apply Hdom|by apply Hnew]. }
    split; [lia|]. split; [|lia]. intros _. rewrite <-Hiff. lia.
Qed.

(** The generation run of a join. *)
Lemma joinGame_generation (fuel : nat) (env : Env) (socket g : string)
    (name : option string) (color : option Z) (s : State) :
  ∃ s3,
    globalFarmObjects s3 = globalFarmObjects s ∧
    obstacles s3 !! g = Some (default roomObstacles (obstacles s !! g)) ∧
    (is_Some (generateFarmObjects fuel env socket g 10 (joinDraws name) s3) →
     is_Some (joinGame fuel env socket g name color s)) ∧
    ∀ s' out, joinGame fuel env socket g name color s = Some (s', out) →
      ∃ outg k', generateFarmObjects fuel env socket g 10 (joinDraws name) s3 =
                   Some (s', outg, k').
Proof.
  unfold joinGame.
  set (nk := match name with Some n => (n, 0%nat) | None => _ end).
  assert (Hn : nk.2 = joinDraws name) by (subst nk; by destruct name).
  destruct nk as [nm k]. simpl in Hn. subst k.
  set (s1 := match rooms s !! g with
             | None => set_rooms (<[g := ∅]> (rooms s)) s
             | Some _ => s end).
  assert (Hs1 : is_Some (rooms s1 !! g) ∧ obstacles s1 = obstacles s ∧
                globalFarmObjects s1 = globalFarmObjects s).
  { subst s1. destruct (rooms s !! g) eqn:E; simpl; [by rewrite E|].
    by rewrite lookup_insert_eq. }
  destruct Hs1 as ([rp ->] & Ho & Hf).
  unfold generateObstacles. simpl. rewrite Ho.
  set (s3 := match obstacles s !! g with None => _ | Some _ => _ end).
  exists s3. split; [|split; [|split]].
  - subst s3. by destruct (obstacles s !! g).
  - subst s3. destruct (obstacles s !! g) eqn:E; simpl; [by rewrite Ho, E|].
    by rewrite lookup_insert_eq.
  - intros [[[s4 out4] k4] ->]. by eexists.
  - intros s' out.
    destruct (generateFarmObjects _ _ _ _ _ _ s3) as [[[s4 out4] k4]|]; [|done].
    intros [= <- _]. by eexists _, _.
Qed.

Lemma joinGame_returns (fuel : nat) (env : Env) (socket g : string)
    (name : option string) (color : option Z) (s : State) :
  placementWithin fuel env (default roomObstacles (obstacles s !! g)) ∨
  (10 ≤ size (default ∅ (globalFarmObjects s !! g)))%nat →
  is_Some (joinGame fuel env socket g name color s).
Proof.
  intros H.
  destruct (joinGame_generation fuel env socket g name color s)
    as (s3 & Hf & Ho & Hret & _).
  apply Hret, generateFarmObjects_returns. by rewrite Ho, Hf.
Qed.

Lemma joinGame_ids (fuel : nat) (env : Env) (socket g : string)
    (name : option string) (color : option Z) (s s' : State) (out : list Effect) :
  joinGame fuel env socket g name color s = Some (s', out) →
  ∃ m', globalFarmObjects s' = <[g := m']> (globalFarmObjects s) ∧
    length (createdIds fuel env
              (10 - size (default ∅ (globalFarmObjects s !! g))) (joinDraws name)
              (default roomObstacles (obstacles s !! g))) =
      (10 - size (default ∅ (globalFarmObjects s !! g)))%nat ∧
    (∀ o, o ∉ createdIds fuel env
                (10 - size (default ∅ (globalFarmObjects s !! g))) (joinDraws name)
                (default roomObstacles (obstacles s !! g)) →
          m' !! o = default ∅ (globalFarmObjects s !! g) !! o) ∧
    (∀ o, is_Some (m' !! o) ↔
          is_Some (default ∅ (globalFarmObjects s !! g) !! o) ∨
          o ∈ createdIds fuel env
                (10 - size (default ∅ (globalFarmObjects s !! g))) (joinDraws name)
                (default roomObstacles (obstacles s !! g))) ∧
    (size m' ≤ size (default ∅ (globalFarmObjects s !! g)) `max` 10)%nat ∧
    ((size (default ∅ (globalFarmObjects s !! g)) < 10)%nat →
     (size m' = 10%nat ↔
      NoDup (createdIds fuel env
               (10 - size (default ∅ (globalFarmObjects s !! g))) (joinDraws name)
               (default roomObstacles (obstacles s !! g))) ∧
      ∀ o, o ∈ createdIds fuel env
                 (10 - size (default ∅ (globalFarmObjects s !! g))) (joinDraws name)
                 (default roomObstacles (obstacles s !! g)) →
           default ∅ (globalFarmObjects s !! g) !! o = None)) ∧
    ((10 ≤ size (default ∅ (globalFarmObjects s !! g)))%nat →
     m' = default ∅ (globalFarmObjects s !! g)).
Proof.
  intros Hj.
  destruct (joinGame_generation fuel env socket g name color s)
    as (s3 & Hf & Ho & _ & Hgen).
  destruct (Hgen _ _ Hj) as (outg & k' & Hg).
  apply generateFarmObjects_ids in Hg. by rewrite Ho, Hf in Hg.
Qed.

Lemma objectAt_default (s : State) (g o : string) :
  default ∅ (globalFarmObjects s !! g) !! o = objectAt s g o.
Proof. unfold objectAt. by destruct (globalFarmObjects s !! g). Qed.

Lemma generateFarmObjects_built (fuel : nat) (env : Env) (socket g : string)
    (count k : nat) (s s' : State) (out : list Effect) (k' : nat) :
  generateFarmObjects fuel env socket g count k s = Some (s', out, k') →
  length (runIds fuel env g count k s) = (count - farmCount s g)%nat ∧
  (∀ o, o ∉ runIds fuel env g count k s → objectAt s' g o = objectAt s g o) ∧
  (∀ o, is_Some (objectAt s' g o) ↔
        is_Some (objectAt s g o) ∨ o ∈ runIds fuel env g count k s) ∧
  (farmCount s' g ≤ farmCount s g `max` count)%nat ∧
  ((farmCount s g < count)%nat →
   (farmCount s' g = count ↔
    NoDup (runIds fuel env g count k s) ∧
    ∀ o, o ∈ runIds fuel env g count k s → objectAt s g o = None)) ∧
  ((count ≤ farmCount s g)%nat →
   globalFarmObjects s' !! g = Some (default ∅ (globalFarmObjects s !! g))).
Proof.
  intros Hg. unfold runIds, farmCount.
  destruct (generateFarmObjects_ids _ _ _ _ _ _ _ _ _ _ Hg)
    as (m' & Hf & Hlen & Hkeep & Hdom & Hsz & Hiff & Hfull).
  assert (Hm' : globalFarmObjects s' !! g = Some m') by (by rewrite Hf, lookup_insert_eq).
  assert (Hat : ∀ o, objectAt s' g o = m' !! o).
  { intros o. unfold objectAt. by rewrite Hm'. }
  rewrite Hm'. simpl.
  split; [done|]. split; [|split; [|split; [done|split]]].
  - intros o Ho. by rewrite Hat, Hkeep, objectAt_default.
  - intros o. by rewrite Hat, Hdom, objectAt_default.
  - intros Hlt. rewrite (Hiff Hlt). split; intros [Hnd Hfresh]; (split; [done|]);
      intros o Ho; specialize (Hfresh o Ho); by rewrite objectAt_default in *.
  - intros Hle. by rewrite (Hfull Hle).
Qed.

Lemma joinGame_built (fuel : nat) (env : Env) (socket g : string)
    (name : option string) (color : option Z) (s s' : State) (out : list Effect) :
  joinGame fuel env socket g name color s = Some (s', out) →
  length (joinIds fuel env g name s) = (10 - farmCount s g)%nat ∧
  (∀ o, o ∉ joinIds fuel env g name s → objectAt s' g o = objectAt s g o) ∧
  (∀ o, is_Some (objectAt s' g o) ↔
        is_Some (objectAt s g o) ∨ o ∈ joinIds fuel env g name s) ∧
  (farmCount s' g ≤ farmCount s g `max` 10)%nat ∧
  ((farmCount s g < 10)%nat →
   (farmCount s' g = 10%nat ↔
    NoDup (joinIds fuel env g name s) ∧
    ∀ o, o ∈ joinIds fuel env g name s → objectAt s g o = None)) ∧
  ((10 ≤ farmCount s g)%nat →
   globalFarmObjects s' !! g = Some (default ∅ (globalFarmObjects s !! g))).
Proof.
  intros Hj.
  destruct (joinGame_generation fuel env socket g name color s)
    as (s3 & Hf & Ho & _ & Hgen).
  destruct (Hgen _ _ Hj) as (outg & k' & Hg).
  apply generateFarmObjects_built in Hg.
  unfold runIds, joinIds, farmCount, objectAt in *. by rewrite Ho, Hf in Hg.
Qed.

(** Under each identifier it has built, the loop leaves a collectible it
    has made: the one of the last iteration that built this identifier. *)
Lemma createFarmObjects_made (fuel : nat) (env : Env) (obs : list Obstacle)
    (n k : nat) (m m' : gmap string FarmObject) (k' : nat) :
  createFarmObjects fuel env n k obs m = Some (m', k') →
  ∀ o, o ∈ createdIds fuel env n k obs →
       ∃ fo, m' !! o = Some fo ∧ generated env obs o fo.
Proof.
  revert k m. induction n as [|n IH]; intros k m; simpl.
  { by intros _ o ?%elem_of_nil. }
  destruct (placeLoop fuel env (k + 3) obs) as [[p k1]|] eqn:Hp; [|done].
  intros Hc o Ho.
  destruct (decide (o ∈ createdIds fuel env n k1 obs)) as [Hin|Hout];
    [by eapply IH|].
  apply elem_of_cons in Ho as [->|Ho]; [|done].
  destruct (createFarmObjects_ids _ _ _ _ _ _ _ _ Hc) as (_ & Hkeep & _).
  rewrite (Hkeep _ Hout), lookup_insert_eq. eexists. split; [done|].
  split; [by exists k|]. split; [done|]. split.
  - exists (pickType (random env (k + 2))). split; [apply pickType_elem|done].
  - simpl. by eapply placeLoop_sound.
Qed.

Lemma generateFarmObjects_made (fuel : nat) (env : Env) (socket g : string)
    (count k : nat) (s s' : State) (out : list Effect) (k' : nat) :
  generateFarmObjects fuel env socket g count k s = Some (s', out, k') →
  ∀ o, o ∈ runIds fuel env g count k s →
       ∃ fo, objectAt s' g o = Some fo ∧
             generated env (default [] (obstacles s !! g)) o fo.
Proof.
  intros Hg o. unfold runIds, farmCount.
  destruct (generateFarmObjects_cases _ _ _ _ _ _ _ _ _ _ Hg)
    as [(Hle & _)|(_ & m' & Hc & Hf & _)]; simpl in *.
  - replace (count - size (default ∅ (globalFarmObjects s !! g)))%nat with 0%nat by lia.
    by intros ?%elem_of_nil.
  - intros Ho. unfold objectAt. rewrite Hf, lookup_insert_eq. simpl.
    by eapply createFarmObjects_made.
Qed.

Lemma joinGame_made (fuel : nat) (env : Env) (socket g : string)
    (name : option string) (color : option Z) (s s' : State) (out : list Effect) :
  joinGame fuel env socket g name color s = Some (s', out) →
  ∀ o, o ∈ joinIds fuel env g name s →
       ∃ fo, objectAt s' g o = Some fo ∧
             generated env (default roomObstacles (obstacles s !! g)) o fo.
Proof.
  intros Hj.
  destruct (joinGame_generation fuel env socket g name color s)
    as (s3 & Hf & Ho & _ & Hgen).
  destruct (Hgen _ _ Hj) as (outg & k' & Hg).
  pose proof (generateFarmObjects_made _ _ _ _ _ _ _ _ _ _ Hg) as H.
  unfold runIds, joinIds, farmCount in *. by rewrite Ho, Hf in H.
Qed.

(** ** What each handler changes *)

Lemma joinGame_spec (fuel : nat) (env : Env) (socket gameId : string)
    (name : option string) (color : option Z) (s s' : State) (out : list Effect) :
  joinGame fuel env socket gameId name color s = Some (s', out) →
  rooms s' =
    <[gameId := joinedPlayers socket
                  (newPlayer socket (joinName env name) (default 0x1a75ff color))
                  (default ∅ (rooms s !! gameId))]> (rooms s) ∧
  obstacles s' =
    <[gameId := default roomObstacles (obstacles s !! gameId)]> (obstacles s) ∧
  timers s' = timers s ∧
  ∃ m', globalFarmObjects s' = <[gameId := m']> (globalFarmObjects s) ∧
        farmExtends env (default roomObstacles (obstacles s !! gameId)) 10
          (default ∅ (globalFarmObjects s !! gameId)) m'.
Proof.
  unfold joinGame. intros H.
  set (obs := default roomObstacles (obstacles s !! gameId)).
  set (nk := match name with Some n => (n, 0%nat) | None => _ end) in H.
  assert (Hn : nk.1 = joinName env name) by (subst nk; by destruct name).
  destruct nk as [nm k]. simpl in Hn. subst nm.
  set (s1 := match rooms s !! gameId with
             | None => set_rooms (<[gameId := ∅]> (rooms s)) s
             | Some _ => s end) in H.
  assert (Hs1 : rooms s1 = <[gameId := default ∅ (rooms s !! gameId)]> (rooms s) ∧
                obstacles s1 = obstacles s ∧ timers s1 = timers s ∧
                globalFarmObjects s1 = globalFarmObjects s).
  { subst s1. destruct (rooms s !! gameId) eqn:E; simpl; [|done]. by rewrite insert_id. }
  destruct Hs1 as (Hr & Ho & Ht & Hf).
  rewrite Hr, lookup_insert_eq in H.
  set (rp' := match default ∅ (rooms s !! gameId) !! socket with
              | None => _ | Some _ => _ end) in H.
  unfold generateObstacles in H. simpl in H. rewrite Ho in H.
  set (s3 := match obstacles s !! gameId with None => _ | Some _ => _ end) in H.
  assert (Hs3 : rooms s3 = <[gameId := rp']> (rooms s) ∧
                obstacles s3 = <[gameId := obs]> (obstacles s) ∧
                timers s3 = timers s ∧ globalFarmObjects s3 = globalFarmObjects s).
  { subst s3 obs. destruct (obstacles s !! gameId) eqn:E; simpl;
      rewrite ?Ho, ?Ht, ?Hf, insert_insert_eq; repeat split; try done.
    by rewrite insert_id. }
  destruct Hs3 as (Hr3 & Ho3 & Ht3 & Hf3).
  destruct (generateFarmObjects _ _ _ _ _ _ s3) as [[[s4 out4] k4]|] eqn:Hg; [|done].
  injection H as <- <-.
  apply generateFarmObjects_spec in Hg as (Hr4 & Ho4 & Ht4 & (m' & Hf4 & Hext) & _).
  rewrite Hr4, Ho4, Ht4, Hr3, Ho3, Ht3. repeat split; try done.
  exists m'. rewrite Hf4, Hf3. split; [done|].
  by rewrite Ho3, lookup_insert_eq, Hf3 in Hext.
Qed.

Lemma playerMove_spec (socket gameId : string) (position : Position)
    (velocity : option Position) (s : State) :
  let s' := (playerMove socket gameId position velocity s).1 in
  globalFarmObjects s' = globalFarmObjects s ∧ obstacles s' = obstacles s ∧
  timers s' = timers s ∧
  ∀ g p, (rooms s' !! g ≫= (.!! p)) =
    if decide (g = gameId ∧ p = socket)
    then (λ pl, let pl1 := with_position position pl in
                match velocity with Some v => with_velocity v pl1 | None => pl1 end)
           <$> (rooms s !! g ≫= (.!! p))
    else rooms s !! g ≫= (.!! p).
Proof.
  unfold playerMove. simpl.
  destruct (rooms s !! gameId) as [rp|] eqn:Hg; simpl.
  - destruct (rp !! socket) as [pl|] eqn:Hp; simpl.
    + repeat split; try done. intros g p.
      destruct (decide (g = gameId)) as [->|Hne].
      * rewrite lookup_insert_eq, Hg. simpl.
        destruct (decide (p = socket)) as [->|Hnp].
        -- rewrite lookup_insert_eq, decide_True, Hp by done. done.
        -- rewrite lookup_insert_ne, decide_False by (try intros [? ?]; congruence). done.
      * rewrite lookup_insert_ne, decide_False by (try intros [? ?]; congruence). done.
    + repeat split; try done. intros g p. case_decide as Hc; [|done].
      destruct Hc as [-> ->]. by rewrite Hg; simpl; rewrite Hp.
  - repeat split; try done. intros g p. case_decide as Hc; [|done].
    destruct Hc as [-> ->]. by rewrite Hg.
Qed.

Lemma joinGame_effects (fuel : nat) (env : Env) (socket gameId : string)
    (name : option string) (color : option Z) (s s' : State) (out : list Effect) :
  joinGame fuel env socket gameId name color s = Some (s', out) →
  ∃ outg m',
    (∀ e, e ∈ outg → ∃ sc l, e = Emit sc (farmObjectsUpdate l)) ∧
    globalFarmObjects s' !! gameId = Some m' ∧
    out =
      JoinChannel socket gameId :: outg ++
      [Emit (ToSocket socket)
         (currentPlayers
            (values (joinedPlayers socket
                       (newPlayer socket (joinName env name) (default 0x1a75ff color))
                       (default ∅ (rooms s !! gameId)))));
       Emit (ToSocket socket)
         (obstaclesUpdate (default roomObstacles (obstacles s !! gameId)));
       Emit (ToSocket socket) (farmObjectsUpdate (values m'));
       Emit (ToRoomExcept gameId socket)
         (playerJoined socket (joinName env name) (default 0x1a75ff color)
            {| x := 400; y := 300 |} {| x := 0; y := 0 |} 0 true)].
Proof.
  unfold joinGame. intros H.
  set (nk := match name with Some n => (n, 0%nat) | None => _ end) in H.
  assert (Hn : nk.1 = joinName env name) by (subst nk; by destruct name).
  destruct nk as [nm k]. simpl in Hn. subst nm.
  set (s1 := match rooms s !! gameId with
             | None => set_rooms (<[gameId := ∅]> (rooms s)) s
             | Some _ => s end) in H.
  assert (Hs1 : rooms s1 = <[gameId := default ∅ (rooms s !! gameId)]> (rooms s) ∧
                obstacles s1 = obstacles s).
  { subst s1. destruct (rooms s !! gameId) eqn:E; simpl; [|done]. by rewrite insert_id. }
  destruct Hs1 as (Hr & Ho).
  rewrite Hr, lookup_insert_eq in H.
  unfold generateObstacles in H. simpl in H. rewrite Ho in H.
  set (s3 := match obstacles s !! gameId with None => _ | Some _ => _ end) in H.
  assert (Ho3 : default [] (obstacles s3 !! gameId) =
                default roomObstacles (obstacles s !! gameId)).
  { subst s3. destruct (obstacles s !! gameId) eqn:E; simpl.
    - by rewrite Ho, E.
    - by rewrite lookup_insert_eq. }
  rewrite Ho3 in H.
  destruct (generateFarmObjects _ _ _ _ _ _ s3) as [[[s4 out4] k4]|] eqn:Hg; [|done].
  injection H as <- <-.
  apply generateFarmObjects_spec in Hg as (_ & _ & _ & (m' & Hf4 & _) & Hout).
  exists out4, m'. split; [done|]. rewrite Hf4, lookup_insert_eq. split; [done|].
  simpl. do 2 f_equal.
Qed.

Lemma joinGame_total_full (fuel : nat) (env : Env) (socket gameId : string)
    (name : option string) (color : option Z) (s : State) (m : gmap string FarmObject) :
  globalFarmObjects s !! gameId = Some m → (10 ≤ size m)%nat →
  is_Some (joinGame fuel env socket gameId name color s).
Proof.
  intros Hm Hsize. unfold joinGame.
  destruct (match name with Some n => _ | None => _ end) as [nm k].
  set (s1 := match rooms s !! gameId with None => _ | Some _ => s end).
  assert (Hs1 : globalFarmObjects s1 = globalFarmObjects s ∧ is_Some (rooms s1 !! gameId)).
  { subst s1. destruct (rooms s !! gameId) eqn:E; simpl; [by rewrite E|].
    by rewrite lookup_insert_eq. }
  destruct Hs1 as [Hf [rp ->]].
  unfold generateObstacles. simpl.
  set (s3 := match obstacles s1 !! gameId with None => _ | Some _ => _ end).
  assert (Hf3 : globalFarmObjects s3 !! gameId = Some m).
  { subst s3. by destruct (obstacles s1 !! gameId); simpl; rewrite Hf. }
  by rewrite (generateFarmObjects_total _ _ _ _ _ _ _ m Hf3 Hsize).
Qed.


(** ** Pointwise view of the handlers *)

Local Ltac side := solve [tauto | congruence | done].

Lemma playerAt_insert (s : State) (g0 : string) (rp : gmap string PlayerData) (g p : string) :
  playerAt (set_rooms (<[g0 := rp]> (rooms s)) s) g p =
    if decide (g = g0) then rp !! p else playerAt s g p.
Proof.
  unfold playerAt. simpl. case_decide as H.
  - subst. by rewrite lookup_insert_eq.
  - by rewrite lookup_insert_ne.
Qed.

Lemma objectAt_insert (s : State) (g0 : string) (m : gmap string FarmObject) (g o : string) :
  objectAt (set_farm (<[g0 := m]> (globalFarmObjects s)) s) g o =
    if decide (g = g0) then m !! o else objectAt s g o.
Proof.
  unfold objectAt. simpl. case_decide as H.
  - subst. by rewrite lookup_insert_eq.
  - by rewrite lookup_insert_ne.
Qed.

Lemma joinGame_playerAt (fuel : nat) (env : Env) (socket gameId : string)
    (name : option string) (color : option Z) (s s' : State) (out : list Effect)
    (g p : string) :
  joinGame fuel env socket gameId name color s = Some (s', out) →
  playerAt s' g p =
    match playerAt s g p with
    | Some pl => Some pl
    | None =>
        if decide (g = gameId ∧ p = socket)
        then Some (newPlayer socket (joinName env name) (default 0x1a75ff color))
        else None
    end.
Proof.
  intros (Hr & _)%joinGame_spec. unfold playerAt. rewrite Hr.
  destruct (decide (g = gameId)) as [->|Hg].
  - rewrite lookup_insert_eq. simpl. unfold joinedPlayers.
    destruct (rooms s !! gameId) as [rp|]; simpl.
    + destruct (decide (p = socket)) as [->|Hp].
      * destruct (rp !! socket) eqn:E; [by rewrite E|].
        by rewrite lookup_insert_eq, decide_True.
      * assert (Hd : ¬ (gameId = gameId ∧ p = socket)) by side.
        destruct (rp !! socket); [|rewrite lookup_insert_ne by done];
          (destruct (rp !! p); [done|by rewrite decide_False]).
    + rewrite lookup_empty.
      destruct (decide (p = socket)) as [->|Hp].
      * by rewrite lookup_insert_eq, decide_True.
      * rewrite lookup_insert_ne, lookup_empty, decide_False by side. done.
  - rewrite lookup_insert_ne by done.
    destruct (rooms s !! g ≫= _); [done|]. by rewrite decide_False by side.
Qed.

Lemma playerMove_playerAt (socket gameId : string) (position : Position)
    (velocity : option Position) (s : State) (g p : string) :
  playerAt (playerMove socket gameId position velocity s).1 g p =
    if decide (g = gameId ∧ p = socket)
    then (λ pl, let pl1 := with_position position pl in
                match velocity with Some v => with_velocity v pl1 | None => pl1 end)
           <$> playerAt s g p
    else playerAt s g p.
Proof. apply playerMove_spec. Qed.

Lemma disconnect_playerAt (socket : string) (s : State) (g p : string) :
  playerAt (disconnect socket s).1 g p =
    if decide (p = socket) then None else playerAt s g p.
Proof.
  unfold playerAt. rewrite disconnect_rooms.
  destruct (rooms s !! g) as [rp|]; simpl; [|by case_decide].
  unfold afterLeave. case_decide as Hin; simpl.
  - case_decide as Hsz; simpl.
    + apply map_size_empty_iff in Hsz.
      case_decide as Hp; [done|].
      rewrite <-(lookup_delete_ne rp socket p) by done. by rewrite Hsz, lookup_empty.
    + case_decide as Hp.
      * subst. by rewrite lookup_delete_eq.
      * by rewrite lookup_delete_ne.
  - case_decide as Hp; [|done]. subst.
    by apply eq_None_not_Some.
Qed.

Lemma playerHit_validHit (env : Env) (socket gameId shooterId targetId : string) (s : State) :
  playerHit env socket gameId shooterId targetId s =
    match validHit s gameId shooterId targetId with
    | None => (s, [])
    | Some (shooter, target) =>
        let roomPlayers := default ∅ (rooms s !! gameId) in
        (setTimeout (RespawnTimer socket gameId targetId)
           (set_rooms
              (<[gameId := <[targetId := killed (clock env 0) target]>
                             (<[shooterId := afterKill (pointsToSteal target) shooter]>
                                roomPlayers)]> (rooms s)) s),
         broadcast socket gameId
           (playerKilled shooterId targetId (score shooter + (20 + pointsToSteal target))
              (Z.max 0 (score target - pointsToSteal target)) (pointsToSteal target)))
    end.
Proof.
  unfold playerHit, validHit, playerAt.
  case_decide; [done|].
  destruct (rooms s !! gameId) as [rp|]; simpl; [|done].
  destruct (rp !! shooterId) as [sh|]; [|done].
  destruct (rp !! targetId) as [tg|]; [|done].
  destruct (isAlive tg); [|done].
  unfold killed, afterKill. simpl.
  assert ((if decide (score tg - pointsToSteal tg < 0) then 0
           else score tg - pointsToSteal tg) = Z.max 0 (score tg - pointsToSteal tg)) as ->.
  { case_decide; lia. }
  done.
Qed.

Lemma playerHit_playerAt (env : Env) (socket gameId shooterId targetId : string)
    (s : State) (g p : string) :
  playerAt (playerHit env socket gameId shooterId targetId s).1 g p =
    match validHit s gameId shooterId targetId with
    | None => playerAt s g p
    | Some (shooter, target) =>
        if decide (g = gameId ∧ p = targetId) then Some (killed (clock env 0) target)
        else if decide (g = gameId ∧ p = shooterId)
             then Some (afterKill (pointsToSteal target) shooter)
             else playerAt s g p
    end.
Proof.
  rewrite playerHit_validHit.
  destruct (validHit s gameId shooterId targetId) as [[sh tg]|] eqn:Hv; [|done].
  simpl. unfold setTimeout, playerAt. simpl.
  destruct (decide (g = gameId)) as [->|Hg].
  - rewrite lookup_insert_eq. simpl.
    destruct (decide (p = targetId)) as [->|Hp].
    + by rewrite lookup_insert_eq, decide_True.
    + rewrite lookup_insert_ne, (decide_False (P := _ ∧ p = targetId)) by side.
      destruct (decide (p = shooterId)) as [->|Hq].
      * by rewrite lookup_insert_eq, decide_True.
      * rewrite lookup_insert_ne, decide_False by side.
        unfold validHit, playerAt in Hv. case_decide; [done|].
        by destruct (rooms s !! gameId).
  - rewrite lookup_insert_ne by done. rewrite !decide_False by side. done.
Qed.

Lemma playerHit_frame (env : Env) (socket gameId shooterId targetId : string) (s : State) :
  globalFarmObjects (playerHit env socket gameId shooterId targetId s).1 = globalFarmObjects s ∧
  obstacles (playerHit env socket gameId shooterId targetId s).1 = obstacles s.
Proof.
  rewrite playerHit_validHit. by destruct (validHit _ _ _ _) as [[??]|].
Qed.

Lemma farmObjectHit_collectible (socket gameId objectId : string) (s : State) :
  farmObjectHit socket gameId objectId s =
    match collectible s socket gameId objectId with
    | None => (s, [])
    | Some (farmObject, player) =>
        (setTimeout (RegenTimer socket gameId)
           (set_farm
              (<[gameId := delete objectId (default ∅ (globalFarmObjects s !! gameId))]>
                 (globalFarmObjects s))
              (set_rooms
                 (<[gameId := <[socket := with_score (score player + value farmObject) player]>
                                (default ∅ (rooms s !! gameId))]> (rooms s)) s)),
         broadcast socket gameId
           (farmObjectDestroyed objectId socket (score player + value farmObject)))
    end.
Proof.
  unfold farmObjectHit, collectible, objectAt, playerAt.
  destruct (globalFarmObjects s !! gameId) as [m|]; simpl; [|done].
  destruct (m !! objectId) as [fo|]; [|done].
  destruct (rooms s !! gameId) as [rp|]; simpl; [|done].
  by destruct (rp !! socket) as [pl|].
Qed.

Lemma farmObjectHit_playerAt (socket gameId objectId : string) (s : State) (g p : string) :
  playerAt (farmObjectHit socket gameId objectId s).1 g p =
    match collectible s socket gameId objectId with
    | None => playerAt s g p
    | Some (farmObject, player) =>
        if decide (g = gameId ∧ p = socket)
        then Some (with_score (score player + value farmObject) player)
        else playerAt s g p
    end.
Proof.
  rewrite farmObjectHit_collectible.
  destruct (collectible s socket gameId objectId) as [[fo pl]|] eqn:Hc; [|done].
  simpl. unfold playerAt. simpl.
  destruct (decide (g = gameId)) as [->|Hg].
  - rewrite lookup_insert_eq. simpl.
    destruct (decide (p = socket)) as [->|Hp].
    + by rewrite lookup_insert_eq, decide_True.
    + rewrite lookup_insert_ne, decide_False by side.
      unfold collectible, playerAt in Hc.
      destruct (objectAt s gameId objectId); [|done].
      by destruct (rooms s !! gameId).
  - rewrite lookup_insert_ne, decide_False by side. done.
Qed.

Lemma farmObjectHit_objectAt (socket gameId objectId : string) (s : State) (g o : string) :
  objectAt (farmObjectHit socket gameId objectId s).1 g o =
    match collectible s socket gameId objectId with
    | None => objectAt s g o
    | Some _ => if decide (g = gameId ∧ o = objectId) then None else objectAt s g o
    end.
Proof.
  rewrite farmObjectHit_collectible.
  destruct (collectible s socket gameId objectId) as [[fo pl]|] eqn:Hc; [|done].
  simpl. unfold objectAt. simpl.
  destruct (decide (g = gameId)) as [->|Hg].
  - rewrite lookup_insert_eq. simpl.
    destruct (decide (o = objectId)) as [->|Ho].
    + by rewrite lookup_delete_eq, decide_True.
    + rewrite lookup_delete_ne, decide_False by side.
      unfold collectible, objectAt in Hc.
      by destruct (globalFarmObjects s !! gameId).
  - rewrite lookup_insert_ne, decide_False by side. done.
Qed.

Lemma respawnPlayer_playerAt (env : Env) (socket gameId targetId : string)
    (s : State) (g p : string) :
  playerAt (respawnPlayer env socket gameId targetId s).1 g p =
    if decide (g = gameId ∧ p = targetId)
    then revived (samplePosition env 0) <$> playerAt s g p
    else playerAt s g p.
Proof.
  unfold respawnPlayer, playerAt.
  destruct (rooms s !! gameId) as [rp|] eqn:Hg; simpl.
  - destruct (rp !! targetId) as [pl|] eqn:Hp; simpl.
    + destruct (decide (g = gameId)) as [->|Hne].
      * rewrite lookup_insert_eq. simpl.
        destruct (decide (p = targetId)) as [->|Hq].
        -- by rewrite lookup_insert_eq, decide_True, Hg; simpl; rewrite ?Hp.
        -- rewrite lookup_insert_ne, decide_False, Hg by side. done.
      * rewrite lookup_insert_ne, decide_False by side. done.
    + case_decide as Hc; [|done]. destruct Hc as [-> ->].
      rewrite Hg. simpl. by rewrite Hp.
  - case_decide as Hc; [|done]. destruct Hc as [-> ->]. by rewrite Hg.
Qed.

Lemma respawnPlayer_frame (env : Env) (socket gameId targetId : string) (s : State) :
  globalFarmObjects (respawnPlayer env socket gameId targetId s).1 = globalFarmObjects s ∧
  obstacles (respawnPlayer env socket gameId targetId s).1 = obstacles s ∧
  timers (respawnPlayer env socket gameId targetId s).1 = timers s.
Proof.
  unfold respawnPlayer.
  destruct (rooms s !! gameId) as [rp|]; [|done]. by destruct (rp !! targetId).
Qed.

Lemma validHit_Some (s : State) (g sh tg : string) (a b : PlayerData) :
  validHit s g sh tg = Some (a, b) →
  sh ≠ tg ∧ playerAt s g sh = Some a ∧ playerAt s g tg = Some b ∧ isAlive b = true.
Proof.
  unfold validHit. case_decide; [done|].
  destruct (playerAt s g sh) as [a'|]; [|done].
  destruct (playerAt s g tg) as [b'|]; [|done].
  destruct (isAlive b') eqn:E; [|done]. by intros [= <- <-].
Qed.

Lemma validHit_absent (s : State) (g sh t : string) :
  playerAt s g sh = None ∨ playerAt s g t = None → validHit s g sh t = None.
Proof.
  intros H. destruct (validHit s g sh t) as [[a b]|] eqn:Hv; [|done].
  apply validHit_Some in Hv as (_ & Ha & Hb & _). destruct H; congruence.
Qed.


(** ** Runs *)

Lemma Some_pair_inv {A B} (r : A * B) (a : A) (b : B) :
  Some r = Some (a, b) → a = r.1 ∧ b = r.2.
Proof. by intros [= ->]. Qed.

Lemma run_invariant (fuel : nat) (P : State → Prop) (Q : Env * Event → Prop) :
  (∀ env ev s s' out, Q (env, ev) → P s → step fuel env ev s = Some (s', out) → P s') →
  ∀ evs s s' out, Forall Q evs → P s → run fuel s evs = Some (s', out) → P s'.
Proof.
  intros Hstep evs. induction evs as [|[env ev] evs IH]; intros s s' out HQ HP; simpl.
  { by intros [= <- _]. }
  apply Forall_cons in HQ as [Hq HQ].
  destruct (step fuel env ev s) as [[s1 out1]|] eqn:Hs; [|done].
  destruct (run fuel s1 evs) as [[s2 out2]|] eqn:Hr; [|done].
  intros [= <- _]. eapply IH; [done| |done]. eauto.
Qed.

Lemma run_app (fuel : nat) (s : State) (evs1 evs2 : list (Env * Event)) :
  run fuel s (evs1 ++ evs2) =
    match run fuel s evs1 with
    | None => None
    | Some (s1, out1) =>
        match run fuel s1 evs2 with
        | None => None
        | Some (s2, out2) => Some (s2, out1 ++ out2)
        end
    end.
Proof.
  revert s. induction evs1 as [|[env ev] evs1 IH]; intros s; simpl.
  { by destruct (run fuel s evs2) as [[??]|]. }
  destruct (step fuel env ev s) as [[s1 out1]|]; [|done].
  rewrite IH. destruct (run fuel s1 evs1) as [[s2 out2]|]; [|done].
  destruct (run fuel s2 evs2) as [[s3 out3]|]; [|done].
  by rewrite app_assoc.
Qed.

Lemma generateFarmObjects_objectAt (fuel : nat) (env : Env) (socket gameId : string)
    (count k : nat) (s s' : State) (out : list Effect) (k' : nat) (g o : string) :
  generateFarmObjects fuel env socket gameId count k s = Some (s', out, k') →
  (∀ fo, objectAt s' g o = Some fo →
         objectAt s g o = Some fo ∨
         (g = gameId ∧ generated env (default [] (obstacles s !! gameId)) o fo)) ∧
  (is_Some (objectAt s g o) → is_Some (objectAt s' g o)).
Proof.
  intros (_ & _ & _ & (m' & Hf & Hin & Hdom & _) & _)%generateFarmObjects_spec.
  unfold objectAt. rewrite Hf.
  destruct (decide (g = gameId)) as [->|Hg].
  - rewrite lookup_insert_eq. simpl. split.
    + intros fo [H|H]%Hin; [left|by right].
      by destruct (globalFarmObjects s !! gameId).
    + intros H. apply Hdom. by destruct (globalFarmObjects s !! gameId).
  - rewrite lookup_insert_ne by done. split; [by left|done].
Qed.

Lemma joinGame_objectAt (fuel : nat) (env : Env) (socket gameId : string)
    (name : option string) (color : option Z) (s s' : State) (out : list Effect)
    (g o : string) :
  joinGame fuel env socket gameId name color s = Some (s', out) →
  (∀ fo, objectAt s' g o = Some fo →
         objectAt s g o = Some fo ∨
         (g = gameId ∧
          generated env (default roomObstacles (obstacles s !! gameId)) o fo)) ∧
  (is_Some (objectAt s g o) → is_Some (objectAt s' g o)).
Proof.
  intros (_ & _ & _ & m' & Hf & Hin & Hdom & _)%joinGame_spec.
  unfold objectAt. rewrite Hf.
  destruct (decide (g = gameId)) as [->|Hg].
  - rewrite lookup_insert_eq. simpl. split.
    + intros fo [H|H]%Hin; [left|by right].
      by destruct (globalFarmObjects s !! gameId).
    + intros H. apply Hdom. by destruct (globalFarmObjects s !! gameId).
  - rewrite lookup_insert_ne by done. split; [by left|done].
Qed.

(** ** Scores *)

Lemma killed_score_nonneg (now : Z) (target : PlayerData) : 0 ≤ score (killed now target).
Proof. simpl. lia. Qed.

Lemma pointsToSteal_nonneg (target : PlayerData) :
  0 ≤ score target → 0 ≤ pointsToSteal target ≤ score target.
Proof.
  intros H. rewrite pointsToSteal_half. split.
  - apply Z.div_pos; lia.
  - apply Z.div_le_upper_bound; lia.
Qed.

Lemma playerHit_scoresNonneg (env : Env) (socket gameId shooterId targetId : string)
    (s : State) :
  scoresNonneg s → scoresNonneg (playerHit env socket gameId shooterId targetId s).1.
Proof.
  intros Hs g p pl. rewrite playerHit_playerAt.
  destruct (validHit s gameId shooterId targetId) as [[sh tg]|] eqn:Hv; [|apply Hs].
  assert (0 ≤ score sh ∧ 0 ≤ score tg) as [Hsh Htg].
  { unfold validHit in Hv. case_decide; [done|].
    destruct (playerAt s gameId shooterId) as [a|] eqn:Ha; [|done].
    destruct (playerAt s gameId targetId) as [b|] eqn:Hb; [|done].
    destruct (isAlive b); [|done]. injection Hv as <- <-.
    split; eapply Hs; eauto. }
  repeat case_decide.
  - intros [= <-]. apply killed_score_nonneg.
  - intros [= <-]. simpl. pose proof (pointsToSteal_nonneg tg Htg). lia.
  - apply Hs.
Qed.

Lemma farmObjectHit_scoresNonneg (socket gameId objectId : string) (s : State) :
  scoresNonneg s → valuesNonneg s →
  scoresNonneg (farmObjectHit socket gameId objectId s).1.
Proof.
  intros Hs Hv g p pl. rewrite farmObjectHit_playerAt.
  destruct (collectible s socket gameId objectId) as [[fo pl0]|] eqn:Hc; [|apply Hs].
  case_decide; [|apply Hs]. intros [= <-]. simpl.
  unfold collectible in Hc.
  destruct (objectAt s gameId objectId) as [fo'|] eqn:Hfo; [|done].
  destruct (playerAt s gameId socket) as [pl'|] eqn:Hpl; [|done].
  injection Hc as <- <-.
  specialize (Hs _ _ _ Hpl). specialize (Hv _ _ _ Hfo). lia.
Qed.

Lemma farmObjectHit_valuesNonneg (socket gameId objectId : string) (s : State) :
  valuesNonneg s → valuesNonneg (farmObjectHit socket gameId objectId s).1.
Proof.
  intros Hv g o fo. rewrite farmObjectHit_objectAt.
  destruct (collectible s socket gameId objectId); [|apply Hv].
  case_decide; [done|apply Hv].
Qed.

Lemma valuesNonneg_frame (s s' : State) :
  globalFarmObjects s' = globalFarmObjects s → valuesNonneg s → valuesNonneg s'.
Proof. intros H Hv g o fo. unfold objectAt. rewrite H. apply Hv. Qed.

Lemma scoresNonneg_frame (s s' : State) :
  rooms s' = rooms s → scoresNonneg s → scoresNonneg s'.
Proof. intros H Hs g p pl. unfold playerAt. rewrite H. apply Hs. Qed.

Lemma fire_cases (fuel : nat) (env : Env) (t : Timer) (s s' : State) (out : list Effect) :
  fire fuel env t s = Some (s', out) →
  (s' = s ∧ out = []) ∨
  (∃ socket gameId targetId,
     t = RespawnTimer socket gameId targetId ∧ t ∈ timers s ∧
     (s', out) = respawnPlayer env socket gameId targetId
                   (set_timers (removeFirst t (timers s)) s)) ∨
  (∃ socket gameId k',
     t = RegenTimer socket gameId ∧ t ∈ timers s ∧
     generateFarmObjects fuel env socket gameId 10 0
       (set_timers (removeFirst t (timers s)) s) = Some (s', out, k')).
Proof.
  unfold fire. case_decide as Hin; [|intros [= <- <-]; by left].
  destruct t as [sock g tid|sock g].
  - intros [= H]. right; left. by exists sock, g, tid.
  - destruct (generateFarmObjects _ _ _ _ _ _ _) as [[[s2 out2] k2]|] eqn:Hg; [|done].
    intros [= <- <-]. right; right. by exists sock, g, k2.
Qed.

Lemma step_scores (fuel : nat) (env : Env) (ev : Event) (s s' : State) (out : list Effect) :
  scoresNonneg s ∧ valuesNonneg s →
  step fuel env ev s = Some (s', out) →
  scoresNonneg s' ∧ valuesNonneg s'.
Proof.
  intros [Hs Hv]. destruct ev as [socket [g nm col|g pos vel| |g dir pos|g sh tg|g o|g o]|t];
    cbn [step handle].
  - intros Hj. split.
    + intros g' p pl. rewrite (joinGame_playerAt _ _ _ _ _ _ _ _ _ g' p Hj).
      destruct (playerAt s g' p) eqn:E; [intros [= <-]; eauto|].
      case_decide; [|done]. by intros [= <-].
    + intros g' o fo Hfo.
      destruct (joinGame_objectAt _ _ _ _ _ _ _ _ _ g' o Hj) as [H _].
      destruct (H fo Hfo) as [H1|[_ H1]]; [eauto|].
      apply generated_value in H1. lia.
  - intros [-> _]%Some_pair_inv. split; [|by eapply valuesNonneg_frame; [apply playerMove_spec|]].
    intros g' p pl. rewrite playerMove_playerAt.
    case_decide; [|apply Hs].
    destruct (playerAt s g' p) as [pl0|] eqn:E; [|done]. simpl.
    intros [= <-]. specialize (Hs _ _ _ E). by destruct vel.
  - intros [-> _]%Some_pair_inv. split; [|by eapply valuesNonneg_frame].
    intros g' p pl. rewrite disconnect_playerAt. case_decide; [done|apply Hs].
  - by intros [-> _]%Some_pair_inv.
  - intros [-> _]%Some_pair_inv. split; [by apply playerHit_scoresNonneg|].
    eapply valuesNonneg_frame; [apply playerHit_frame|done].
  - intros [-> _]%Some_pair_inv. split;
      [by apply farmObjectHit_scoresNonneg|by apply farmObjectHit_valuesNonneg].
  - intros [-> _]%Some_pair_inv. rewrite collectResource_farmObjectHit. split;
      [by apply farmObjectHit_scoresNonneg|by apply farmObjectHit_valuesNonneg].
  - intros [[-> _]|[(sock & g & tid & -> & _ & Hr)|(sock & g & k' & -> & _ & Hg)]]%fire_cases;
      [done| |].
    + assert (s' = (respawnPlayer env sock g tid
                      (set_timers (removeFirst (RespawnTimer sock g tid) (timers s)) s)).1)
        as -> by (by rewrite <-Hr).
      split.
      * intros g' p pl. rewrite respawnPlayer_playerAt.
        case_decide; [|apply Hs].
        change (playerAt (set_timers _ s) g' p) with (playerAt s g' p).
        destruct (playerAt s g' p) as [pl0|] eqn:E; [|done].
        intros [= <-]. simpl. eauto.
      * eapply valuesNonneg_frame; [apply respawnPlayer_frame|done].
    + split.
      * eapply scoresNonneg_frame; [|exact Hs].
        by apply generateFarmObjects_spec in Hg as (-> & _).
      * intros g' o fo Hfo.
        destruct (generateFarmObjects_objectAt _ _ _ _ _ _ _ _ _ _ g' o Hg) as [H _].
        destruct (H fo Hfo) as [H1|[_ H1]]; [by apply (Hv g' o)|].
        apply generated_value in H1. lia.
Qed.


(** ** Scores shown in notifications *)

Lemma emitsNonneg_broadcast (socket g : string) (p : Payload) :
  Forall (λ v, 0 ≤ v) (payloadScores p) → emitsNonneg (broadcast socket g p).
Proof. intros H. by repeat constructor. Qed.

Lemma emitsNonneg_farmUpdates (out : list Effect) :
  (∀ e, e ∈ out → ∃ sc l, e = Emit sc (farmObjectsUpdate l)) → emitsNonneg out.
Proof.
  intros H. apply Forall_forall. intros e (sc & l & ->)%H. constructor.
Qed.

Lemma step_emits (fuel : nat) (env : Env) (ev : Event) (s s' : State) (out : list Effect) :
  scoresNonneg s → valuesNonneg s →
  step fuel env ev s = Some (s', out) →
  emitsNonneg out.
Proof.
  intros Hs Hv.
  destruct ev as [socket [g nm col|g pos vel| |g dir pos|g sh tg|g o|g o]|tm];
    cbn [step handle].
  - intros (outg & m' & Hg & _ & ->)%joinGame_effects.
    constructor; [constructor|]. apply Forall_app. split; [by apply emitsNonneg_farmUpdates|].
    repeat constructor; simpl; [|done].
    apply Forall_fmap, Forall_forall. intros pl Hpl. simpl.
    apply list_elem_of_fmap in Hpl as ([k pl'] & -> & Hk%elem_of_map_to_list). simpl.
    unfold joinedPlayers in Hk.
    assert (Hold : ∀ pl0, default ∅ (rooms s !! g) !! k = Some pl0 → 0 ≤ score pl0).
    { intros pl0 H0. apply (Hs g k). unfold playerAt.
      destruct (rooms s !! g); simpl in *; [done|by rewrite lookup_empty in H0]. }
    destruct (default ∅ (rooms s !! g) !! socket); [by apply Hold|].
    destruct (decide (socket = k)) as [->|Hne].
    + rewrite lookup_insert_eq in Hk. by injection Hk as <-.
    + rewrite lookup_insert_ne in Hk by done. by apply Hold.
  - intros [_ ->]%Some_pair_inv. by repeat constructor.
  - intros [_ ->]%Some_pair_inv. apply Forall_forall.
    unfold disconnect; simpl. intros e (g & rp & _ & _ & ->)%disconnect_fold_out.
    constructor.
  - intros [_ ->]%Some_pair_inv. by repeat constructor.
  - intros [_ ->]%Some_pair_inv. rewrite playerHit_validHit.
    destruct (validHit s g sh tg) as [[a b]|] eqn:Hvh; [|constructor].
    apply validHit_Some in Hvh as (_ & Ha & Hb & _).
    apply emitsNonneg_broadcast. simpl.
    pose proof (pointsToSteal_nonneg b (Hs _ _ _ Hb)).
    pose proof (Hs _ _ _ Ha). repeat constructor; lia.
  - intros [_ ->]%Some_pair_inv. rewrite farmObjectHit_collectible.
    destruct (collectible s socket g o) as [[fo pl]|] eqn:Hc; [|constructor].
    unfold collectible in Hc.
    destruct (objectAt s g o) as [fo'|] eqn:Hfo; [|done].
    destruct (playerAt s g socket) as [pl'|] eqn:Hpl; [|done].
    injection Hc as <- <-.
    apply emitsNonneg_broadcast. simpl.
    pose proof (Hs _ _ _ Hpl). pose proof (Hv _ _ _ Hfo). repeat constructor; lia.
  - intros [_ ->]%Some_pair_inv.
    change (collectResource socket g o s) with (farmObjectHit socket g o s).
    rewrite farmObjectHit_collectible.
    destruct (collectible s socket g o) as [[fo pl]|] eqn:Hc; [|constructor].
    unfold collectible in Hc.
    destruct (objectAt s g o) as [fo'|] eqn:Hfo; [|done].
    destruct (playerAt s g socket) as [pl'|] eqn:Hpl; [|done].
    injection Hc as <- <-.
    apply emitsNonneg_broadcast. simpl.
    pose proof (Hs _ _ _ Hpl). pose proof (Hv _ _ _ Hfo). repeat constructor; lia.
  - intros [[_ ->]|[(sock & g & tid & -> & _ & Hr)|(sock & g & k' & -> & _ & Hg)]]%fire_cases.
    + constructor.
    + replace out with (s', out).2 by done. rewrite Hr. unfold respawnPlayer.
      destruct (rooms _ !! g) as [rp|]; [|constructor].
      destruct (rp !! tid); by repeat constructor.
    + apply emitsNonneg_farmUpdates.
      by apply generateFarmObjects_spec in Hg as (_ & _ & _ & _ & H).
Qed.

Lemma run_emits (fuel : nat) (evs : list (Env * Event)) (s s' : State) (out : list Effect) :
  scoresNonneg s ∧ valuesNonneg s →
  run fuel s evs = Some (s', out) →
  emitsNonneg out.
Proof.
  revert s s' out. induction evs as [|[env ev] evs IH]; intros s s' out Hinv; simpl.
  { intros [= _ <-]. constructor. }
  destruct (step fuel env ev s) as [[s1 out1]|] eqn:Hs; [|done].
  destruct (run fuel s1 evs) as [[s2 out2]|] eqn:Hr; [|done].
  intros [= _ <-]. apply Forall_app. split.
  - destruct Hinv. by eapply step_emits.
  - eapply IH; [|done]. by eapply step_scores.
Qed.

(** C3. Along every run from the initial state, every score held in any
    room is non-negative, and so is every score shown in a notification
    (scores are integers by construction: they start at the literal 0 and
    change by integer amounts only); in particular neither a hit nor a
    collect takes a score below zero. *)
Theorem scores_never_negative (fuel : nat) (evs : list (Env * Event))
    (s : State) (out : list Effect) :
  run fuel initial_state evs = Some (s, out) →
  (∀ g roomPlayers p player,
     rooms s !! g = Some roomPlayers → roomPlayers !! p = Some player →
     0 ≤ score player) ∧
  (∀ e v, e ∈ out → v ∈ effectScores e → 0 ≤ v) ∧
  (∀ env socket g shooterId targetId,
     scoresNonneg (playerHit env socket g shooterId targetId s).1) ∧
  (∀ socket g o,
     scoresNonneg (farmObjectHit socket g o s).1 ∧
     scoresNonneg (collectResource socket g o s).1).
Proof.
  intros Hrun.
  assert (Hinv : scoresNonneg s ∧ valuesNonneg s).
  { eapply (run_invariant fuel (λ s, scoresNonneg s ∧ valuesNonneg s) (λ _, True));
      [| |split|exact Hrun].
    - intros env ev s0 s1 out1 _ H0 Hst. by eapply step_scores.
    - by apply Forall_true.
    - by intros g p pl.
    - by intros g o fo. }
  destruct Hinv as [Hs Hv]. split; [|split; [|split]].
  - intros g rp p pl Hg Hp. apply (Hs g p). unfold playerAt. by rewrite Hg.
  - intros e v He Hv'.
    assert (Hout : emitsNonneg out).
    { eapply run_emits; [|exact Hrun]. split; [by intros g p pl|by intros g o fo]. }
    unfold emitsNonneg in Hout. rewrite Forall_forall in Hout.
    specialize (Hout e He). rewrite Forall_forall in Hout. by apply Hout.
  - intros. by apply playerHit_scoresNonneg.
  - intros socket g o.
    change (collectResource socket g o s) with (farmObjectHit socket g o s).
    split; by apply farmObjectHit_scoresNonneg.
Qed.

(** ** Collection *)

Lemma countDestroyed_app (g o : string) (l1 l2 : list Effect) :
  countDestroyed g o (l1 ++ l2) = (countDestroyed g o l1 + countDestroyed g o l2)%nat.
Proof. unfold countDestroyed. by rewrite List.filter_app, length_app. Qed.

Lemma countDestroyed_none (g o : string) (out : list Effect) :
  Forall notDestroyed out → countDestroyed g o out = 0%nat.
Proof.
  unfold countDestroyed. induction 1 as [|e l He _ IH]; [done|]. simpl.
  destruct e as [[g' sock|sock] []|]; simpl in *; done.
Qed.

Lemma countDestroyed_broadcast (g o socket g' o' : string) (sc : Z) :
  countDestroyed g o (broadcast socket g' (farmObjectDestroyed o' socket sc)) =
    if decide (g' = g ∧ o' = o) then 1%nat else 0%nat.
Proof.
  unfold countDestroyed. simpl. by case_bool_decide; case_decide.
Qed.

Lemma generateFarmObjects_out (fuel : nat) (env : Env) (socket gameId : string)
    (count k : nat) (s s' : State) (out : list Effect) (k' : nat) :
  generateFarmObjects fuel env socket gameId count k s = Some (s', out, k') →
  Forall notDestroyed out.
Proof.
  intros (_ & _ & _ & _ & H)%generateFarmObjects_spec.
  apply Forall_forall. intros e (sc & l & ->)%H. done.
Qed.

Lemma joinGame_out (fuel : nat) (env : Env) (socket gameId : string)
    (name : option string) (color : option Z) (s s' : State) (out : list Effect) :
  joinGame fuel env socket gameId name color s = Some (s', out) →
  Forall notDestroyed out.
Proof.
  unfold joinGame.
  destruct (match name with Some n => _ | None => _ end) as [nm k].
  destruct (rooms _ !! gameId) as [rp|]; [|by intros [= _ <-]].
  destruct (generateObstacles _ _) as [s3 obs].
  destruct (generateFarmObjects _ _ _ _ _ _ _) as [[[s4 out4] k4]|] eqn:Hg; [|done].
  intros [= _ <-]. apply generateFarmObjects_out in Hg.
  constructor; [done|]. apply Forall_app; split; [done|].
  do 2 (constructor; [done|]). apply Forall_app; split.
  - by destruct (globalFarmObjects s4 !! gameId); repeat constructor.
  - by repeat constructor.
Qed.

Lemma disconnect_out (socket : string) (s : State) :
  Forall notDestroyed (disconnect socket s).2.
Proof.
  unfold disconnect; simpl.
  apply Forall_forall. intros e (g & rp & _ & _ & ->)%disconnect_fold_out. done.
Qed.

Lemma step_presence (fuel : nat) (env : Env) (ev : Event) (s s' : State)
    (out : list Effect) (g o : string) :
  neverGenerates o (env, ev) →
  step fuel env ev s = Some (s', out) →
  (countDestroyed g o out + presence s' g o)%nat = presence s g o.
Proof.
  intros Hfresh.
  assert (Hgen : ∀ obs fo, ¬ generated env obs o fo).
  { intros obs fo ([j Hj] & _). by apply (Hfresh j). }
  assert (Hframe : ∀ s1 out1, globalFarmObjects s1 = globalFarmObjects s →
            Forall notDestroyed out1 →
            (countDestroyed g o out1 + presence s1 g o)%nat = presence s g o).
  { intros s1 out1 Hf Hout. rewrite countDestroyed_none by done.
    unfold presence, objectAt. by rewrite Hf. }
  assert (Hgrow : ∀ s0 s1 out1, objectAt s0 g o = objectAt s g o →
            (∀ fo, objectAt s1 g o = Some fo →
                   objectAt s0 g o = Some fo ∨ ∃ g' obs, g = g' ∧ generated env obs o fo) →
            (is_Some (objectAt s0 g o) → is_Some (objectAt s1 g o)) →
            Forall notDestroyed out1 →
            (countDestroyed g o out1 + presence s1 g o)%nat = presence s g o).
  { intros s0 s1 out1 H0 Hin Hdom Hout. rewrite countDestroyed_none by done.
    unfold presence. rewrite <-H0.
    destruct (objectAt s1 g o) as [fo|] eqn:E1.
    - destruct (Hin fo eq_refl) as [->|(g' & obs & _ & Hbad)]; [done|].
      by apply Hgen in Hbad.
    - destruct (objectAt s0 g o) eqn:E0; [|done].
      destruct Hdom as [? ?]; [by eexists|done]. }
  assert (Hcollect : ∀ socket g' o',
            (countDestroyed g o (farmObjectHit socket g' o' s).2 +
             presence (farmObjectHit socket g' o' s).1 g o)%nat = presence s g o).
  { intros socket g' o'. unfold presence. rewrite farmObjectHit_objectAt.
    rewrite farmObjectHit_collectible.
    destruct (collectible s socket g' o') as [[fo pl]|] eqn:Hc; [|done].
    cbn [snd]. rewrite countDestroyed_broadcast.
    destruct (decide (g = g' ∧ o = o')) as [[-> ->]|Hne].
    - rewrite decide_True by done. unfold collectible in Hc.
      by destruct (objectAt s g' o').
    - rewrite decide_False by (intros [-> ->]; tauto). done. }
  destruct ev as [socket [g' nm col|g' pos vel| |g' dir pos|g' sh tg|g' o'|g' o']|t];
    cbn [step handle].
  - intros Hj. destruct (joinGame_objectAt _ _ _ _ _ _ _ _ _ g o Hj) as [Hin Hdom].
    eapply (Hgrow s); [done| |done|by eapply joinGame_out].
    intros fo [H|[H1 H2]]%Hin; [by left|right; eauto].
  - intros [-> ->]%Some_pair_inv. apply Hframe; [apply playerMove_spec|by repeat constructor].
  - intros [-> ->]%Some_pair_inv. apply Hframe; [done|apply disconnect_out].
  - intros [-> ->]%Some_pair_inv. apply Hframe; [done|by repeat constructor].
  - intros [-> ->]%Some_pair_inv. apply Hframe; [apply playerHit_frame|].
    rewrite playerHit_validHit. destruct (validHit _ _ _ _) as [[??]|]; by repeat constructor.
  - intros [-> ->]%Some_pair_inv. apply Hcollect.
  - intros [-> ->]%Some_pair_inv. apply (Hcollect socket g' o').
  - intros [[-> ->]|[(sock & g' & tid & -> & _ & Hr)|(sock & g' & k' & -> & _ & Hg)]]%fire_cases.
    + by apply Hframe.
    + apply Hframe.
      * replace s' with (s', out).1 by done. rewrite Hr.
        by destruct (respawnPlayer_frame env sock g' tid
                       (set_timers (removeFirst (RespawnTimer sock g' tid) (timers s)) s))
          as [-> _].
      * replace out with (s', out).2 by done. rewrite Hr. unfold respawnPlayer.
        destruct (rooms _ !! g') as [rp|]; [|done].
        destruct (rp !! tid); by repeat constructor.
    + destruct (generateFarmObjects_objectAt _ _ _ _ _ _ _ _ _ _ g o Hg) as [Hin Hdom].
      eapply (Hgrow _); [| |exact Hdom|by eapply generateFarmObjects_out].
      * done.
      * intros fo [H|[H1 H2]]%Hin; [by left|right; eauto].
Qed.

Lemma run_presence (fuel : nat) (g o : string) (evs : list (Env * Event))
    (s s' : State) (out : list Effect) :
  Forall (neverGenerates o) evs →
  run fuel s evs = Some (s', out) →
  (countDestroyed g o out + presence s' g o)%nat = presence s g o.
Proof.
  revert s s' out. induction evs as [|[env ev] evs IH]; intros s s' out Hf; simpl.
  { by intros [= <- <-]. }
  apply Forall_cons in Hf as [Hf1 Hf].
  destruct (step fuel env ev s) as [[s1 out1]|] eqn:Hs; [|done].
  destruct (run fuel s1 evs) as [[s2 out2]|] eqn:Hr; [|done].
  intros [= <- <-]. rewrite countDestroyed_app.
  rewrite <-(step_presence _ _ _ _ _ _ g o Hf1 Hs), <-(IH _ _ _ Hf Hr). lia.
Qed.

Lemma farmObjectHit_absent (socket g o : string) (s : State) :
  objectAt s g o = None → farmObjectHit socket g o s = (s, []).
Proof.
  intros H. rewrite farmObjectHit_collectible. unfold collectible. by rewrite H.
Qed.

Lemma farmObjectHit_success (socket g o : string) (s : State)
    (farmObject : FarmObject) (player : PlayerData) :
  objectAt s g o = Some farmObject → playerAt s g socket = Some player →
  (farmObjectHit socket g o s).2 =
    broadcast socket g (farmObjectDestroyed o socket (score player + value farmObject)) ∧
  objectAt (farmObjectHit socket g o s).1 g o = None ∧
  playerAt (farmObjectHit socket g o s).1 g socket =
    Some (with_score (score player + value farmObject) player).
Proof.
  intros Ho Hp.
  rewrite farmObjectHit_objectAt, farmObjectHit_playerAt, farmObjectHit_collectible.
  unfold collectible. rewrite Ho, Hp. by rewrite !decide_True.
Qed.

(** C2, as the claim states it, fails: identifiers are not unique over time.
    With the clock standing at 7 and every [Math.random()] returning 0, Ann's
    join leaves the single collectible "farm-7-" in room "r" (each of the ten
    iterations overwrites the previous one); she collects it, the
    repopulation scheduled by that collect stores "farm-7-" again, and her
    second collect of "farm-7-" succeeds too: two object-destroyed
    notifications for the same identifier, and two credits of 5. *)
Lemma collected_again_after_rebuild :
  farmIds "r" (run 1 initial_state (take 1 recollect)) = Some ["farm-7-"] ∧
  farmIds "r" (run 1 initial_state (take 2 recollect)) = Some [] ∧
  countDestroyed "r" "farm-7-" (outcome (run 1 initial_state (take 2 recollect))).2 = 1%nat ∧
  farmIds "r" (run 1 initial_state (take 3 recollect)) = Some ["farm-7-"] ∧
  finished (run 1 initial_state recollect) = true ∧
  countDestroyed "r" "farm-7-" (outcome (run 1 initial_state recollect)).2 = 2%nat ∧
  (score <$> playerAt (outcome (run 1 initial_state recollect)).1 "r" "a") = Some 10.
Proof. repeat split; by vm_compute. Qed.

(** C2, amended.  A collect report (by projectile or by proximity, the two
    handlers coincide) naming a collectible of the room, sent by a member of
    the room, removes the collectible, credits its value and emits one
    object-destroyed notification (to the room and its echo to the sender).
    A collect report naming an identifier that is not in the room changes
    nothing and emits nothing.  Along every run in which no handler run can
    build the identifier again (none of the identifiers that its clock and
    random numbers form equals it), the number of object-destroyed
    notifications for it plus its presence (1 or 0) stays constant: at most
    one is ever emitted, and once the collectible is gone it stays gone and
    every later collect report naming it is a no-op. *)
Theorem collect_exactly_once (fuel : nat) (g o : string) :
  (∀ s socket farmObject player,
     objectAt s g o = Some farmObject → playerAt s g socket = Some player →
     collectResource socket g o s = farmObjectHit socket g o s ∧
     (farmObjectHit socket g o s).2 =
       [Emit (ToRoomExcept g socket)
          (farmObjectDestroyed o socket (score player + value farmObject));
        Emit (ToSocket socket)
          (farmObjectDestroyed o socket (score player + value farmObject))] ∧
     objectAt (farmObjectHit socket g o s).1 g o = None ∧
     playerAt (farmObjectHit socket g o s).1 g socket =
       Some (with_score (score player + value farmObject) player)) ∧
  (∀ s socket,
     objectAt s g o = None →
     farmObjectHit socket g o s = (s, []) ∧ collectResource socket g o s = (s, [])) ∧
  (∀ s evs s' out,
     Forall (neverGenerates o) evs →
     run fuel s evs = Some (s', out) →
     (countDestroyed g o out + presence s' g o)%nat = presence s g o ∧
     (countDestroyed g o out ≤ 1)%nat ∧
     (objectAt s g o = None →
      countDestroyed g o out = 0%nat ∧ objectAt s' g o = None ∧
      ∀ socket, farmObjectHit socket g o s' = (s', []) ∧
                collectResource socket g o s' = (s', []))).
Proof.
  split; [|split].
  - intros s socket fo pl Ho Hp. split; [done|]. by apply farmObjectHit_success.
  - intros s socket Ho. split; by apply farmObjectHit_absent.
  - intros s evs s' out Hfresh Hrun.
    pose proof (run_presence fuel g o evs s s' out Hfresh Hrun) as Hc.
    split; [done|]. split.
    + unfold presence in Hc. destruct (objectAt s g o), (objectAt s' g o); lia.
    + intros Ho. unfold presence in Hc. rewrite Ho in Hc.
      destruct (objectAt s' g o) eqn:Ho'; [lia|].
      split; [lia|]. split; [done|].
      intros socket. split; by apply farmObjectHit_absent.
Qed.

(** C10. A collect report from a room member whose alive flag is false
    succeeds like any other: the score is credited with the collectible's
    value, the collectible is removed, the object-destroyed notification is
    emitted and the repopulation timer is scheduled; the flag stays false, and
    the outcome is the one a live player gets, up to that flag. *)
Theorem collect_ignores_alive_flag (socket gameId objectId : string) (s : State)
    (roomFarmObjects : gmap string FarmObject) (farmObject : FarmObject)
    (roomPlayers : gmap string PlayerData) (player : PlayerData) :
  globalFarmObjects s !! gameId = Some roomFarmObjects →
  roomFarmObjects !! objectId = Some farmObject →
  rooms s !! gameId = Some roomPlayers →
  roomPlayers !! socket = Some player →
  isAlive player = false →
  let player' := with_score (score player + value farmObject) player in
  let s' :=
    setTimeout (RegenTimer socket gameId)
      (set_farm (<[gameId := delete objectId roomFarmObjects]> (globalFarmObjects s))
         (set_rooms (<[gameId := <[socket := player']> roomPlayers]> (rooms s)) s)) in
  let out :=
    [Emit (ToRoomExcept gameId socket)
       (farmObjectDestroyed objectId socket (score player + value farmObject));
     Emit (ToSocket socket)
       (farmObjectDestroyed objectId socket (score player + value farmObject))] in
  farmObjectHit socket gameId objectId s = (s', out) ∧
  collectResource socket gameId objectId s = (s', out) ∧
  isAlive player' = false ∧
  farmObjectHit socket gameId objectId (withAlive true socket gameId s) =
    (withAlive true socket gameId s', out) ∧
  collectResource socket gameId objectId (withAlive true socket gameId s) =
    (withAlive true socket gameId s', out).
Proof.
  intros Hf Ho Hr Hp Hdead player' s' out.
  assert (H1 : farmObjectHit socket gameId objectId s = (s', out)).
  { unfold farmObjectHit. by rewrite Hf, Ho, Hr, Hp. }
  assert (H2 : farmObjectHit socket gameId objectId (withAlive true socket gameId s) =
               (withAlive true socket gameId s', out)).
  { unfold farmObjectHit, withAlive. simpl.
    rewrite Hf, Ho, lookup_alter_eq, Hr. simpl. rewrite lookup_alter_eq, Hp. simpl.
    f_equal. unfold setTimeout, set_timers, set_farm, set_rooms. simpl. f_equal.
    rewrite alter_insert_eq, insert_alter_eq. f_equal.
    by rewrite alter_insert_eq, insert_alter_eq. }
  by repeat split.
Qed.

(** C5. A hit report whose shooter and target are the same player leaves the
    whole state (players, collectibles, obstacles, registry, pending timers)
    unchanged and emits nothing. *)
Theorem self_hit_is_noop (fuel : nat) (env : Env) (socket gameId playerId : string)
    (s : State) :
  playerHit env socket gameId playerId playerId s = (s, []) ∧
  step fuel env (FromSocket socket (PlayerHit gameId playerId playerId)) s = Some (s, []).
Proof. simpl. by rewrite playerHit_self. Qed.

(** ** Death and respawn *)

Lemma validHit_goneOrDead (s : State) (g sh t : string) :
  goneOrDead s g t → validHit s g sh t = None.
Proof.
  intros H. destruct (validHit s g sh t) as [[a b]|] eqn:Hv; [|done].
  apply validHit_Some in Hv as (_ & _ & Hb & Halive).
  apply H in Hb. congruence.
Qed.

Lemma playerHit_goneOrDead (env : Env) (socket g sh t : string) (s : State) :
  goneOrDead s g t → playerHit env socket g sh t s = (s, []).
Proof. intros H. by rewrite playerHit_validHit, validHit_goneOrDead. Qed.

Lemma respawnPlayer_absent (env : Env) (socket g t : string) (s : State) :
  playerAt s g t = None → respawnPlayer env socket g t s = (s, []).
Proof.
  unfold playerAt, respawnPlayer.
  destruct (rooms s !! g) as [rp|]; simpl; [|done]. by intros ->.
Qed.

Lemma fire_playerAt_other (fuel : nat) (env : Env) (tm : Timer) (s s' : State)
    (out : list Effect) (g t : string) :
  notRespawnOf g t (env, TimerFires tm) →
  fire fuel env tm s = Some (s', out) →
  playerAt s' g t = playerAt s g t.
Proof.
  intros Hnr
    [[-> _]|[(sock & g' & tid & -> & _ & Hr)|(sock & g' & k' & -> & _ & Hg)]]%fire_cases;
    [done| |].
  - replace s' with (s', out).1 by done. rewrite Hr, respawnPlayer_playerAt.
    rewrite decide_False; [done|]. intros [-> ->]. by apply (Hnr sock).
  - assert (Hrooms : rooms s' = rooms s)
      by (by apply generateFarmObjects_spec in Hg as (-> & _)).
    unfold playerAt. by rewrite Hrooms.
Qed.

Lemma step_present (fuel : nat) (env : Env) (ev : Event) (s s' : State)
    (out : list Effect) (g t : string) :
  ev ≠ FromSocket t Disconnect →
  step fuel env ev s = Some (s', out) →
  is_Some (playerAt s g t) → is_Some (playerAt s' g t).
Proof.
  intros Hev Hstep [pl Hpl].
  destruct ev as [socket [g' nm col|g' pos vel| |g' dir pos|g' sh tg|g' o|g' o]|tm];
    cbn [step handle] in Hstep.
  - rewrite (joinGame_playerAt _ _ _ _ _ _ _ _ _ g t Hstep), Hpl. by eexists.
  - apply Some_pair_inv in Hstep as [-> _]. rewrite playerMove_playerAt, Hpl.
    case_decide; by eexists.
  - apply Some_pair_inv in Hstep as [-> _]. rewrite disconnect_playerAt, Hpl.
    rewrite decide_False; [by eexists|]. intros ->. done.
  - apply Some_pair_inv in Hstep as [-> _]. by eexists.
  - apply Some_pair_inv in Hstep as [-> _]. rewrite playerHit_playerAt, Hpl.
    destruct (validHit s g' sh tg) as [[a b]|]; [|by eexists].
    repeat case_decide; by eexists.
  - apply Some_pair_inv in Hstep as [-> _]. rewrite farmObjectHit_playerAt, Hpl.
    destruct (collectible s socket g' o) as [[a b]|]; [|by eexists].
    case_decide; by eexists.
  - apply Some_pair_inv in Hstep as [-> _].
    change (collectResource socket g' o s) with (farmObjectHit socket g' o s).
    rewrite farmObjectHit_playerAt, Hpl.
    destruct (collectible s socket g' o) as [[a b]|]; [|by eexists].
    case_decide; by eexists.
  - apply fire_cases in Hstep
      as [[-> _]|[(sock & g' & tid & -> & _ & Hr)|(sock & g' & k' & -> & _ & Hg)]].
    + by eexists.
    + replace s' with (s', out).1 by done. rewrite Hr, respawnPlayer_playerAt.
      change (playerAt (set_timers _ s) g t) with (playerAt s g t). rewrite Hpl.
      case_decide; by eexists.
    + assert (Hrooms : rooms s' = rooms s)
        by (by apply generateFarmObjects_spec in Hg as (-> & _)).
      unfold playerAt in *. rewrite Hrooms, Hpl. by eexists.
Qed.

Lemma step_stays_dead (fuel : nat) (env : Env) (ev : Event) (s s' : State)
    (out : list Effect) (g t : string) :
  notRespawnOf g t (env, ev) →
  step fuel env ev s = Some (s', out) →
  deadIn s g t → goneOrDead s' g t.
Proof.
  intros Hnr Hstep (pl & Hpl & Hdead) pl'.
  destruct ev as [socket [g' nm col|g' pos vel| |g' dir pos|g' sh tg|g' o|g' o]|tm];
    cbn [step handle] in Hstep.
  - rewrite (joinGame_playerAt _ _ _ _ _ _ _ _ _ g t Hstep), Hpl. by intros [= <-].
  - apply Some_pair_inv in Hstep as [-> _]. rewrite playerMove_playerAt, Hpl.
    case_decide; intros [= <-]; [|done]. by destruct vel.
  - apply Some_pair_inv in Hstep as [-> _]. rewrite disconnect_playerAt, Hpl.
    case_decide; [done|]. by intros [= <-].
  - apply Some_pair_inv in Hstep as [-> _]. cbn [playerShoot fst]. rewrite Hpl.
    by intros [= <-].
  - apply Some_pair_inv in Hstep as [-> _]. rewrite playerHit_playerAt.
    destruct (validHit s g' sh tg) as [[a b]|] eqn:Hv;
      [|rewrite Hpl; by intros [= <-]].
    apply validHit_Some in Hv as (Hne & Ha & Hb & Halive).
    case_decide as H1; [by intros [= <-]|].
    case_decide as H2; [|rewrite Hpl; by intros [= <-]].
    destruct H2 as [-> ->]. intros [= <-]. simpl. congruence.
  - apply Some_pair_inv in Hstep as [-> _]. rewrite farmObjectHit_playerAt.
    destruct (collectible s socket g' o) as [[fo pl0]|] eqn:Hc;
      [|rewrite Hpl; by intros [= <-]].
    case_decide as H1; [|rewrite Hpl; by intros [= <-]].
    destruct H1 as [-> ->]. intros [= <-]. simpl.
    unfold collectible in Hc. rewrite Hpl in Hc.
    destruct (objectAt s g' o); [|done]. by injection Hc as _ <-.
  - apply Some_pair_inv in Hstep as [-> _].
    change (collectResource socket g' o s) with (farmObjectHit socket g' o s).
    rewrite farmObjectHit_playerAt.
    destruct (collectible s socket g' o) as [[fo pl0]|] eqn:Hc;
      [|rewrite Hpl; by intros [= <-]].
    case_decide as H1; [|rewrite Hpl; by intros [= <-]].
    destruct H1 as [-> ->]. intros [= <-]. simpl.
    unfold collectible in Hc. rewrite Hpl in Hc.
    destruct (objectAt s g' o); [|done]. by injection Hc as _ <-.
  - rewrite (fire_playerAt_other _ _ _ _ _ _ g t Hnr Hstep), Hpl. by intros [= <-].
Qed.

Lemma step_stays_absent (fuel : nat) (env : Env) (ev : Event) (s s' : State)
    (out : list Effect) (g t : string) :
  notFrom t (env, ev) →
  step fuel env ev s = Some (s', out) →
  playerAt s g t = None → playerAt s' g t = None.
Proof.
  intros Hnf Hstep Habs.
  destruct ev as [socket [g' nm col|g' pos vel| |g' dir pos|g' sh tg|g' o|g' o]|tm];
    cbn [step handle] in Hstep.
  - rewrite (joinGame_playerAt _ _ _ _ _ _ _ _ _ g t Hstep), Habs.
    rewrite decide_False; [done|]. intros [_ ->]. by eapply Hnf.
  - apply Some_pair_inv in Hstep as [-> _]. rewrite playerMove_playerAt, Habs.
    by case_decide.
  - apply Some_pair_inv in Hstep as [-> _]. rewrite disconnect_playerAt, Habs.
    by case_decide.
  - by apply Some_pair_inv in Hstep as [-> _].
  - apply Some_pair_inv in Hstep as [-> _]. rewrite playerHit_playerAt.
    destruct (validHit s g' sh tg) as [[a b]|] eqn:Hv; [|done].
    apply validHit_Some in Hv as (Hne & Ha & Hb & Halive).
    case_decide as H1; [destruct H1 as [-> ->]; congruence|].
    case_decide as H2; [destruct H2 as [-> ->]; congruence|done].
  - apply Some_pair_inv in Hstep as [-> _]. rewrite farmObjectHit_playerAt.
    destruct (collectible s socket g' o) as [[fo pl0]|] eqn:Hc; [|done].
    case_decide as H1; [|done]. destruct H1 as [_ ->]. by edestruct Hnf.
  - apply Some_pair_inv in Hstep as [-> _].
    change (collectResource socket g' o s) with (farmObjectHit socket g' o s).
    rewrite farmObjectHit_playerAt.
    destruct (collectible s socket g' o) as [[fo pl0]|] eqn:Hc; [|done].
    case_decide as H1; [|done]. destruct H1 as [_ ->]. by edestruct Hnf.
  - apply fire_cases in Hstep
      as [[-> _]|[(sock & g' & tid & -> & _ & Hr)|(sock & g' & k' & -> & _ & Hg)]].
    + done.
    + replace s' with (s', out).1 by done. rewrite Hr, respawnPlayer_playerAt.
      change (playerAt (set_timers _ s) g t) with (playerAt s g t). rewrite Habs.
      by case_decide.
    + assert (Hrooms : rooms s' = rooms s)
        by (by apply generateFarmObjects_spec in Hg as (-> & _)).
      unfold playerAt in *. by rewrite Hrooms.
Qed.

Lemma run_stays_absent (fuel : nat) (g t : string) (evs : list (Env * Event))
    (s s' : State) (out : list Effect) :
  Forall (notFrom t) evs →
  playerAt s g t = None →
  run fuel s evs = Some (s', out) →
  playerAt s' g t = None.
Proof.
  apply (run_invariant fuel (λ s, playerAt s g t = None) (notFrom t)).
  intros env ev s0 s1 out1 Hq H0 Hst. by eapply step_stays_absent.
Qed.

Lemma disconnect_event_dec (t : string) (ev : Event) :
  {ev = FromSocket t Disconnect} + {ev ≠ FromSocket t Disconnect}.
Proof.
  destruct ev as [socket []|]; try (right; congruence).
  destruct (decide (socket = t)) as [->|]; [by left|right; congruence].
Qed.

Lemma run_stays_dead (fuel : nat) (g t : string) (evs : list (Env * Event))
    (s s' : State) (out : list Effect) :
  Forall (notRespawnOf g t) evs →
  silentAfterDisconnect t evs →
  deadIn s g t →
  run fuel s evs = Some (s', out) →
  goneOrDead s' g t.
Proof.
  revert s s' out. induction evs as [|[env ev] evs IH]; intros s s' out Hnr Hsil Hdead; simpl.
  { intros [= <- _]. destruct Hdead as (pl & Hpl & Hd). intros pl'. rewrite Hpl.
    by intros [= <-]. }
  apply Forall_cons in Hnr as [Hnr1 Hnr].
  destruct (step fuel env ev s) as [[s1 out1]|] eqn:Hs; [|done].
  destruct (run fuel s1 evs) as [[s2 out2]|] eqn:Hr; [|done].
  intros [= <- _].
  destruct (disconnect_event_dec t ev) as [->|Hev].
  - simpl in Hsil. rewrite decide_True in Hsil by done.
    assert (Habs : playerAt s1 g t = None).
    { cbn [step handle] in Hs. apply Some_pair_inv in Hs as [-> _].
      by rewrite disconnect_playerAt, decide_True. }
    intros pl'. by rewrite (run_stays_absent fuel g t evs s1 s2 out2 Hsil Habs Hr).
  - eapply IH; [done| |split_and?|done].
    + destruct ev as [socket [| | | | | |]|]; simpl in Hsil; try done.
      case_decide; [congruence|done].
    + destruct (step_present _ _ _ _ _ _ g t Hev Hs) as [pl1 Hpl1].
      { destruct Hdead as (pl & Hpl & _). by eexists. }
      exists pl1. split; [done|].
      by eapply (step_stays_dead _ _ _ _ _ _ g t Hnr1 Hs).
Qed.

Lemma fire_respawn_absent (fuel : nat) (env : Env) (socket g t : string) (s : State) :
  playerAt s g t = None →
  ∃ pending, fire fuel env (RespawnTimer socket g t) s = Some (set_timers pending s, []).
Proof.
  intros H. unfold fire. case_decide.
  - eexists. by rewrite respawnPlayer_absent.
  - exists (timers s). by destruct s.
Qed.

(** C4. A hit report naming a dead player as target changes nothing and
    emits nothing, and so does one whose shooter or target is not in the room
    (or whose room does not exist).  The respawn callback changes nothing and
    emits nothing when the room or the target is gone, and the timer firing
    then only leaves the queue of pending timers.  An accepted hit marks its
    target dead; from then on, along every run that does not fire a respawn
    timer for that player (sockets sending nothing after their disconnect),
    every hit report naming the player as target is a no-op; the respawn
    callback is what sets the player alive again. *)
Theorem dead_target_cannot_be_hit (fuel : nat) (g t : string) :
  (∀ env socket shooterId s target,
     playerAt s g t = Some target → isAlive target = false →
     playerHit env socket g shooterId t s = (s, []) ∧
     step fuel env (FromSocket socket (PlayerHit g shooterId t)) s = Some (s, [])) ∧
  (∀ env socket shooterId s,
     playerAt s g shooterId = None ∨ playerAt s g t = None →
     playerHit env socket g shooterId t s = (s, [])) ∧
  (∀ env socket s,
     playerAt s g t = None →
     respawnPlayer env socket g t s = (s, []) ∧
     ∃ pending,
       fire fuel env (RespawnTimer socket g t) s = Some (set_timers pending s, [])) ∧
  (∀ env socket shooterId s shooter target,
     shooterId ≠ t →
     playerAt s g shooterId = Some shooter →
     playerAt s g t = Some target → isAlive target = true →
     deadIn (playerHit env socket g shooterId t s).1 g t) ∧
  (∀ s evs s' out,
     deadIn s g t →
     Forall (notRespawnOf g t) evs → silentAfterDisconnect t evs →
     run fuel s evs = Some (s', out) →
     ∀ env socket shooterId,
       playerHit env socket g shooterId t s' = (s', []) ∧
       step fuel env (FromSocket socket (PlayerHit g shooterId t)) s' = Some (s', [])) ∧
  (∀ env socket s target,
     playerAt s g t = Some target →
     ∃ player,
       playerAt (respawnPlayer env socket g t s).1 g t = Some player ∧
       isAlive player = true).
Proof.
  repeat split.
  - apply playerHit_goneOrDead. intros pl. rewrite H. by intros [= <-].
  - cbn [step handle]. rewrite playerHit_goneOrDead; [done|].
    intros pl. rewrite H. by intros [= <-].
  - intros env socket sh s H. by rewrite playerHit_validHit, validHit_absent.
  - by apply respawnPlayer_absent.
  - by apply fire_respawn_absent.
  - intros env socket sh s a b Hne Ha Hb Halive. exists (killed (clock env 0) b).
    rewrite playerHit_playerAt. unfold validHit.
    rewrite decide_False, Ha, Hb, Halive by done. by rewrite decide_True.
  - apply playerHit_goneOrDead. by eapply run_stays_dead.
  - cbn [step handle]. rewrite playerHit_goneOrDead; [done|]. by eapply run_stays_dead.
  - intros env socket s target H. exists (revived (samplePosition env 0) target).
    rewrite respawnPlayer_playerAt, decide_True, H by done. done.
Qed.

(** ** Room lifecycle *)

Lemma farmObjectHit_frame (socket g o : string) (s : State) :
  obstacles (farmObjectHit socket g o s).1 = obstacles s.
Proof.
  rewrite farmObjectHit_collectible. by destruct (collectible s socket g o) as [[??]|].
Qed.

Lemma step_obstacles (fuel : nat) (env : Env) (ev : Event) (s s' : State)
    (out : list Effect) :
  step fuel env ev s = Some (s', out) →
  ∀ g l, obstacles s' !! g = Some l → obstacles s !! g = Some l ∨ l = roomObstacles.
Proof.
  intros Hstep g l.
  assert (Hframe : obstacles s' = obstacles s →
                   obstacles s' !! g = Some l →
                   obstacles s !! g = Some l ∨ l = roomObstacles).
  { intros ->. by left. }
  destruct ev as [socket [g' nm col|g' pos vel| |g' dir pos|g' sh tg|g' o|g' o]|tm];
    cbn [step handle] in Hstep.
  - apply joinGame_spec in Hstep as (_ & -> & _).
    destruct (decide (g = g')) as [->|Hne].
    + rewrite lookup_insert_eq. intros [= <-].
      destruct (obstacles s !! g'); [by left|by right].
    + rewrite lookup_insert_ne by done. by left.
  - apply Some_pair_inv in Hstep as [-> _]. apply Hframe, playerMove_spec.
  - apply Some_pair_inv in Hstep as [-> _]. by apply Hframe.
  - apply Some_pair_inv in Hstep as [-> _]. by apply Hframe.
  - apply Some_pair_inv in Hstep as [-> _]. apply Hframe, playerHit_frame.
  - apply Some_pair_inv in Hstep as [-> _]. apply Hframe, farmObjectHit_frame.
  - apply Some_pair_inv in Hstep as [-> _]. apply Hframe, (farmObjectHit_frame socket g' o).
  - apply fire_cases in Hstep
      as [[-> _]|[(sock & g' & tid & -> & _ & Hr)|(sock & g' & k' & -> & _ & Hg)]].
    + by left.
    + apply Hframe. replace s' with (s', out).1 by done. rewrite Hr.
      by destruct (respawnPlayer_frame env sock g' tid
                     (set_timers (removeFirst (RespawnTimer sock g' tid) (timers s)) s))
        as (_ & -> & _).
    + apply Hframe. by apply generateFarmObjects_spec in Hg as (_ & -> & _).
Qed.

Lemma run_obstacles (fuel : nat) (evs : list (Env * Event)) (s : State)
    (out : list Effect) :
  run fuel initial_state evs = Some (s, out) →
  ∀ g l, obstacles s !! g = Some l → l = roomObstacles.
Proof.
  apply (run_invariant fuel (λ s, ∀ g l, obstacles s !! g = Some l → l = roomObstacles)
           (λ _, True)); [|by apply Forall_true|done].
  intros env ev s0 s1 out1 _ IH Hst g l Hl.
  destruct (step_obstacles _ _ _ _ _ _ Hst g l Hl) as [H| ->]; eauto.
Qed.

(** C7. A room that has no obstacles yet gets the list [roomObstacles]: 25
    points, namely four L formations of 5 points (top-left, top-right,
    bottom-left and bottom-right of the map centre (1000, 750), at 0, 90, 270
    and 180 degrees) followed by the five centre points.  Each formation is
    the 5-point template at its base point rotated about that base point by
    the stated formulas.  The generator reads neither the clock nor
    [Math.random()], and along every run from the initial state every stored
    obstacle list is this same list. *)
Theorem obstacle_layout_fixed :
  length roomObstacles = 25%nat ∧
  roomObstacles =
    createLShape 300 300 0 ++ createLShape 1700 300 1 ++
    createLShape 300 1100 3 ++ createLShape 1700 1100 2 ++
    imap centerPoint centerObstacles ∧
  (∀ bx by_ q, q ∈ [0; 1; 2; 3] →
     length (createLShape bx by_ q) = 5%nat ∧
     coords <$> createLShape bx by_ q = rotateAbout q bx by_ <$> lTemplate bx by_) ∧
  (∀ bx by_ p,
     rotateAbout 3 bx by_ (rotateAbout 1 bx by_ p) = p ∧
     rotateAbout 1 bx by_ (rotateAbout 3 bx by_ p) = p) ∧
  (Forall (λ o, ob_x o < 1000 ∧ ob_y o < 750) (createLShape 300 300 0) ∧
   Forall (λ o, 1000 < ob_x o ∧ ob_y o < 750) (createLShape 1700 300 1) ∧
   Forall (λ o, ob_x o < 1000 ∧ 750 < ob_y o) (createLShape 300 1100 3) ∧
   Forall (λ o, 1000 < ob_x o ∧ 750 < ob_y o) (createLShape 1700 1100 2)) ∧
  coords <$> imap centerPoint centerObstacles =
    [(1000, 750); (1000, 650); (1000, 850); (900, 750); (1100, 750)] ∧
  (∀ gameId s,
     obstacles s !! gameId = None →
     generateObstacles gameId s =
       (set_obstacles (<[gameId := roomObstacles]> (obstacles s)) s, roomObstacles)) ∧
  (∀ gameId s l,
     obstacles s !! gameId = Some l → generateObstacles gameId s = (s, l)) ∧
  (∀ fuel evs s out,
     run fuel initial_state evs = Some (s, out) →
     ∀ g1 g2 l1 l2,
       obstacles s !! g1 = Some l1 → obstacles s !! g2 = Some l2 →
       l1 = roomObstacles ∧ l2 = l1).
Proof.
  split; [done|]. split; [done|]. split.
  { intros bx by_ q Hq. split; [done|by apply createLShape_rotation]. }
  split; [apply rotateAbout_270_inverse|].
  split; [apply roomObstacles_quadrants|]. split; [done|].
  split; [apply generateObstacles_fresh|]. split; [apply generateObstacles_known|].
  intros fuel evs s out Hrun g1 g2 l1 l2 H1 H2.
  rewrite (run_obstacles _ _ _ _ Hrun g1 l1 H1), (run_obstacles _ _ _ _ Hrun g2 l2 H2).
  done.
Qed.

(** C6, as the claim states it, fails: Ann joins room "r", leaves it (the
    room is removed), and Bob joins "r" with a different clock and different
    random numbers.  Bob finds exactly the collectibles generated for Ann,
    not the ones a generation for his join would make. *)
Lemma rejoin_reuses_leftover_collectibles :
  roomOf "r" (run 1 initial_state [joinAnn; leaveAnn]) = Some None ∧
  length <$> farmList "r" (run 1 initial_state [joinAnn]) = Some 10%nat ∧
  farmList "r" (run 1 initial_state [joinAnn; leaveAnn; joinBob]) =
    farmList "r" (run 1 initial_state [joinAnn]) ∧
  farmList "r" (run 1 initial_state [joinAnn; leaveAnn; joinBob]) ≠
    farmList "r" (run 1 initial_state [joinBob]).
Proof.
  split; [by vm_compute|]. split; [by vm_compute|]. split; [by vm_compute|].
  intros H. vm_compute in H. discriminate.
Qed.

(** C6, amended.  When the last member of a room disconnects, the room is
    removed from the player registry at once, but its obstacle list and its
    collectibles stay in their registries.  A later join with the same room
    identifier returns when 10 or more collectibles are left or when a
    placement loop, wherever in the stream of random numbers it starts,
    accepts one of its first [fuel] samples.  When it returns,
    it has started a new player map holding only the joiner and reused what
    was left: the stored obstacle list is kept and sent unchanged; the join
    builds exactly 10 minus the number of leftovers identifiers (none when 10
    or more are left, and then the collectibles are exactly the leftovers);
    afterwards the room holds the leftover identifiers and the built ones; a
    leftover collectible is unchanged unless a built identifier equals its
    own, and under each built identifier the room holds a collectible made
    by this join (its type and value from the table, its position clear of
    the obstacles); the room never ends with more than 10 or than were left,
    and with fewer than 10 left it ends with exactly 10 if and only if the
    built identifiers are pairwise different and none is a leftover's. *)
Theorem last_leave_keeps_layout (socket g : string) (s : State)
    (roomPlayers : gmap string PlayerData) :
  rooms s !! g = Some roomPlayers →
  is_Some (roomPlayers !! socket) →
  size roomPlayers = 1%nat →
  rooms (disconnect socket s).1 !! g = None ∧
  obstacles (disconnect socket s).1 = obstacles s ∧
  globalFarmObjects (disconnect socket s).1 = globalFarmObjects s ∧
  ∀ fuel env socket' name color,
    (placementWithin fuel env (default roomObstacles (obstacles s !! g)) ∨
     (10 ≤ farmCount s g)%nat →
     is_Some (joinGame fuel env socket' g name color (disconnect socket s).1)) ∧
    ∀ s2 out,
      joinGame fuel env socket' g name color (disconnect socket s).1 = Some (s2, out) →
      rooms s2 !! g =
        Some {[socket' := newPlayer socket' (joinName env name) (default 0x1a75ff color)]} ∧
      obstacles s2 !! g = Some (default roomObstacles (obstacles s !! g)) ∧
      Emit (ToSocket socket')
        (obstaclesUpdate (default roomObstacles (obstacles s !! g))) ∈ out ∧
      (∃ m', globalFarmObjects s2 !! g = Some m' ∧
             Emit (ToSocket socket') (farmObjectsUpdate (values m')) ∈ out) ∧
      length (joinIds fuel env g name s) = (10 - farmCount s g)%nat ∧
      (∀ o, is_Some (objectAt s2 g o) ↔
            is_Some (objectAt s g o) ∨ o ∈ joinIds fuel env g name s) ∧
      (∀ o, o ∉ joinIds fuel env g name s → objectAt s2 g o = objectAt s g o) ∧
      (farmCount s2 g ≤ farmCount s g `max` 10)%nat ∧
      ((farmCount s g < 10)%nat →
       (farmCount s2 g = 10%nat ↔
        NoDup (joinIds fuel env g name s) ∧
        ∀ o, o ∈ joinIds fuel env g name s → objectAt s g o = None)) ∧
      ((10 ≤ farmCount s g)%nat →
       globalFarmObjects s2 !! g = Some (default ∅ (globalFarmObjects s !! g))) ∧
      (∀ o, o ∈ joinIds fuel env g name s →
            ∃ fo, objectAt s2 g o = Some fo ∧
                  generated env (default roomObstacles (obstacles s !! g)) o fo).
Proof.
  intros Hroom Hin Hsize.
  assert (Hgone : rooms (disconnect socket s).1 !! g = None).
  { rewrite disconnect_rooms, Hroom. simpl. unfold afterLeave.
    rewrite decide_True by done. rewrite decide_True; [done|].
    destruct Hin as [pl Hpl]. rewrite map_size_delete_Some by done. lia. }
  split; [done|]. split; [done|]. split; [done|].
  intros fuel env socket' name color. split.
  - intros H. by apply joinGame_returns.
  - intros s2 out Hj.
    pose proof (joinGame_spec _ _ _ _ _ _ _ _ _ Hj) as (Hr & Ho & _).
    pose proof (joinGame_effects _ _ _ _ _ _ _ _ _ Hj) as (outg & m2 & _ & Hm2 & Hout).
    pose proof (joinGame_built _ _ _ _ _ _ _ _ _ Hj)
      as (Hlen & Hkeep & Hdom & Hsz & Hiff & Hfull).
    pose proof (joinGame_made _ _ _ _ _ _ _ _ _ Hj) as Hmade.
    rewrite Hgone in Hr. simpl in Hr.
    change (obstacles (disconnect socket s).1) with (obstacles s) in *.
    change (joinIds fuel env g name (disconnect socket s).1)
      with (joinIds fuel env g name s) in *.
    change (farmCount (disconnect socket s).1 g) with (farmCount s g) in *.
    change (globalFarmObjects (disconnect socket s).1) with (globalFarmObjects s) in *.
    assert (Hat : ∀ o, objectAt (disconnect socket s).1 g o = objectAt s g o) by done.
    split; [|split; [|split; [|split; [|split; [|split; [|split; [|split; [|split;
      [|split]]]]]]]]].
    + rewrite Hr, lookup_insert_eq. unfold joinedPlayers. by rewrite lookup_empty.
    + by rewrite Ho, lookup_insert_eq.
    + rewrite Hout. apply list_elem_of_further, elem_of_app. right. set_solver.
    + exists m2. split; [done|].
      rewrite Hout. apply list_elem_of_further, elem_of_app. right. set_solver.
    + done.
    + intros o. by rewrite Hdom, Hat.
    + intros o Hno. by rewrite Hkeep, Hat.
    + done.
    + intros Hlt. rewrite (Hiff Hlt). split; intros [Hnd Hfresh]; (split; [done|]);
        intros o Hin'; specialize (Hfresh o Hin'); by rewrite Hat in *.
    + done.
    + done.
Qed.

(** ** The theorems at concrete inputs *)

Lemma finished_outcome (r : option (State * list Effect)) :
  finished r = true → r = Some ((outcome r).1, (outcome r).2).
Proof. by destruct r as [[??]|]. Qed.

Lemma playerHit_valid_witness :
  ∃ s' out,
    playerHit halfEnv "a" "r" "a" "b" arena = (s', out) ∧
    score <$> playerAt s' "r" "a" = Some 70 ∧
    score <$> playerAt s' "r" "b" = Some 50 ∧
    (isAlive <$> playerAt s' "r" "b" = Some false) ∧
    (playerAt s' "r" "b" ≫= respawnTime) = Some 3000 ∧
    out = broadcast "a" "r" (playerKilled "a" "b" 70 50 50).
Proof.
  destruct (playerHit_valid halfEnv "a" "r" "a" "b" arena
              {[ "a" := newPlayer "a" "Ann" 1;
                 "b" := with_score 100 (newPlayer "b" "Bob" 2) ]}
              (newPlayer "a" "Ann" 1) (with_score 100 (newPlayer "b" "Bob" 2)))
    as (Hhit & _ & _); [done|by vm_compute..|].
  eexists _, _. split; [exact Hhit|]. by vm_compute.
Defined.

Lemma scores_never_negative_witness :
  finished (run 1 initial_state skirmish) = true ∧
  score <$> playerAt (outcome (run 1 initial_state skirmish)).1 "r" "a" = Some 22 ∧
  score <$> playerAt (outcome (run 1 initial_state skirmish)).1 "r" "b" = Some 3 ∧
  ∀ g roomPlayers p player,
    rooms (outcome (run 1 initial_state skirmish)).1 !! g = Some roomPlayers →
    roomPlayers !! p = Some player → 0 ≤ score player.
Proof.
  assert (Hrun : run 1 initial_state skirmish =
                 Some ((outcome (run 1 initial_state skirmish)).1,
                       (outcome (run 1 initial_state skirmish)).2))
    by (by apply finished_outcome; vm_compute).
  split; [by vm_compute|]. split; [by vm_compute|]. split; [by vm_compute|].
  exact (proj1 (scores_never_negative 1 skirmish _ _ Hrun)).
Defined.

Lemma collect_exactly_once_witness :
  (farmObjectHit "b" "r" "farm-1000-1"
     (outcome (run 1 initial_state [joinAnn; joinBob])).1).2 =
    broadcast "b" "r" (farmObjectDestroyed "farm-1000-1" "b" 5) ∧
  countDestroyed "r" "farm-1000-1" (outcome (run 1 initial_state skirmish)).2 = 1%nat ∧
  (countDestroyed "r" "farm-1000-1"
     (outcome (run 1 (outcome (run 1 initial_state skirmish)).1 aftermath)).2 = 0%nat ∧
   ∀ socket,
     farmObjectHit socket "r" "farm-1000-1"
       (outcome (run 1 (outcome (run 1 initial_state skirmish)).1 aftermath)).1 =
     ((outcome (run 1 (outcome (run 1 initial_state skirmish)).1 aftermath)).1, [])).
Proof.
  destruct (collect_exactly_once 1 "r" "farm-1000-1") as (Hfirst & _ & Hruns).
  split; [|split].
  - destruct (Hfirst (outcome (run 1 initial_state [joinAnn; joinBob])).1 "b"
                {| fo_id := "farm-1000-1";
                   fo_position := samplePosition (countingEnv 1000) 3;
                   fo_type := "crystal"; value := 5 |}
                (newPlayer "b" "Bob" 0x1a75ff)) as (_ & Hout & _);
      [by vm_compute..|].
    exact Hout.
  - by vm_compute.
  - destruct (Hruns (outcome (run 1 initial_state skirmish)).1 aftermath
                (outcome (run 1 (outcome (run 1 initial_state skirmish)).1 aftermath)).1
                (outcome (run 1 (outcome (run 1 initial_state skirmish)).1 aftermath)).2)
      as (_ & _ & Hgone).
    + repeat constructor; intros j; by vm_compute.
    + by apply finished_outcome; vm_compute.
    + destruct Hgone as (Hc & _ & Hnoop); [by vm_compute|].
      split; [exact Hc|]. intros socket. apply Hnoop.
Defined.

Lemma dead_target_cannot_be_hit_witness :
  deadIn (outcome (run 1 initial_state skirmish)).1 "r" "b" ∧
  ∀ env socket shooterId,
    playerHit env socket "r" shooterId "b"
      (outcome (run 1 (outcome (run 1 initial_state skirmish)).1 aftermath)).1 =
    ((outcome (run 1 (outcome (run 1 initial_state skirmish)).1 aftermath)).1, []).
Proof.
  destruct (dead_target_cannot_be_hit 1 "r" "b") as (_ & _ & _ & _ & Hruns & _).
  assert (Hdead : deadIn (outcome (run 1 initial_state skirmish)).1 "r" "b").
  { eexists. split; by vm_compute. }
  split; [exact Hdead|].
  intros env socket shooterId.
  apply (Hruns (outcome (run 1 initial_state skirmish)).1 aftermath
           (outcome (run 1 (outcome (run 1 initial_state skirmish)).1 aftermath)).1
           (outcome (run 1 (outcome (run 1 initial_state skirmish)).1 aftermath)).2).
  - exact Hdead.
  - repeat constructor; intros sock; simpl; discriminate.
  - simpl. constructor.
  - by apply finished_outcome; vm_compute.
Defined.

Lemma self_hit_is_noop_witness :
  playerHit halfEnv "a" "r" "a" "a" arena = (arena, []).
Proof. exact (proj1 (self_hit_is_noop 0 halfEnv "a" "r" "a" arena)). Defined.

Lemma last_leave_keeps_layout_witness :
  rooms (disconnect "b" graveyard).1 !! "r" = None ∧
  ∃ s2 out,
    joinGame 1 cornerEnv "c" "r" (Some "Cy") None (disconnect "b" graveyard).1 =
      Some (s2, out) ∧
    farmCount s2 "r" = 10%nat ∧
    objectAt s2 "r" "gem-1" = objectAt graveyard "r" "gem-1".
Proof.
  destruct (last_leave_keeps_layout "b" "r" graveyard
              {[ "b" := with_isAlive false (with_score 7 (newPlayer "b" "Bob" 2)) ]})
    as (Hgone & _ & _ & Hjoin); [by vm_compute|by vm_compute; eexists|by vm_compute|].
  split; [exact Hgone|].
  destruct (Hjoin 1%nat cornerEnv "c" (Some "Cy") None) as [Hret Hres].
  destruct Hret as [[s2 out] Hj].
  { left. intros k. exists 0%nat. split; [lia|]. vm_compute. reflexivity. }
  exists s2, out. split; [exact Hj|].
  destruct (Hres s2 out Hj) as (_ & _ & _ & _ & _ & _ & Hkeep & _ & Hiff & _).
  assert (Hids : joinIds 1 cornerEnv "r" (Some "Cy") graveyard =
                 ["farm-0-"; "farm-5-"; "farm-10-"; "farm-15-"; "farm-20-";
                  "farm-25-"; "farm-30-"; "farm-35-"; "farm-40-"])
    by (vm_compute; reflexivity).
  split.
  - apply Hiff; [vm_compute; lia|]. rewrite Hids. split.
    + apply (bool_decide_unpack _). vm_compute. exact I.
    + intros o Ho.
      repeat (apply elem_of_cons in Ho as [->|Ho]); [vm_compute; reflexivity..|].
      exact (False_ind _ (proj1 (elem_of_nil o) Ho)).
  - apply Hkeep. rewrite Hids. apply (bool_decide_unpack _). vm_compute. exact I.
Defined.

Lemma obstacle_layout_fixed_witness :
  generateObstacles "r" initial_state =
    (set_obstacles {[ "r" := roomObstacles ]} initial_state, roomObstacles) ∧
  length roomObstacles = 25%nat.
Proof.
  destruct obstacle_layout_fixed as (Hlen & _ & _ & _ & _ & _ & Hfresh & _).
  split; [|exact Hlen]. by apply (Hfresh "r" initial_state).
Defined.

Lemma disconnect_name_undefined_witness :
  (disconnect "a" (outcome (run 1 initial_state [joinAnn; joinBob])).1).2 =
    [Emit (ToRoomExcept "r" "a") (playerLeft "a" None)] ∧
  Emit (ToRoomExcept "r" "a") (playerLeft "a" (Some "Ann")) ∉
    (disconnect "a" (outcome (run 1 initial_state [joinAnn; joinBob])).1).2.
Proof.
  destruct (disconnect_name_undefined "a"
              (outcome (run 1 initial_state [joinAnn; joinBob])).1) as (_ & _ & Hno).
  split; [by vm_compute|]. apply Hno.
Defined.

Lemma collect_ignores_alive_flag_witness :
  ∃ s',
    farmObjectHit "b" "r" "gem-1" graveyard =
      (s', broadcast "b" "r" (farmObjectDestroyed "gem-1" "b" 17)) ∧
    objectAt s' "r" "gem-1" = None ∧
    (isAlive <$> playerAt s' "r" "b") = Some false.
Proof.
  destruct (collect_ignores_alive_flag "b" "r" "gem-1" graveyard
              {[ "gem-1" := {| fo_id := "gem-1"; fo_position := {| x := 500; y := 500 |};
                               fo_type := "gem"; value := 10 |} ]}
              {| fo_id := "gem-1"; fo_position := {| x := 500; y := 500 |};
                 fo_type := "gem"; value := 10 |}
              {[ "b" := with_isAlive false (with_score 7 (newPlayer "b" "Bob" 2)) ]}
              (with_isAlive false (with_score 7 (newPlayer "b" "Bob" 2))))
    as (Hhit & _); [by vm_compute..|].
  eexists. split; [exact Hhit|]. by vm_compute.
Defined.

(** * Further properties of the handlers *)

(** ** Joining *)

(** X1. A join by a socket that is already a member of the room returns
    when the room holds 10 or more collectibles or when a placement loop,
    wherever in the stream of random numbers it starts, accepts one of its
    first [fuel] samples.  Whenever it returns it has
    changed no player record (score, position and name are kept, whatever
    name and colour the request carries), yet the room is told of a new
    player with the requested name, score 0 and the spawn position. *)
Theorem rejoin_keeps_record (fuel : nat) (env : Env) (socket g : string)
    (name : option string) (color : option Z) (s : State) (player : PlayerData) :
  playerAt s g socket = Some player →
  (placementWithin fuel env (default roomObstacles (obstacles s !! g)) ∨
   (10 ≤ farmCount s g)%nat →
   is_Some (joinGame fuel env socket g name color s)) ∧
  (∀ s' out,
     joinGame fuel env socket g name color s = Some (s', out) →
     rooms s' = rooms s ∧
     Emit (ToRoomExcept g socket)
       (playerJoined socket (joinName env name) (default 0x1a75ff color)
          {| x := 400; y := 300 |} {| x := 0; y := 0 |} 0 true) ∈ out).
Proof.
  intros Hp. split; [by apply joinGame_returns|]. intros s' out Hj.
  pose proof (joinGame_spec _ _ _ _ _ _ _ _ _ Hj) as (Hr & _).
  pose proof (joinGame_effects _ _ _ _ _ _ _ _ _ Hj) as (outg & m' & _ & _ & ->).
  split.
  - rewrite Hr. unfold playerAt in Hp.
    destruct (rooms s !! g) as [rp|] eqn:Hg; [|done]. simpl in *.
    unfold joinedPlayers. rewrite Hp. by apply insert_id.
  - apply list_elem_of_further, elem_of_app. right.
    do 3 apply list_elem_of_further. apply list_elem_of_here.
Qed.

Lemma rejoin_keeps_record_witness :
  ∃ s' out,
    joinGame 1 cornerEnv "b" "r" (Some "Robert") None twoRooms = Some (s', out) ∧
    score <$> playerAt s' "r" "b" = Some 9 ∧
    Emit (ToRoomExcept "r" "b")
      (playerJoined "b" "Robert" 0x1a75ff {| x := 400; y := 300 |}
         {| x := 0; y := 0 |} 0 true) ∈ out.
Proof.
  destruct (rejoin_keeps_record 1 cornerEnv "b" "r" (Some "Robert") None twoRooms
              (with_score 9 (newPlayer "b" "Bob" 2))) as [Hret Hres];
    [vm_compute; reflexivity|].
  destruct Hret as [[s' out] Hj].
  { left. intros k. exists 0%nat. split; [lia|]. vm_compute. reflexivity. }
  destruct (Hres s' out Hj) as [Hr He].
  exists s', out. split; [exact Hj|]. split; [|exact He].
  unfold playerAt. rewrite Hr. vm_compute. reflexivity.
Defined.

(** X2. A join adds exactly the joiner: every player that was in any room is
    still there unchanged, the joiner is in the room afterwards (as a new
    player with score 0, alive, at the spawn position, unless it was already
    there), nobody else appears, and no timer is scheduled or dropped. *)
Theorem join_adds_only_joiner (fuel : nat) (env : Env) (socket g : string)
    (name : option string) (color : option Z) (s s' : State) (out : list Effect) :
  joinGame fuel env socket g name color s = Some (s', out) →
  (∀ g' p pl, playerAt s g' p = Some pl → playerAt s' g' p = Some pl) ∧
  (∃ pl, playerAt s' g socket = Some pl ∧
         (playerAt s g socket = None →
          pl = newPlayer socket (joinName env name) (default 0x1a75ff color) ∧
          score pl = 0 ∧ isAlive pl = true ∧ position pl = {| x := 400; y := 300 |})) ∧
  (∀ g' p, playerAt s g' p = None → (g', p) ≠ (g, socket) → playerAt s' g' p = None) ∧
  timers s' = timers s.
Proof.
  intros Hj. repeat split.
  - intros g' p pl Hp. by rewrite (joinGame_playerAt _ _ _ _ _ _ _ _ _ g' p Hj), Hp.
  - rewrite (joinGame_playerAt _ _ _ _ _ _ _ _ _ g socket Hj).
    destruct (playerAt s g socket) as [pl|] eqn:Hp.
    + exists pl. by split.
    + rewrite decide_True by done. eexists. by split.
  - intros g' p Hp Hne. rewrite (joinGame_playerAt _ _ _ _ _ _ _ _ _ g' p Hj), Hp.
    rewrite decide_False; [done|]. intros [-> ->]. done.
  - by apply joinGame_spec in Hj as (_ & _ & -> & _).
Qed.

Lemma join_adds_only_joiner_witness :
  score <$> playerAt (outcome (joinGame 1 tickEnv "d" "r" None None twoRooms)).1 "r" "a" =
    Some 30 ∧
  name <$> playerAt (outcome (joinGame 1 tickEnv "d" "r" None None twoRooms)).1 "r" "d" =
    Some "Player-0" ∧
  playerAt (outcome (joinGame 1 tickEnv "d" "r" None None twoRooms)).1 "q" "d" = None.
Proof.
  assert (Hj : joinGame 1 tickEnv "d" "r" None None twoRooms =
               Some ((outcome (joinGame 1 tickEnv "d" "r" None None twoRooms)).1,
                     (outcome (joinGame 1 tickEnv "d" "r" None None twoRooms)).2))
    by (by apply finished_outcome; vm_compute).
  destruct (join_adds_only_joiner _ _ _ _ _ _ _ _ _ Hj) as (Hkeep & _ & Hnone & _).
  split; [|split].
  - rewrite (Hkeep "r" "a" (with_isAlive false (with_score 30 (newPlayer "a" "Ann" 1))));
      by vm_compute.
  - by vm_compute.
  - apply Hnone; [by vm_compute|congruence].
Defined.

(** X3. The reply to a join is the state the join leaves behind: the player
    list, the obstacle list and the collectible list sent to the joiner are
    those stored for the room after the join (the player list includes the
    joiner), and the socket has joined the room's channel. *)
Theorem join_reply_is_stored_state (fuel : nat) (env : Env) (socket g : string)
    (name : option string) (color : option Z) (s s' : State) (out : list Effect) :
  joinGame fuel env socket g name color s = Some (s', out) →
  ∃ roomPlayers obs m,
    rooms s' !! g = Some roomPlayers ∧ is_Some (roomPlayers !! socket) ∧
    obstacles s' !! g = Some obs ∧
    globalFarmObjects s' !! g = Some m ∧
    JoinChannel socket g ∈ out ∧
    Emit (ToSocket socket) (currentPlayers (values roomPlayers)) ∈ out ∧
    Emit (ToSocket socket) (obstaclesUpdate obs) ∈ out ∧
    Emit (ToSocket socket) (farmObjectsUpdate (values m)) ∈ out.
Proof.
  intros Hj.
  pose proof (joinGame_spec _ _ _ _ _ _ _ _ _ Hj) as (Hr & Ho & _).
  pose proof (joinGame_effects _ _ _ _ _ _ _ _ _ Hj) as (outg & m' & _ & Hm & ->).
  exists (joinedPlayers socket
            (newPlayer socket (joinName env name) (default 0x1a75ff color))
            (default ∅ (rooms s !! g))),
    (default roomObstacles (obstacles s !! g)), m'.
  rewrite Hr, Ho, !lookup_insert_eq.
  split; [reflexivity|]. split.
  { unfold joinedPlayers.
    destruct (default ∅ (rooms s !! g) !! socket) eqn:E; [by rewrite E|].
    by rewrite lookup_insert_eq. }
  split; [reflexivity|]. split; [exact Hm|]. split; [apply list_elem_of_here|].
  repeat split; apply list_elem_of_further, elem_of_app; right.
  - apply list_elem_of_here.
  - apply list_elem_of_further, list_elem_of_here.
  - do 2 apply list_elem_of_further. apply list_elem_of_here.
Qed.

Lemma join_reply_is_stored_state_witness :
  ∃ roomPlayers,
    rooms (outcome (run 1 initial_state [joinAnn])).1 !! "r" = Some roomPlayers ∧
    Emit (ToSocket "a") (currentPlayers (values roomPlayers)) ∈
      (outcome (run 1 initial_state [joinAnn])).2.
Proof.
  assert (Hj : joinGame 1 (countingEnv 1000) "a" "r" (Some "Ann") None initial_state =
               Some ((outcome (run 1 initial_state [joinAnn])).1,
                     (outcome (run 1 initial_state [joinAnn])).2)).
  { transitivity (run 1 initial_state [joinAnn]).
    - unfold run, joinAnn, step, handle.
      destruct (joinGame 1 (countingEnv 1000) "a" "r" (Some "Ann") None initial_state)
        as [[s1 out1]|]; [|done]. by rewrite app_nil_r.
    - by apply finished_outcome; vm_compute. }
  destruct (join_reply_is_stored_state _ _ _ _ _ _ _ _ _ Hj)
    as (rp & obs & m & Hr & _ & _ & _ & _ & Hcp & _).
  exists rp. split; [exact Hr|exact Hcp].
Defined.

(** ** Moving *)

(** X4. A move report is relayed to the room's channel whether or not the
    room exists or the sender is a member of it; the state changes only for
    a member: its position is overwritten, its velocity only when one is
    supplied, and its score, alive flag, name and respawn deadline are kept
    (a dead player can move).  Everybody else, the collectibles, the
    obstacles and the timers are untouched. *)
Theorem move_overwrites_position_only (socket g : string) (pos : Position)
    (vel : option Position) (s : State) :
  (playerMove socket g pos vel s).2 =
    [Emit (ToRoomExcept g socket) (playerMoved socket pos vel)] ∧
  (playerAt s g socket = None → (playerMove socket g pos vel s).1 = s) ∧
  (∀ pl, playerAt s g socket = Some pl →
     ∃ pl', playerAt (playerMove socket g pos vel s).1 g socket = Some pl' ∧
            position pl' = pos ∧ velocity pl' = default (velocity pl) vel ∧
            score pl' = score pl ∧ isAlive pl' = isAlive pl ∧ name pl' = name pl ∧
            respawnTime pl' = respawnTime pl) ∧
  (∀ g' p, (g', p) ≠ (g, socket) →
     playerAt (playerMove socket g pos vel s).1 g' p = playerAt s g' p) ∧
  globalFarmObjects (playerMove socket g pos vel s).1 = globalFarmObjects s ∧
  obstacles (playerMove socket g pos vel s).1 = obstacles s ∧
  timers (playerMove socket g pos vel s).1 = timers s.
Proof.
  split; [done|]. split; [|split; [|split]].
  - unfold playerAt, playerMove. simpl.
    destruct (rooms s !! g) as [rp|]; simpl; [|done]. by intros ->.
  - intros pl Hp. rewrite playerMove_playerAt, decide_True, Hp by done. simpl.
    eexists. split; [done|]. by destruct vel.
  - intros g' p Hne. rewrite playerMove_playerAt, decide_False; [done|].
    intros [-> ->]. done.
  - pose proof (playerMove_spec socket g pos vel s) as (H1 & H2 & H3 & _). done.
Qed.

Lemma move_overwrites_position_only_witness :
  (playerMove "z" "nowhere" {| x := 1; y := 2 |} None twoRooms).1 = twoRooms ∧
  (isAlive <$> playerAt (playerMove "a" "r" {| x := 1; y := 2 |} None twoRooms).1 "r" "a")
    = Some false ∧
  (position <$> playerAt (playerMove "a" "r" {| x := 1; y := 2 |} None twoRooms).1 "r" "a")
    = Some {| x := 1; y := 2 |} ∧
  (position <$> playerAt (playerMove "a" "r" {| x := 1; y := 2 |} None twoRooms).1 "q" "a")
    = Some {| x := 400; y := 300 |}.
Proof.
  destruct (move_overwrites_position_only "z" "nowhere" {| x := 1; y := 2 |} None twoRooms)
    as (_ & Hnone & _).
  destruct (move_overwrites_position_only "a" "r" {| x := 1; y := 2 |} None twoRooms)
    as (_ & _ & Hsome & Hother & _).
  split; [by apply Hnone|].
  destruct (Hsome (with_isAlive false (with_score 30 (newPlayer "a" "Ann" 1))))
    as (pl' & Hpl' & Hpos & _ & _ & Halive & _); [by vm_compute|].
  rewrite Hpl'. simpl. rewrite Hpos, Halive. split; [done|]. split; [done|].
  rewrite Hother by congruence. by vm_compute.
Defined.

(** ** Combat and respawn *)

Lemma samplePosition_inBounds (env : Env) (k : nat) : inBounds (samplePosition env k).
Proof.
  unfold inBounds, samplePosition. simpl.
  pose proof (draw_lt_den (random env k)).
  pose proof (draw_lt_den (random env (S k))).
  unfold draw_val, Qle, Qlt. simpl. rewrite !Pos.mul_1_r. lia.
Qed.

(** X5. An accepted hit moves points, it does not create any beyond the
    kill bonus: with a target score of zero or more, shooter and target
    together hold exactly 20 points more than before, the target keeps its
    score minus half of it rounded down (a score of 1 stays 1 and the shooter
    gains the bonus only), and no other player of any room is changed. *)
Theorem hit_conserves_points (env : Env) (socket g shooterId targetId : string)
    (s : State) (shooter target : PlayerData) :
  shooterId ≠ targetId →
  playerAt s g shooterId = Some shooter →
  playerAt s g targetId = Some target →
  isAlive target = true →
  0 ≤ score target →
  ∃ shooter' target',
    playerAt (playerHit env socket g shooterId targetId s).1 g shooterId = Some shooter' ∧
    playerAt (playerHit env socket g shooterId targetId s).1 g targetId = Some target' ∧
    score shooter' + score target' = score shooter + score target + 20 ∧
    score target' = score target - score target / 2 ∧
    (score target = 1 → score target' = 1 ∧ score shooter' = score shooter + 20) ∧
    (∀ g' p, (g', p) ≠ (g, shooterId) → (g', p) ≠ (g, targetId) →
       playerAt (playerHit env socket g shooterId targetId s).1 g' p = playerAt s g' p).
Proof.
  intros Hne Hsh Htg Halive Hpos.
  assert (Hv : validHit s g shooterId targetId = Some (shooter, target)).
  { unfold validHit. by rewrite decide_False, Hsh, Htg, Halive. }
  exists (afterKill (pointsToSteal target) shooter), (killed (clock env 0) target).
  pose proof (pointsToSteal_nonneg target Hpos) as Hst.
  pose proof (pointsToSteal_half target) as Hhalf.
  split; [|split; [|split; [|split; [|split]]]].
  - rewrite playerHit_playerAt, Hv.
    rewrite decide_False by (intros [_ ?]; done). by rewrite decide_True.
  - rewrite playerHit_playerAt, Hv. by rewrite decide_True.
  - simpl. lia.
  - simpl. lia.
  - intros H1. simpl. rewrite Hhalf, H1. split; reflexivity.
  - intros g' p H1 H2. rewrite playerHit_playerAt, Hv.
    rewrite !decide_False; [done|intros [-> ->]; done..].
Qed.

Lemma hit_conserves_points_witness :
  score <$> playerAt (playerHit halfEnv "c" "r" "a" "b" twoRooms).1 "r" "a" = Some 54 ∧
  score <$> playerAt (playerHit halfEnv "c" "r" "a" "b" twoRooms).1 "r" "b" = Some 5 ∧
  score <$> playerAt (playerHit halfEnv "c" "r" "a" "b" twoRooms).1 "q" "a" = Some 4.
Proof.
  destruct (hit_conserves_points halfEnv "c" "r" "a" "b" twoRooms
              (with_isAlive false (with_score 30 (newPlayer "a" "Ann" 1)))
              (with_score 9 (newPlayer "b" "Bob" 2)))
    as (a' & b' & Ha & Hb & _ & _ & _ & Hother); [done|by vm_compute..|].
  split; [by vm_compute|]. split; [by vm_compute|].
  rewrite Hother by congruence. by vm_compute.
Defined.

(** X6. A hit report is judged on the target alone: the shooter's alive flag
    is not read, so a dead shooter kills and is credited like a live one, and
    the players after the hit do not depend on which socket sent the report
    (only the echo and the socket the timer answers to do). *)
Theorem hit_ignores_shooter_flag_and_reporter (env : Env) (g shooterId targetId : string)
    (s : State) :
  (∀ socket1 socket2,
     rooms (playerHit env socket1 g shooterId targetId s).1 =
     rooms (playerHit env socket2 g shooterId targetId s).1) ∧
  (∀ socket shooter target,
     shooterId ≠ targetId →
     playerAt s g shooterId = Some shooter → isAlive shooter = false →
     playerAt s g targetId = Some target → isAlive target = true →
     (isAlive <$> playerAt (playerHit env socket g shooterId targetId s).1 g targetId)
       = Some false ∧
     playerAt (playerHit env socket g shooterId targetId s).1 g shooterId =
       Some (with_score (score shooter + (20 + pointsToSteal target)) shooter) ∧
     timers (playerHit env socket g shooterId targetId s).1 =
       timers s ++ [RespawnTimer socket g targetId]).
Proof.
  split.
  - intros socket1 socket2. rewrite !playerHit_validHit.
    by destruct (validHit s g shooterId targetId) as [[a b]|].
  - intros socket shooter target Hne Hsh _ Htg Halive.
    assert (Hv : validHit s g shooterId targetId = Some (shooter, target)).
    { unfold validHit. by rewrite decide_False, Hsh, Htg, Halive. }
    split; [|split].
    + rewrite playerHit_playerAt, Hv. by rewrite decide_True.
    + rewrite playerHit_playerAt, Hv.
      rewrite decide_False by (intros [_ ?]; done). by rewrite decide_True.
    + by rewrite playerHit_validHit, Hv.
Qed.

Lemma hit_ignores_shooter_flag_and_reporter_witness :
  (isAlive <$> playerAt (playerHit halfEnv "zed" "r" "a" "b" twoRooms).1 "r" "b")
    = Some false ∧
  (isAlive <$> playerAt (playerHit halfEnv "zed" "r" "a" "b" twoRooms).1 "r" "a")
    = Some false ∧
  timers (playerHit halfEnv "zed" "r" "a" "b" twoRooms).1 = [RespawnTimer "zed" "r" "b"].
Proof.
  destruct (hit_ignores_shooter_flag_and_reporter halfEnv "r" "a" "b" twoRooms) as [_ H].
  destruct (H "zed" (with_isAlive false (with_score 30 (newPlayer "a" "Ann" 1)))
              (with_score 9 (newPlayer "b" "Bob" 2)))
    as (Hb & Ha & Ht); [done|by vm_compute..|].
  split; [exact Hb|]. split; [by rewrite Ha|exact Ht].
Defined.

(** X7. When its player is still in the room, the respawn callback sets the
    player alive at a position inside the sampling rectangle
    [100, 1900) x [100, 1400) with zero velocity, keeps score, name and colour,
    leaves the old respawn deadline in the record, and sends the new position
    to the room and to the socket that reported the kill.  It does so also
    for a player that is already alive, and changes nobody else. *)
Theorem respawn_revives_in_bounds (env : Env) (socket g targetId : string)
    (s : State) (player : PlayerData) :
  playerAt s g targetId = Some player →
  ∃ player',
    playerAt (respawnPlayer env socket g targetId s).1 g targetId = Some player' ∧
    isAlive player' = true ∧
    inBounds (position player') ∧
    velocity player' = {| x := 0; y := 0 |} ∧
    score player' = score player ∧ name player' = name player ∧
    color player' = color player ∧
    respawnTime player' = respawnTime player ∧
    (respawnPlayer env socket g targetId s).2 =
      [Emit (ToRoomExcept g socket) (playerRespawned targetId (position player'));
       Emit (ToSocket socket) (playerRespawned targetId (position player'))] ∧
    (∀ g' p, (g', p) ≠ (g, targetId) →
       playerAt (respawnPlayer env socket g targetId s).1 g' p = playerAt s g' p).
Proof.
  intros Hp. exists (revived (samplePosition env 0) player).
  split; [by rewrite respawnPlayer_playerAt, decide_True, Hp|].
  split; [done|]. split; [apply samplePosition_inBounds|].
  do 5 (split; [done|]). split.
  - unfold respawnPlayer, playerAt in *.
    destruct (rooms s !! g) as [rp|]; simpl in *; [|done]. by rewrite Hp.
  - intros g' p Hne. rewrite respawnPlayer_playerAt, decide_False; [done|].
    intros [-> ->]. done.
Qed.

Lemma respawn_revives_in_bounds_witness :
  (isAlive <$> playerAt (respawnPlayer tickEnv "b" "r" "a" twoRooms).1 "r" "a") = Some true ∧
  (score <$> playerAt (respawnPlayer tickEnv "b" "r" "a" twoRooms).1 "r" "a") = Some 30 ∧
  (position <$> playerAt (respawnPlayer tickEnv "b" "r" "a" twoRooms).1 "r" "a")
    = Some (samplePosition tickEnv 0).
Proof.
  destruct (respawn_revives_in_bounds tickEnv "b" "r" "a" twoRooms
              (with_isAlive false (with_score 30 (newPlayer "a" "Ann" 1))))
    as (pl' & Hpl & Halive & _ & _ & Hscore & _); [by vm_compute|].
  split; [rewrite Hpl; simpl; by rewrite Halive|].
  split; [rewrite Hpl; simpl; by rewrite Hscore|]. by vm_compute.
Defined.

(** ** Repopulation *)

Lemma placeLoop_sample (fuel : nat) (env : Env) (k : nat) (obs : list Obstacle)
    (p : Position) (k' : nat) :
  placeLoop fuel env k obs = Some (p, k') →
  (∃ j, p = samplePosition env j) ∧ (k < k')%nat.
Proof.
  revert k. induction fuel as [|fuel IH]; intros k; simpl; [done|].
  destruct (validPosition (samplePosition env k) obs).
  - intros [= <- <-]. split; [by eexists|lia].
  - intros [H1 H2]%IH. split; [done|lia].
Qed.

Lemma fromTable_elem (tv : TypeAndValue) (fo : FarmObject) :
  tv ∈ typesAndValues → fo_type fo = tv_type tv → value fo = tv_value tv → fromTable fo.
Proof.
  unfold typesAndValues, fromTable. intros H -> ->.
  repeat (apply elem_of_cons in H as [->|H]); [tauto..|by apply elem_of_nil in H].
Qed.

Lemma createFarmObjects_placed (fuel : nat) (env : Env) (obs : list Obstacle)
    (n k : nat) (m m' : gmap string FarmObject) (k' : nat) :
  createFarmObjects fuel env n k obs m = Some (m', k') →
  (∀ o fo, m' !! o = Some fo → m !! o = Some fo ∨ inBounds (fo_position fo)) ∧
  (size m' ≤ size m + n)%nat ∧ (k ≤ k')%nat.
Proof.
  revert k m. induction n as [|n IH]; intros k m; simpl.
  { intros [= <- <-]. split; [by left|lia]. }
  destruct (placeLoop fuel env (k + 3) obs) as [[p k1]|] eqn:Hp; [|done].
  apply placeLoop_sample in Hp as [[j ->] Hk].
  intros (Hin & Hsize & Hk')%IH. split; [|split; [|lia]].
  - intros o fo [H|H]%Hin; [|by right].
    destruct (decide (farmId env k = o)) as [<-|Hne].
    + rewrite lookup_insert_eq in H. injection H as <-. right. simpl.
      apply samplePosition_inBounds.
    + rewrite lookup_insert_ne in H by done. by left.
  - destruct (m !! farmId env k) eqn:E.
    + rewrite map_size_insert_Some in Hsize by (by eexists). lia.
    + rewrite map_size_insert_None in Hsize by done. lia.
Qed.

Lemma generateFarmObjects_placed (fuel : nat) (env : Env) (socket g : string)
    (count k : nat) (s s' : State) (out : list Effect) (k' : nat) :
  generateFarmObjects fuel env socket g count k s = Some (s', out, k') →
  (∀ o fo, objectAt s' g o = Some fo →
     objectAt s g o = Some fo ∨
     (fo_id fo = o ∧ inBounds (fo_position fo) ∧ fromTable fo ∧
      validPosition (fo_position fo) (default [] (obstacles s !! g)) = true)) ∧
  (∀ o, is_Some (objectAt s g o) → is_Some (objectAt s' g o)) ∧
  (∃ m', globalFarmObjects s' !! g = Some m' ∧
         (size m' ≤ size (default ∅ (globalFarmObjects s !! g)) `max` count)%nat) ∧
  (∀ g', g' ≠ g → globalFarmObjects s' !! g' = globalFarmObjects s !! g') ∧
  rooms s' = rooms s ∧ obstacles s' = obstacles s ∧ timers s' = timers s.
Proof.
  intros Hg.
  pose proof (generateFarmObjects_spec _ _ _ _ _ _ _ _ _ _ Hg)
    as (Hr & Ho & Ht & (m1 & Hf & Hin & Hdom & _) & _).
  pose proof (generateFarmObjects_cases _ _ _ _ _ _ _ _ _ _ Hg) as Hcases. simpl in Hcases.
  assert (Hm1 : globalFarmObjects s' !! g = Some m1) by (by rewrite Hf, lookup_insert_eq).
  assert (Hold : ∀ o, default ∅ (globalFarmObjects s !! g) !! o = objectAt s g o).
  { intros o. unfold objectAt. by destruct (globalFarmObjects s !! g). }
  assert (Hplaced : ∀ o fo, m1 !! o = Some fo →
            default ∅ (globalFarmObjects s !! g) !! o = Some fo ∨
            inBounds (fo_position fo)).
  { destruct Hcases as [(_ & _ & _ & Hf')|(_ & m' & Hc & Hf' & _)];
      rewrite Hf' in Hm1; rewrite lookup_insert_eq in Hm1; injection Hm1 as <-.
    - by left.
    - by apply createFarmObjects_placed in Hc as (H & _). }
  split; [|split; [|split; [|split]]].
  - intros o fo. unfold objectAt at 1. rewrite Hm1. simpl. intros Hfo.
    destruct (Hin o fo Hfo) as [H|(_ & Hid & (tv & Htv & Hty & Hval) & Hvalid)];
      [left; by rewrite <-Hold|].
    destruct (Hplaced o fo Hfo) as [H|Hb]; [left; by rewrite <-Hold|].
    right. split; [done|]. split; [done|]. split; [by eapply fromTable_elem|done].
  - intros o. unfold objectAt at 2. rewrite Hm1. simpl. rewrite <-Hold. apply Hdom.
  - exists m1. split; [done|].
    destruct Hcases as [(Hle & _ & _ & Hf')|(Hlt & m' & Hc & Hf' & _)];
      rewrite Hf' in Hm1; rewrite lookup_insert_eq in Hm1; injection Hm1 as <-.
    + lia.
    + apply createFarmObjects_placed in Hc as (_ & Hsz & _). lia.
  - intros g' Hne. by rewrite Hf, lookup_insert_ne.
  - done.
Qed.

(** X8. What a repopulation run adds is well placed: every collectible of
    the room after the run either was there before, unchanged, or is new and
    then lies inside the sampling rectangle [100, 1900) x [100, 1400), farther
    than 120 from every obstacle of the room, with a type and value from the
    table and its key as identifier.  No identifier is lost, the room holds
    at most [count] collectibles afterwards unless it held more before, and
    players, obstacles, timers and the other rooms' collectibles are
    untouched. *)
Theorem repopulation_is_well_placed (fuel : nat) (env : Env) (socket g : string)
    (count k : nat) (s s' : State) (out : list Effect) (k' : nat) :
  generateFarmObjects fuel env socket g count k s = Some (s', out, k') →
  (∀ o fo, objectAt s' g o = Some fo →
     objectAt s g o = Some fo ∨
     (fo_id fo = o ∧ inBounds (fo_position fo) ∧ fromTable fo ∧
      ∀ ob, ob ∈ default [] (obstacles s !! g) →
        (120 * 120 <
           (x (fo_position fo) - inject_Z (ob_x ob)) * (x (fo_position fo) - inject_Z (ob_x ob)) +
           (y (fo_position fo) - inject_Z (ob_y ob)) * (y (fo_position fo) - inject_Z (ob_y ob)))%Q)) ∧
  (∀ o, is_Some (objectAt s g o) → is_Some (objectAt s' g o)) ∧
  (∃ m', globalFarmObjects s' !! g = Some m' ∧
         (size m' ≤ size (default ∅ (globalFarmObjects s !! g)) `max` count)%nat) ∧
  (∀ g', g' ≠ g → globalFarmObjects s' !! g' = globalFarmObjects s !! g') ∧
  rooms s' = rooms s ∧ obstacles s' = obstacles s ∧ timers s' = timers s.
Proof.
  intros Hg.
  destruct (generateFarmObjects_placed _ _ _ _ _ _ _ _ _ _ Hg) as (Hin & Hrest).
  split; [|exact Hrest].
  intros o fo [H|(Hid & Hb & Ht & Hvalid)]%Hin; [by left|right].
  split; [done|]. split; [done|]. split; [done|].
  intros ob Hob. apply farEnough_spec. unfold validPosition in Hvalid.
  rewrite forallb_forall in Hvalid. apply Hvalid. by apply list_elem_of_In.
Qed.

Lemma repopulation_is_well_placed_witness :
  ∃ s' out k',
    generateFarmObjects 1 tickEnv "b" "r" 10 0 twoRooms = Some (s', out, k') ∧
    ∃ m', globalFarmObjects s' !! "r" = Some m' ∧ (size m' ≤ 10)%nat.
Proof.
  destruct (generateFarmObjects 1 tickEnv "b" "r" 10 0 twoRooms)
    as [[[s' out] k']|] eqn:Hg; [|exfalso; vm_compute in Hg; discriminate].
  destruct (repopulation_is_well_placed 1 tickEnv "b" "r" 10 0 twoRooms s' out k' Hg)
    as (_ & _ & (m' & Hm' & Hsize) & _).
  exists s', out, k'. split; [reflexivity|]. exists m'. split; [exact Hm'|].
  etrans; [exact Hsize|]. vm_compute. lia.
Defined.
Lemma generateFarmObjects_same_id (fuel : nat) (env : Env) (socket g : string)
    (count k : nat) (s s' : State) (out : list Effect) (k' : nat) (i0 : string) :
  generateFarmObjects fuel env socket g count k s = Some (s', out, k') →
  (farmCount s g < count)%nat → farmCount s g = 0%nat →
  (∀ o, o ∈ runIds fuel env g count k s → o = i0) →
  farmCount s' g = 1%nat.
Proof.
  intros Hg Hlt Hempty Hsame. unfold runIds, farmCount in *.
  destruct (generateFarmObjects_ids _ _ _ _ _ _ _ _ _ _ Hg)
    as (m' & Hf & Hlen & _ & Hdom & _).
  rewrite Hf, lookup_insert_eq. simpl.
  set (ids := createdIds _ _ _ _ _) in *.
  assert (Hnone : default ∅ (globalFarmObjects s !! g) = ∅)
    by (by apply map_size_empty_inv).
  rewrite Hnone in Hdom.
  assert (Hin : i0 ∈ ids).
  { destruct ids as [|o ids']; [simpl in Hlen; lia|].
    rewrite <-(Hsame o) by apply list_elem_of_here. apply list_elem_of_here. }
  assert (Hd : dom m' = {[ i0 ]}).
  { apply set_eq. intros o. rewrite elem_of_dom, Hdom, lookup_empty, elem_of_singleton.
    split.
    - intros [[? [=]]|Ho]. by apply Hsame.
    - intros ->. by right. }
  rewrite <-size_dom, Hd. apply size_singleton.
Qed.

(** X9. A repopulation run on a room with fewer than [count] collectibles
    returns when a placement loop, wherever in the stream of random numbers
    it starts, accepts one of its first [fuel] samples.
    When it returns it has built exactly [count] minus the room's size
    identifiers; the room then holds its old identifiers and the built ones,
    under each built identifier a collectible made by this run, and never
    more than [count]; it holds exactly [count] if and only if the built
    identifiers are pairwise different and none was in the room already.
    The code does not check that: when all built identifiers
    coincide (same millisecond, same random suffix) each new collectible
    overwrites the previous one and an empty room ends up with a single
    collectible. *)
Theorem repopulation_fills_to_count (fuel : nat) (env : Env) (socket g : string)
    (count k : nat) (s : State) :
  (farmCount s g < count)%nat →
  (placementWithin fuel env (default [] (obstacles s !! g)) →
   is_Some (generateFarmObjects fuel env socket g count k s)) ∧
  (∀ s' out k',
     generateFarmObjects fuel env socket g count k s = Some (s', out, k') →
     length (runIds fuel env g count k s) = (count - farmCount s g)%nat ∧
     (∀ o, is_Some (objectAt s' g o) ↔
           is_Some (objectAt s g o) ∨ o ∈ runIds fuel env g count k s) ∧
     (∀ o, o ∈ runIds fuel env g count k s →
           ∃ fo, objectAt s' g o = Some fo ∧
                 generated env (default [] (obstacles s !! g)) o fo) ∧
     (farmCount s' g ≤ count)%nat ∧
     (farmCount s' g = count ↔
      NoDup (runIds fuel env g count k s) ∧
      ∀ o, o ∈ runIds fuel env g count k s → objectAt s g o = None) ∧
     (∀ i0, farmCount s g = 0%nat →
            (∀ o, o ∈ runIds fuel env g count k s → o = i0) →
            farmCount s' g = 1%nat)).
Proof.
  intros Hlt. split.
  - intros H. apply generateFarmObjects_returns. by left.
  - intros s' out k' Hg.
    destruct (generateFarmObjects_built _ _ _ _ _ _ _ _ _ _ Hg)
      as (Hlen & _ & Hdom & Hsz & Hiff & _).
    split; [done|]. split; [done|].
    split; [by eapply generateFarmObjects_made|].
    split; [lia|]. split; [by apply Hiff|].
    intros i0 Hempty Hsame. by eapply generateFarmObjects_same_id.
Qed.

Lemma repopulation_fills_to_count_witness :
  (∃ s' out k',
     generateFarmObjects 1 cornerEnv "a" "r" 10 0 initial_state = Some (s', out, k') ∧
     farmCount s' "r" = 10%nat) ∧
  (∃ s' out k',
     generateFarmObjects 1 frozenEnv "a" "r" 10 0 initial_state = Some (s', out, k') ∧
     farmCount s' "r" = 1%nat).
Proof.
  split.
  - destruct (repopulation_fills_to_count 1 cornerEnv "a" "r" 10 0 initial_state)
      as [Hret Hres]; [vm_compute; lia|].
    destruct Hret as [[[s' out] k'] Hg].
    { intros k. exists 0%nat. split; [lia|]. vm_compute. reflexivity. }
    exists s', out, k'. split; [exact Hg|].
    destruct (Hres s' out k' Hg) as (_ & _ & _ & _ & Hiff & _).
    assert (Hids : runIds 1 cornerEnv "r" 10 0 initial_state =
                   ["farm-0-"; "farm-5-"; "farm-10-"; "farm-15-"; "farm-20-";
                    "farm-25-"; "farm-30-"; "farm-35-"; "farm-40-"; "farm-45-"])
      by (vm_compute; reflexivity).
    apply Hiff. rewrite Hids. split.
    + apply (bool_decide_unpack _). vm_compute. exact I.
    + intros o _. reflexivity.
  - destruct (repopulation_fills_to_count 1 frozenEnv "a" "r" 10 0 initial_state)
      as [Hret Hres]; [vm_compute; lia|].
    destruct Hret as [[[s' out] k'] Hg].
    { intros k. exists 0%nat. split; [lia|]. vm_compute. reflexivity. }
    exists s', out, k'. split; [exact Hg|].
    destruct (Hres s' out k' Hg) as (_ & _ & _ & _ & _ & Hone).
    apply (Hone "farm-7-"); [vm_compute; reflexivity|].
    assert (Hids : runIds 1 frozenEnv "r" 10 0 initial_state = replicate 10 "farm-7-")
      by (vm_compute; reflexivity).
    rewrite Hids. intros o Ho. by apply elem_of_replicate in Ho as [-> _].
Defined.

(** X10. A repopulation run on a room that already holds [count] or more
    collectibles returns at once, tells nobody, reads no random number and
    leaves the collectibles as they are.  On a room that holds fewer it
    returns when a placement loop, wherever in the stream of random numbers
    it starts, accepts one of its first [fuel] samples;
    when it returns, it has announced the room's whole collectible list, to
    the room and to the socket whose handler started it, if the room is in
    the player registry, and has told nobody if the room has been removed
    from it.  What it creates does not depend on the registry: run with any
    other registry it leaves the same collectibles and reads the same random
    numbers; and every identifier it builds is in the room afterwards. *)
Theorem repopulation_announcement (fuel : nat) (env : Env) (socket g : string)
    (count k : nat) (s : State) :
  ((count ≤ farmCount s g)%nat →
   ∃ s', generateFarmObjects fuel env socket g count k s = Some (s', [], k) ∧
         globalFarmObjects s' !! g = Some (default ∅ (globalFarmObjects s !! g))) ∧
  ((farmCount s g < count)%nat →
   (placementWithin fuel env (default [] (obstacles s !! g)) →
    is_Some (generateFarmObjects fuel env socket g count k s)) ∧
   ∀ s' out k',
     generateFarmObjects fuel env socket g count k s = Some (s', out, k') →
     ∃ m', globalFarmObjects s' !! g = Some m' ∧
       (is_Some (rooms s !! g) →
        out = [Emit (ToRoomExcept g socket) (farmObjectsUpdate (values m'));
               Emit (ToSocket socket) (farmObjectsUpdate (values m'))]) ∧
       (rooms s !! g = None → out = []) ∧
       (∀ r, ∃ out',
          generateFarmObjects fuel env socket g count k (set_rooms r s) =
            Some (set_rooms r s', out', k')) ∧
       (∀ o, o ∈ runIds fuel env g count k s → is_Some (m' !! o))).
Proof.
  split.
  - intros Hle. unfold farmCount in Hle. rewrite generateFarmObjects_eq.
    rewrite decide_False by lia. eexists. split; [done|].
    simpl. by rewrite lookup_insert_eq.
  - intros Hlt. split.
    + intros H. apply generateFarmObjects_returns. by left.
    + intros s' out k' Hg.
      pose proof (generateFarmObjects_built _ _ _ _ _ _ _ _ _ _ Hg)
        as (_ & _ & Hdom & _).
      destruct (generateFarmObjects_cases _ _ _ _ _ _ _ _ _ _ Hg)
        as [(Hle & _)|(_ & m' & Hc & Hf & ->)]; simpl in *;
        [unfold farmCount in Hlt; lia|].
      assert (Hm' : globalFarmObjects s' !! g = Some m') by (by rewrite Hf, lookup_insert_eq).
      exists m'. split; [done|].
      split; [by intros [rp ->]|]. split; [by intros ->|]. split.
      * intros r. by eapply generateFarmObjects_any_registry.
      * intros o Ho. specialize (Hdom o). unfold objectAt in Hdom at 1.
        rewrite Hm' in Hdom. simpl in Hdom. apply Hdom. by right.
Qed.

Lemma repopulation_announcement_witness :
  (∃ s' out k',
     generateFarmObjects 1 cornerEnv "b" "r" 10 0 twoRooms = Some (s', out, k') ∧
     length out = 2%nat) ∧
  (∃ s' k',
     generateFarmObjects 1 cornerEnv "b" "r" 10 0 (set_rooms ∅ twoRooms) =
       Some (s', [], k')).
Proof.
  assert (Hwithin : placementWithin 1 cornerEnv roomObstacles).
  { intros k. exists 0%nat. split; [lia|]. vm_compute. reflexivity. }
  split.
  - destruct (repopulation_announcement 1 cornerEnv "b" "r" 10 0 twoRooms) as [_ H].
    destruct H as [Hret Hres]; [vm_compute; lia|].
    destruct (Hret Hwithin) as [[[s' out] k'] Hg].
    exists s', out, k'. split; [exact Hg|].
    destruct (Hres s' out k' Hg) as (m' & _ & Hout & _).
    rewrite Hout; [reflexivity|]. vm_compute. by eexists.
  - destruct (repopulation_announcement 1 cornerEnv "b" "r" 10 0 (set_rooms ∅ twoRooms))
      as [_ H].
    destruct H as [Hret Hres]; [vm_compute; lia|].
    destruct (Hret Hwithin) as [[[s' out] k'] Hg].
    destruct (Hres s' out k' Hg) as (m' & _ & _ & Hnone & _).
    exists s', k'. rewrite <-(Hnone eq_refl). exact Hg.
Defined.

(** ** Leaving *)

Lemma disconnect_fold_nodup (socket : string) (M m : gmap string (gmap string PlayerData)) :
  NoDup (map_fold (disconnectRoom socket) (M, []) m).2.
Proof.
  apply (map_fold_weak_ind
           (λ r m, NoDup r.2 ∧
              ∀ e, e ∈ r.2 → ∃ roomId, is_Some (m !! roomId) ∧
                     e = Emit (ToRoomExcept roomId socket) (playerLeft socket None))).
  { split; [constructor|]. by intros e ?%elem_of_nil. }
  intros i rp m' r Hi [Hnd Hin]. unfold disconnectRoom.
  case_decide as Hmem; simpl.
  - split.
    + apply NoDup_app. split; [done|]. split; [|apply NoDup_singleton].
      intros e (g & [x Hg] & ->)%Hin [=]%list_elem_of_singleton. subst. congruence.
    + intros e [(g & [x Hg] & ->)%Hin|H]%elem_of_app.
      * exists g. split; [|done]. rewrite lookup_insert_ne; [by eexists|]. congruence.
      * apply list_elem_of_singleton in H as ->. rewrite lookup_delete_eq. simpl.
        exists i. by rewrite lookup_insert_eq.
  - split; [done|]. intros e (g & [x Hg] & ->)%Hin.
    exists g. split; [|done]. rewrite lookup_insert_ne; [by eexists|]. congruence.
Qed.

Lemma disconnect_not_member (socket : string) (s : State) :
  (∀ g, playerAt s g socket = None) → disconnect socket s = (s, []).
Proof.
  intros Hno. unfold disconnect.
  assert (Hout : (map_fold (disconnectRoom socket) (rooms s, []) (rooms s)).2 = []).
  { destruct (map_fold _ _ _).2 as [|e l] eqn:E; [done|].
    assert (He : e ∈ (map_fold (disconnectRoom socket) (rooms s, []) (rooms s)).2)
      by (rewrite E; apply list_elem_of_here).
    apply disconnect_fold_out in He as (g & rp & Hg & [pl Hpl] & _).
    specialize (Hno g). unfold playerAt in Hno. rewrite Hg in Hno. simpl in Hno. congruence. }
  assert (Hrooms : (map_fold (disconnectRoom socket) (rooms s, []) (rooms s)).1 = rooms s).
  { apply map_eq. intros g. rewrite disconnect_fold_lookup by done.
    destruct (rooms s !! g) as [rp|] eqn:Hg; [|done].
    unfold afterLeave. rewrite decide_False; [done|].
    specialize (Hno g). unfold playerAt in Hno. rewrite Hg in Hno. simpl in Hno.
    rewrite Hno. by intros [? ?]. }
  by rewrite Hout, Hrooms, set_rooms_same.
Qed.

(** X11. A disconnect removes the socket's player from every room it is in
    and changes no other player; a room that held only that player is
    removed, any other room stays with the remaining players; each room the
    player was in gets one departure notification and no other room gets
    any; collectibles, obstacles and pending timers (also those of the
    leaver) are kept.  A second disconnect of the same socket changes nothing
    and emits nothing. *)
Theorem disconnect_leaves_every_room (socket : string) (s : State) :
  (∀ g p, playerAt (disconnect socket s).1 g p =
          if decide (p = socket) then None else playerAt s g p) ∧
  (∀ g roomPlayers, rooms s !! g = Some roomPlayers →
     rooms (disconnect socket s).1 !! g =
       if decide (is_Some (roomPlayers !! socket))
       then (if decide (delete socket roomPlayers = ∅) then None
             else Some (delete socket roomPlayers))
       else Some roomPlayers) ∧
  (∀ g, rooms s !! g = None → rooms (disconnect socket s).1 !! g = None) ∧
  NoDup (disconnect socket s).2 ∧
  (∀ e, e ∈ (disconnect socket s).2 ↔
        ∃ g, is_Some (playerAt s g socket) ∧
             e = Emit (ToRoomExcept g socket) (playerLeft socket None)) ∧
  globalFarmObjects (disconnect socket s).1 = globalFarmObjects s ∧
  obstacles (disconnect socket s).1 = obstacles s ∧
  timers (disconnect socket s).1 = timers s ∧
  disconnect socket (disconnect socket s).1 = ((disconnect socket s).1, []).
Proof.
  split; [apply disconnect_playerAt|]. split.
  { intros g rp Hg. rewrite disconnect_rooms, Hg. simpl. unfold afterLeave.
    case_decide; [|done]. repeat case_decide; try done.
    - exfalso. by apply map_size_empty_iff in H0.
    - exfalso. apply H0. by apply map_size_empty_iff. }
  split; [by intros g Hg; rewrite disconnect_rooms, Hg|].
  split; [apply disconnect_fold_nodup|]. split.
  { intros e. unfold disconnect; simpl. rewrite disconnect_fold_out. split.
    - intros (g & rp & Hg & Hin & ->). exists g. split; [|done].
      unfold playerAt. by rewrite Hg.
    - intros (g & Hin & ->). unfold playerAt in Hin.
      destruct (rooms s !! g) as [rp|] eqn:Hg; [|by destruct Hin].
      by exists g, rp. }
  do 3 (split; [done|]).
  apply disconnect_not_member. intros g.
  by rewrite disconnect_playerAt, decide_True.
Qed.

Lemma disconnect_leaves_every_room_witness :
  rooms (disconnect "c" (disconnect "a" twoRooms).1).1 !! "q" = None ∧
  (score <$> playerAt (disconnect "a" twoRooms).1 "r" "b") = Some 9 ∧
  length (disconnect "a" twoRooms).2 = 2%nat.
Proof.
  destruct (disconnect_leaves_every_room "a" twoRooms) as (Hp & _).
  split; [by vm_compute|]. split; [|by vm_compute].
  rewrite Hp. by vm_compute.
Defined.

(** ** Collecting *)



(** ** Rooms are independent *)

Lemma joinGame_generate (fuel : nat) (env : Env) (socket g : string)
    (name : option string) (color : option Z) (s s' : State) (out : list Effect) :
  joinGame fuel env socket g name color s = Some (s', out) →
  ∃ s3 kk outg k',
    generateFarmObjects fuel env socket g 10 kk s3 = Some (s', outg, k') ∧
    rooms s3 !! g =
      Some (joinedPlayers socket
              (newPlayer socket (joinName env name) (default 0x1a75ff color))
              (default ∅ (rooms s !! g))) ∧
    obstacles s3 = <[g := default roomObstacles (obstacles s !! g)]> (obstacles s) ∧
    globalFarmObjects s3 = globalFarmObjects s ∧
    timers s3 = timers s ∧
    ∃ tl, out = JoinChannel socket g :: outg ++ tl ∧
          ∀ r sock p, Emit (ToRoomExcept r sock) p ∈ tl → r = g.
Proof.
  unfold joinGame. intros H.
  set (nk := match name with Some n => (n, 0%nat) | None => _ end) in H.
  assert (Hn : nk.1 = joinName env name) by (subst nk; by destruct name).
  destruct nk as [nm k]. simpl in Hn. subst nm.
  set (s1 := match rooms s !! g with
             | None => set_rooms (<[g := ∅]> (rooms s)) s
             | Some _ => s end) in H.
  assert (Hs1 : rooms s1 = <[g := default ∅ (rooms s !! g)]> (rooms s) ∧
                obstacles s1 = obstacles s ∧ timers s1 = timers s ∧
                globalFarmObjects s1 = globalFarmObjects s).
  { subst s1. destruct (rooms s !! g) eqn:E; simpl; [|done]. by rewrite insert_id. }
  destruct Hs1 as (Hr & Ho & Ht & Hf).
  rewrite Hr, lookup_insert_eq in H.
  unfold generateObstacles in H. simpl in H. rewrite Ho in H.
  set (s3 := match obstacles s !! g with None => _ | Some _ => _ end) in H.
  assert (Hs3 : rooms s3 !! g =
                  Some (joinedPlayers socket
                          (newPlayer socket (joinName env name) (default 0x1a75ff color))
                          (default ∅ (rooms s !! g))) ∧
                obstacles s3 = <[g := default roomObstacles (obstacles s !! g)]> (obstacles s) ∧
                timers s3 = timers s ∧ globalFarmObjects s3 = globalFarmObjects s).
  { subst s3. destruct (obstacles s !! g) eqn:E; simpl;
      rewrite ?Ho, ?Ht, ?Hf, lookup_insert_eq; repeat split; try done.
    by rewrite insert_id. }
  destruct Hs3 as (Hr3 & Ho3 & Ht3 & Hf3).
  destruct (generateFarmObjects _ _ _ _ _ _ s3) as [[[s4 out4] k4]|] eqn:Hg; [|done].
  injection H as <- <-.
  exists s3, k, out4, k4. split; [done|]. do 4 (split; [done|]).
  eexists. split; [reflexivity|].
  intros r sock p Hin.
  repeat (apply elem_of_cons in Hin as [[=]|Hin]).
  apply elem_of_app in Hin as [Hin|Hin].
  - destruct (globalFarmObjects s4 !! g); [|by apply elem_of_nil in Hin].
    by apply list_elem_of_singleton in Hin.
  - apply list_elem_of_singleton in Hin. by injection Hin as <-.
Qed.

Lemma broadcast_scope (socket g : string) (payload : Payload) (r sock : string)
    (p : Payload) :
  Emit (ToRoomExcept r sock) p ∈ broadcast socket g payload → r = g.
Proof.
  unfold broadcast. intros H.
  repeat (apply elem_of_cons in H as [[=]|H]); [done|by apply elem_of_nil in H].
Qed.

Lemma generateFarmObjects_scope (fuel : nat) (env : Env) (socket g : string)
    (count k : nat) (s s' : State) (out : list Effect) (k' : nat) (r sock : string)
    (p : Payload) :
  generateFarmObjects fuel env socket g count k s = Some (s', out, k') →
  Emit (ToRoomExcept r sock) p ∈ out → r = g.
Proof.
  intros [(_ & -> & _)|(_ & m' & _ & _ & ->)]%generateFarmObjects_cases.
  - by intros ?%elem_of_nil.
  - destruct (rooms s !! g); [apply broadcast_scope|by intros ?%elem_of_nil].
Qed.

Lemma playerMove_rooms (socket g : string) (pos : Position) (vel : option Position)
    (s : State) (g' : string) :
  g' ≠ g → rooms (playerMove socket g pos vel s).1 !! g' = rooms s !! g'.
Proof.
  intros Hne. unfold playerMove. simpl.
  destruct (rooms s !! g) as [rp|]; [|done].
  destruct (rp !! socket); [|done]. simpl. by rewrite lookup_insert_ne.
Qed.

Lemma respawnPlayer_rooms (env : Env) (socket g t : string) (s : State) (g' : string) :
  g' ≠ g → rooms (respawnPlayer env socket g t s).1 !! g' = rooms s !! g'.
Proof.
  intros Hne. unfold respawnPlayer.
  destruct (rooms s !! g) as [rp|]; [|done].
  destruct (rp !! t); [|done]. simpl. by rewrite lookup_insert_ne.
Qed.

Lemma respawnPlayer_scope (env : Env) (socket g t : string) (s : State) (r sock : string)
    (p : Payload) :
  Emit (ToRoomExcept r sock) p ∈ (respawnPlayer env socket g t s).2 → r = g.
Proof.
  unfold respawnPlayer.
  destruct (rooms s !! g) as [rp|]; [|by intros ?%elem_of_nil].
  destruct (rp !! t); [apply broadcast_scope|by intros ?%elem_of_nil].
Qed.

Lemma step_other_room (fuel : nat) (env : Env) (ev : Event) (s s' : State)
    (out : list Effect) (g : string) :
  eventRoom ev = Some g →
  step fuel env ev s = Some (s', out) →
  (∀ g', g' ≠ g →
     rooms s' !! g' = rooms s !! g' ∧
     globalFarmObjects s' !! g' = globalFarmObjects s !! g' ∧
     obstacles s' !! g' = obstacles s !! g') ∧
  (∀ r sock p, Emit (ToRoomExcept r sock) p ∈ out → r = g).
Proof.
  intros Hev Hstep.
  destruct ev as [socket [g0 nm col|g0 pos vel| |g0 dir pos|g0 sh tg|g0 o|g0 o]|tm];
    cbn [step handle] in Hstep; simpl in Hev; try discriminate;
    try (injection Hev as ->).
  - pose proof (joinGame_spec _ _ _ _ _ _ _ _ _ Hstep) as (Hr & Ho & _ & m' & Hf & _).
    split.
    + intros g' Hne. by rewrite Hr, Ho, Hf, !lookup_insert_ne.
    + apply joinGame_generate in Hstep
        as (s3 & kk & outg & k' & Hg & _ & _ & _ & _ & tl & -> & Htl).
      intros r sock p [[=]|Hin]%elem_of_cons.
      apply elem_of_app in Hin as [Hin|Hin]; [|by eapply Htl].
      by eapply generateFarmObjects_scope.
  - apply Some_pair_inv in Hstep as [-> ->]. split.
    + intros g' Hne. rewrite playerMove_rooms by done.
      by destruct (playerMove_spec socket g pos vel s) as (-> & -> & _).
    + intros r sock p Hin. apply list_elem_of_singleton in Hin. by injection Hin as <-.
  - apply Some_pair_inv in Hstep as [-> ->]. split; [done|].
    intros r sock p Hin. apply list_elem_of_singleton in Hin. by injection Hin as <-.
  - apply Some_pair_inv in Hstep as [-> ->]. rewrite playerHit_validHit.
    destruct (validHit s g sh tg) as [[a b]|]; simpl.
    + split; [|apply broadcast_scope]. intros g' Hne. by rewrite lookup_insert_ne.
    + split; [done|]. by intros r sock p ?%elem_of_nil.
  - apply Some_pair_inv in Hstep as [-> ->]. rewrite farmObjectHit_collectible.
    destruct (collectible s socket g o) as [[fo pl]|]; simpl.
    + split; [|apply broadcast_scope]. intros g' Hne. by rewrite !lookup_insert_ne.
    + split; [done|]. by intros r sock p ?%elem_of_nil.
  - apply Some_pair_inv in Hstep as [-> ->].
    change (collectResource socket g o s) with (farmObjectHit socket g o s).
    rewrite farmObjectHit_collectible.
    destruct (collectible s socket g o) as [[fo pl]|]; simpl.
    + split; [|apply broadcast_scope]. intros g' Hne. by rewrite !lookup_insert_ne.
    + split; [done|]. by intros r sock p ?%elem_of_nil.
  - destruct tm as [sock0 g0 tid|sock0 g0]; simpl in Hev; injection Hev as <-.
    + apply fire_cases in Hstep
        as [[-> ->]|[(sock & g' & t' & Heq & _ & Hr)|(sock & g' & k' & Heq & _ & Hg)]];
        [split; [done|by intros r sock1 p ?%elem_of_nil]| |discriminate].
      injection Heq as <- <- <-.
      assert (Hs' : s' = (respawnPlayer env sock0 g0 tid
                        (set_timers (removeFirst (RespawnTimer sock0 g0 tid) (timers s)) s)).1)
        by (by rewrite <-Hr).
      assert (Hout : out = (respawnPlayer env sock0 g0 tid
                        (set_timers (removeFirst (RespawnTimer sock0 g0 tid) (timers s)) s)).2)
        by (by rewrite <-Hr).
      split.
      * intros g' Hne. rewrite Hs', respawnPlayer_rooms by done.
        by destruct (respawnPlayer_frame env sock0 g0 tid
                       (set_timers (removeFirst (RespawnTimer sock0 g0 tid) (timers s)) s))
          as (-> & -> & _).
      * rewrite Hout. apply respawnPlayer_scope.
    + apply fire_cases in Hstep
        as [[-> ->]|[(sock & g' & t' & Heq & _ & Hr)|(sock & g' & k' & Heq & _ & Hg)]];
        [split; [done|by intros r sock1 p ?%elem_of_nil]|discriminate|].
      injection Heq as <- <-.
      pose proof (generateFarmObjects_spec _ _ _ _ _ _ _ _ _ _ Hg)
        as (Hr & Ho & _ & (m' & Hf & _) & _).
      split.
      * intros g1 Hne. by rewrite Hr, Ho, Hf, lookup_insert_ne.
      * intros r sock1 p. by eapply generateFarmObjects_scope.
Qed.

(** X13. An event that names a room reaches that room only: the players,
    collectibles and obstacles of every other room are the same before and
    after its handler (or timer callback) ran, and every room-wide
    notification it emits is addressed to the named room. *)
Theorem events_are_room_scoped (fuel : nat) (env : Env) (ev : Event) (s s' : State)
    (out : list Effect) (g : string) :
  eventRoom ev = Some g →
  step fuel env ev s = Some (s', out) →
  (∀ g', g' ≠ g →
     rooms s' !! g' = rooms s !! g' ∧
     globalFarmObjects s' !! g' = globalFarmObjects s !! g' ∧
     obstacles s' !! g' = obstacles s !! g') ∧
  (∀ r sock p, Emit (ToRoomExcept r sock) p ∈ out → r = g).
Proof. apply step_other_room. Qed.

Lemma events_are_room_scoped_witness :
  (isAlive <$> playerAt (playerHit halfEnv "b" "r" "a" "b" twoRooms).1 "r" "b") = Some false ∧
  rooms (playerHit halfEnv "b" "r" "a" "b" twoRooms).1 !! "q" = rooms twoRooms !! "q" ∧
  ∀ r sock p,
    Emit (ToRoomExcept r sock) p ∈ (playerHit halfEnv "b" "r" "a" "b" twoRooms).2 → r = "r".
Proof.
  destruct (events_are_room_scoped 0 halfEnv (FromSocket "b" (PlayerHit "r" "a" "b"))
              twoRooms (playerHit halfEnv "b" "r" "a" "b" twoRooms).1
              (playerHit halfEnv "b" "r" "a" "b" twoRooms).2 "r") as [H Hout];
    [reflexivity
    |cbn [step handle]; by destruct (playerHit halfEnv "b" "r" "a" "b" twoRooms)|].
  split; [vm_compute; reflexivity|]. split; [|exact Hout].
  by destruct (H "q") as [Hq _].
Defined.

(** ** Invariants of the registries *)

Lemma room_has_player (s : State) (g p : string) (rp : gmap string PlayerData) :
  rooms s !! g = Some rp → is_Some (playerAt s g p) → rp ≠ ∅.
Proof.
  unfold playerAt. intros -> [pl Hpl] ->. simpl in Hpl. by rewrite lookup_empty in Hpl.
Qed.

Lemma playerMove_not_member (socket g : string) (pos : Position) (vel : option Position)
    (s : State) :
  playerAt s g socket = None → (playerMove socket g pos vel s).1 = s.
Proof.
  unfold playerAt, playerMove. simpl.
  destruct (rooms s !! g) as [rp|]; simpl; [|done]. by intros ->.
Qed.

Lemma removeFirst_elem (t x : Timer) (l : list Timer) :
  x ∈ removeFirst t l → x ∈ l.
Proof.
  induction l as [|y l IH]; simpl; [done|].
  case_decide as Hd.
  - intros H. by apply list_elem_of_further.
  - intros [->|H]%elem_of_cons; [apply list_elem_of_here|].
    by apply list_elem_of_further, IH.
Qed.

Lemma step_rooms_nonempty (fuel : nat) (env : Env) (ev : Event) (s s' : State)
    (out : list Effect) :
  roomsNonempty s → step fuel env ev s = Some (s', out) → roomsNonempty s'.
Proof.
  intros Hinv Hstep g' rp' Hrp'.
  destruct (eventRoom ev) as [g|] eqn:Hev.
  - destruct (decide (g' = g)) as [->|Hne].
    2:{ destruct (step_other_room _ _ _ _ _ _ g Hev Hstep) as [H _].
        destruct (H g' Hne) as (Hr & _). rewrite Hr in Hrp'. by eapply Hinv. }
    destruct ev as [socket [g0 nm col|g0 pos vel| |g0 dir pos|g0 sh tg|g0 o|g0 o]|tm];
      cbn [step handle] in Hstep; simpl in Hev; try discriminate.
    + injection Hev as ->. apply (room_has_player s' g socket); [done|].
      rewrite (joinGame_playerAt _ _ _ _ _ _ _ _ _ g socket Hstep).
      destruct (playerAt s g socket); [by eexists|]. rewrite decide_True by done. by eexists.
    + injection Hev as ->. apply Some_pair_inv in Hstep as [-> _].
      destruct (playerAt s g socket) as [pl|] eqn:Hp.
      * apply (room_has_player _ g socket _ Hrp').
        rewrite playerMove_playerAt, decide_True, Hp by done. by eexists.
      * rewrite playerMove_not_member in Hrp' by done. by eapply Hinv.
    + injection Hev as ->. apply Some_pair_inv in Hstep as [-> _]. by eapply Hinv.
    + injection Hev as ->. apply Some_pair_inv in Hstep as [-> _].
      destruct (validHit s g sh tg) as [[a b]|] eqn:Hv.
      * apply (room_has_player _ g tg _ Hrp').
        rewrite playerHit_playerAt, Hv, decide_True by done. by eexists.
      * rewrite playerHit_validHit, Hv in Hrp'. by eapply Hinv.
    + injection Hev as ->. apply Some_pair_inv in Hstep as [-> _].
      destruct (collectible s socket g o) as [[fo pl]|] eqn:Hc.
      * apply (room_has_player _ g socket _ Hrp').
        rewrite farmObjectHit_playerAt, Hc, decide_True by done. by eexists.
      * rewrite farmObjectHit_collectible, Hc in Hrp'. by eapply Hinv.
    + injection Hev as ->. apply Some_pair_inv in Hstep as [-> _].
      change (collectResource socket g o s) with (farmObjectHit socket g o s) in Hrp'.
      destruct (collectible s socket g o) as [[fo pl]|] eqn:Hc.
      * apply (room_has_player _ g socket _ Hrp').
        rewrite farmObjectHit_playerAt, Hc, decide_True by done. by eexists.
      * rewrite farmObjectHit_collectible, Hc in Hrp'. by eapply Hinv.
    + apply fire_cases in Hstep
        as [[-> _]|[(sock & g1 & t1 & -> & _ & Hr)|(sock & g1 & k' & -> & _ & Hg)]];
        simpl in Hev; [by eapply Hinv| |].
      * injection Hev as ->.
        assert (Hs' : s' = (respawnPlayer env sock g t1
                        (set_timers (removeFirst (RespawnTimer sock g t1) (timers s)) s)).1)
          by (by rewrite <-Hr).
        destruct (playerAt s g t1) as [pl|] eqn:Hp.
        -- apply (room_has_player _ g t1 _ Hrp').
           rewrite Hs', respawnPlayer_playerAt, decide_True by done.
           change (playerAt (set_timers _ s) g t1) with (playerAt s g t1).
           rewrite Hp. by eexists.
        -- rewrite Hs', respawnPlayer_absent in Hrp' by done. by eapply Hinv.
      * apply generateFarmObjects_spec in Hg as (Hr & _). rewrite Hr in Hrp'.
        by eapply Hinv.
  - destruct ev as [socket [| | | | | |]|[]]; simpl in Hev; try discriminate.
    cbn [step handle] in Hstep. apply Some_pair_inv in Hstep as [-> _].
    rewrite disconnect_rooms in Hrp'.
    destruct (rooms s !! g') as [rp|] eqn:Hg; [|done]. simpl in Hrp'.
    unfold afterLeave in Hrp'. case_decide; [|injection Hrp' as <-; by eapply Hinv].
    case_decide as Hsz; [done|]. injection Hrp' as <-.
    intros Hemp. by rewrite Hemp, map_size_empty in Hsz.
Qed.

Lemma step_keysMatch (fuel : nat) (env : Env) (ev : Event) (s s' : State)
    (out : list Effect) :
  keysMatch s → step fuel env ev s = Some (s', out) → keysMatch s'.
Proof.
  intros [Hp Ho] Hstep.
  assert (Hframe_o : globalFarmObjects s' = globalFarmObjects s →
                     ∀ g o fo, objectAt s' g o = Some fo → fo_id fo = o).
  { intros Hf g o fo. unfold objectAt. rewrite Hf. apply Ho. }
  assert (Hframe_p : rooms s' = rooms s →
                     ∀ g p pl, playerAt s' g p = Some pl → id pl = p).
  { intros Hf g p pl. unfold playerAt. rewrite Hf. apply Hp. }
  destruct ev as [socket [g0 nm col|g0 pos vel| |g0 dir pos|g0 sh tg|g0 o0|g0 o0]|tm];
    cbn [step handle] in Hstep.
  - split.
    + intros g p pl. rewrite (joinGame_playerAt _ _ _ _ _ _ _ _ _ g p Hstep).
      destruct (playerAt s g p) as [pl0|] eqn:E; [intros [= <-]; by eapply Hp|].
      case_decide as Hc; [|done]. destruct Hc as [_ ->]. by intros [= <-].
    + intros g o fo Hfo.
      destruct (joinGame_objectAt _ _ _ _ _ _ _ _ _ g o Hstep) as [H _].
      destruct (H fo Hfo) as [H1|[_ (_ & H1 & _)]]; [by eapply Ho|done].
  - apply Some_pair_inv in Hstep as [-> _]. split.
    + intros g p pl. rewrite playerMove_playerAt.
      case_decide; [|apply Hp].
      destruct (playerAt s g p) as [pl0|] eqn:E; [|done]. simpl.
      intros [= <-]. specialize (Hp _ _ _ E). by destruct vel.
    + apply Hframe_o, playerMove_spec.
  - apply Some_pair_inv in Hstep as [-> _]. split; [|by apply Hframe_o].
    intros g p pl. rewrite disconnect_playerAt. case_decide; [done|apply Hp].
  - apply Some_pair_inv in Hstep as [-> _]. by split.
  - apply Some_pair_inv in Hstep as [-> _]. split; [|apply Hframe_o, playerHit_frame].
    intros g p pl. rewrite playerHit_playerAt.
    destruct (validHit s g0 sh tg) as [[a b]|] eqn:Hv; [|apply Hp].
    apply validHit_Some in Hv as (_ & Ha & Hb & _).
    case_decide as H1; [|case_decide as H2].
    + destruct H1 as [-> ->]. intros [= <-]. simpl. by eapply Hp.
    + destruct H2 as [-> ->]. intros [= <-]. simpl. by eapply Hp.
    + apply Hp.
  - apply Some_pair_inv in Hstep as [-> _]. split.
    + intros g p pl. rewrite farmObjectHit_playerAt.
      destruct (collectible s socket g0 o0) as [[fo pl0]|] eqn:Hc; [|apply Hp].
      case_decide as Hd; [|apply Hp]. destruct Hd as [-> ->]. intros [= <-]. simpl.
      unfold collectible in Hc. destruct (objectAt s g0 o0); [|done].
      destruct (playerAt s g0 socket) as [pl1|] eqn:E; [|done].
      injection Hc as _ <-. by eapply Hp.
    + intros g o fo. rewrite farmObjectHit_objectAt.
      destruct (collectible s socket g0 o0); [|apply Ho].
      case_decide; [done|apply Ho].
  - apply Some_pair_inv in Hstep as [-> _].
    change (collectResource socket g0 o0 s) with (farmObjectHit socket g0 o0 s). split.
    + intros g p pl. rewrite farmObjectHit_playerAt.
      destruct (collectible s socket g0 o0) as [[fo pl0]|] eqn:Hc; [|apply Hp].
      case_decide as Hd; [|apply Hp]. destruct Hd as [-> ->]. intros [= <-]. simpl.
      unfold collectible in Hc. destruct (objectAt s g0 o0); [|done].
      destruct (playerAt s g0 socket) as [pl1|] eqn:E; [|done].
      injection Hc as _ <-. by eapply Hp.
    + intros g o fo. rewrite farmObjectHit_objectAt.
      destruct (collectible s socket g0 o0); [|apply Ho].
      case_decide; [done|apply Ho].
  - apply fire_cases in Hstep
      as [[-> _]|[(sock & g1 & t1 & -> & _ & Hr)|(sock & g1 & k' & -> & _ & Hg)]];
      [by split| |].
    + assert (Hs' : s' = (respawnPlayer env sock g1 t1
                      (set_timers (removeFirst (RespawnTimer sock g1 t1) (timers s)) s)).1)
        by (by rewrite <-Hr).
      split.
      * intros g p pl. rewrite Hs', respawnPlayer_playerAt.
        change (playerAt (set_timers _ s) g p) with (playerAt s g p).
        case_decide; [|apply Hp].
        destruct (playerAt s g p) as [pl0|] eqn:E; [|done].
        intros [= <-]. simpl. by eapply Hp.
      * apply Hframe_o. rewrite Hs'.
        by destruct (respawnPlayer_frame env sock g1 t1
                       (set_timers (removeFirst (RespawnTimer sock g1 t1) (timers s)) s))
          as (-> & _).
    + split.
      * apply Hframe_p. by apply generateFarmObjects_spec in Hg as (-> & _).
      * intros g o fo Hfo.
        destruct (generateFarmObjects_objectAt _ _ _ _ _ _ _ _ _ _ g o Hg) as [H _].
        destruct (H fo Hfo) as [H1|[_ (_ & H1 & _)]]; [|done].
        by apply (Ho g o).
Qed.

(** X14. Along every run from the initial state the player registry holds
    no empty room (a room appears with its first player and is removed with
    its last), every player record carries the socket id it is stored under,
    and every collectible carries the identifier it is stored under. *)
Theorem registries_stay_consistent (fuel : nat) (evs : list (Env * Event))
    (s : State) (out : list Effect) :
  run fuel initial_state evs = Some (s, out) →
  (∀ g roomPlayers, rooms s !! g = Some roomPlayers → ∃ p pl, roomPlayers !! p = Some pl) ∧
  (∀ g roomPlayers p pl,
     rooms s !! g = Some roomPlayers → roomPlayers !! p = Some pl → id pl = p) ∧
  (∀ g m o fo,
     globalFarmObjects s !! g = Some m → m !! o = Some fo → fo_id fo = o).
Proof.
  intros Hrun.
  assert (Hinv : roomsNonempty s ∧ keysMatch s).
  { eapply (run_invariant fuel (λ s, roomsNonempty s ∧ keysMatch s) (λ _, True));
      [|by apply Forall_true| |exact Hrun].
    - intros env ev s0 s1 out1 _ [H1 H2] Hst.
      split; [by eapply step_rooms_nonempty|by eapply step_keysMatch].
    - split; [by intros g rp|]. split; [by intros g p pl|by intros g o fo]. }
  destruct Hinv as (Hne & Hp & Ho). split; [|split].
  - intros g rp Hg. apply map_choose. by eapply Hne.
  - intros g rp p pl Hg Hpl. apply (Hp g p). unfold playerAt. by rewrite Hg.
  - intros g m o fo Hg Hfo. apply (Ho g o). unfold objectAt. by rewrite Hg.
Qed.

Lemma registries_stay_consistent_witness :
  finished (run 1 initial_state (skirmish ++ aftermath)) = true ∧
  ∀ g roomPlayers,
    rooms (outcome (run 1 initial_state (skirmish ++ aftermath))).1 !! g = Some roomPlayers →
    ∃ p pl, roomPlayers !! p = Some pl.
Proof.
  assert (Hrun : run 1 initial_state (skirmish ++ aftermath) =
                 Some ((outcome (run 1 initial_state (skirmish ++ aftermath))).1,
                       (outcome (run 1 initial_state (skirmish ++ aftermath))).2))
    by (by apply finished_outcome; vm_compute).
  split; [by vm_compute|].
  exact (proj1 (registries_stay_consistent 1 (skirmish ++ aftermath) _ _ Hrun)).
Defined.

(** ** Invariants of the collectibles *)

Lemma farm_frame (s s' : State) :
  globalFarmObjects s' = globalFarmObjects s → obstacles s' = obstacles s →
  (∀ t, t ∈ timers s' →
        t ∈ timers s ∨ ∃ socket g t', t = RespawnTimer socket g t') →
  farmWellPlaced s ∧ farmCapped s ∧ obstaclesReady s →
  farmWellPlaced s' ∧ farmCapped s' ∧ obstaclesReady s'.
Proof.
  intros Hf Ho Ht (Hw & Hc & Ha & Hb & Hd). split; [|split; [|split; [|split]]].
  - intros g o fo. unfold objectAt. rewrite Hf. apply Hw.
  - intros g m. rewrite Hf. apply Hc.
  - intros g l. rewrite Ho. apply Ha.
  - intros g. rewrite Hf, Ho. apply Hb.
  - intros socket g [H|(sock & g1 & t' & [=])]%Ht. rewrite Ho. by eapply Hd.
Qed.

Lemma farm_generate (fuel : nat) (env : Env) (socket g : string) (k : nat)
    (s0 s' : State) (out : list Effect) (k' : nat) :
  generateFarmObjects fuel env socket g 10 k s0 = Some (s', out, k') →
  obstacles s0 !! g = Some roomObstacles →
  farmWellPlaced s0 ∧ farmCapped s0 ∧ obstaclesReady s0 →
  farmWellPlaced s' ∧ farmCapped s' ∧ obstaclesReady s'.
Proof.
  intros Hg Hobs (Hw & Hc & Ha & Hb & Hd).
  destruct (generateFarmObjects_placed _ _ _ _ _ _ _ _ _ _ Hg)
    as (Hin & _ & (m' & Hm' & Hsize) & Hother & _ & Ho & Ht).
  rewrite Hobs in Hin. simpl in Hin.
  split; [|split; [|split; [|split]]].
  - intros g1 o fo Hfo. destruct (decide (g1 = g)) as [->|Hne].
    + destruct (Hin o fo Hfo) as [H|(_ & H1 & H2 & H3)]; [by eapply Hw|done].
    + unfold objectAt in Hfo. rewrite Hother in Hfo by done. by eapply Hw.
  - intros g1 m. destruct (decide (g1 = g)) as [->|Hne].
    + rewrite Hm'. intros [= <-].
      assert (size (default ∅ (globalFarmObjects s0 !! g)) ≤ 10)%nat; [|lia].
      destruct (globalFarmObjects s0 !! g) as [m0|] eqn:E; simpl.
      * by eapply Hc.
      * rewrite map_size_empty. lia.
    + rewrite Hother by done. apply Hc.
  - intros g1 l. rewrite Ho. apply Ha.
  - intros g1 Hsome. rewrite Ho. destruct (decide (g1 = g)) as [->|Hne].
    + by rewrite Hobs.
    + rewrite Hother in Hsome by done. by apply Hb.
  - intros sock g1. rewrite Ht, Ho. apply Hd.
Qed.

Lemma farm_collect (socket g o : string) (s : State) :
  farmWellPlaced s ∧ farmCapped s ∧ obstaclesReady s →
  farmWellPlaced (farmObjectHit socket g o s).1 ∧
  farmCapped (farmObjectHit socket g o s).1 ∧
  obstaclesReady (farmObjectHit socket g o s).1.
Proof.
  intros Hinv. pose proof Hinv as (Hw & Hc & Ha & Hb & Hd).
  destruct (collectible s socket g o) as [[fo pl]|] eqn:Hcol;
    [|by rewrite farmObjectHit_collectible, Hcol].
  assert (Hsome : is_Some (globalFarmObjects s !! g)).
  { unfold collectible, objectAt in Hcol.
    destruct (globalFarmObjects s !! g); [by eexists|done]. }
  split; [|split; [|split; [|split]]].
  - intros g1 o1 fo1. rewrite farmObjectHit_objectAt, Hcol.
    case_decide; [done|apply Hw].
  - intros g1 m. rewrite farmObjectHit_collectible, Hcol. simpl.
    destruct (decide (g1 = g)) as [->|Hne].
    + rewrite lookup_insert_eq. intros [= <-].
      destruct Hsome as [m0 Hm0]. rewrite Hm0. simpl.
      etrans; [apply map_subseteq_size, delete_subseteq|]. by eapply Hc.
    + rewrite lookup_insert_ne by done. apply Hc.
  - intros g1 l. rewrite farmObjectHit_frame. apply Ha.
  - intros g1. rewrite farmObjectHit_frame, farmObjectHit_collectible, Hcol. simpl.
    destruct (decide (g1 = g)) as [->|Hne].
    + intros _. by apply Hb.
    + rewrite lookup_insert_ne by done. apply Hb.
  - intros sock g1. rewrite farmObjectHit_frame, farmObjectHit_collectible, Hcol. simpl.
    intros [H|H%list_elem_of_singleton]%elem_of_app; [by eapply Hd|].
    injection H as -> ->. by apply Hb.
Qed.

Lemma step_farm (fuel : nat) (env : Env) (ev : Event) (s s' : State) (out : list Effect) :
  farmWellPlaced s ∧ farmCapped s ∧ obstaclesReady s →
  step fuel env ev s = Some (s', out) →
  farmWellPlaced s' ∧ farmCapped s' ∧ obstaclesReady s'.
Proof.
  intros Hinv Hstep. pose proof Hinv as (Hw & Hc & Ha & Hb & Hd).
  destruct ev as [socket [g nm col|g pos vel| |g dir pos|g sh tg|g o|g o]|tm];
    cbn [step handle] in Hstep.
  - apply joinGame_generate in Hstep
      as (s3 & kk & outg & k' & Hg & _ & Ho3 & Hf3 & Ht3 & _).
    assert (Hready : default roomObstacles (obstacles s !! g) = roomObstacles).
    { destruct (obstacles s !! g) as [l|] eqn:E; [|done]. simpl. by eapply Ha. }
    rewrite Hready in Ho3.
    apply (farm_generate _ _ _ _ _ _ _ _ _ Hg); [by rewrite Ho3, lookup_insert_eq|].
    split; [|split; [|split; [|split]]].
    + intros g1 o fo. unfold objectAt. rewrite Hf3. apply Hw.
    + intros g1 m. rewrite Hf3. apply Hc.
    + intros g1 l. rewrite Ho3. destruct (decide (g1 = g)) as [->|Hne].
      * rewrite lookup_insert_eq. by intros [= <-].
      * rewrite lookup_insert_ne by done. apply Ha.
    + intros g1. rewrite Hf3, Ho3. intros H%Hb.
      destruct (decide (g1 = g)) as [->|Hne];
        [by rewrite lookup_insert_eq|by rewrite lookup_insert_ne].
    + intros sock g1. rewrite Ht3, Ho3. intros H%Hd.
      destruct (decide (g1 = g)) as [->|Hne];
        [by rewrite lookup_insert_eq|by rewrite lookup_insert_ne].
  - apply Some_pair_inv in Hstep as [-> _].
    destruct (playerMove_spec socket g pos vel s) as (Hf & Ho & Ht & _).
    apply (farm_frame s); [done..| |done]. intros t. rewrite Ht. by left.
  - apply Some_pair_inv in Hstep as [-> _].
    apply (farm_frame s); [done..| |done]. intros t. by left.
  - apply Some_pair_inv in Hstep as [-> _]. done.
  - apply Some_pair_inv in Hstep as [-> _].
    destruct (playerHit_frame env socket g sh tg s) as [Hf Ho].
    apply (farm_frame s); [done..| |done].
    intros t. rewrite playerHit_validHit.
    destruct (validHit s g sh tg) as [[a b]|]; [|by left]. simpl.
    intros [H|H%list_elem_of_singleton]%elem_of_app; [by left|right; by eexists _, _, _].
  - apply Some_pair_inv in Hstep as [-> _]. by apply farm_collect.
  - apply Some_pair_inv in Hstep as [-> _].
    change (collectResource socket g o s) with (farmObjectHit socket g o s).
    by apply farm_collect.
  - apply fire_cases in Hstep
      as [[-> _]|[(sock & g1 & t1 & -> & Hpend & Hr)|(sock & g1 & k' & -> & Hpend & Hg)]];
      [done| |].
    + assert (Hs' : s' = (respawnPlayer env sock g1 t1
                      (set_timers (removeFirst (RespawnTimer sock g1 t1) (timers s)) s)).1)
        by (by rewrite <-Hr).
      destruct (respawnPlayer_frame env sock g1 t1
                  (set_timers (removeFirst (RespawnTimer sock g1 t1) (timers s)) s))
        as (Hf & Ho & Ht).
      rewrite <-Hs' in Hf, Ho, Ht.
      apply (farm_frame s); [done..| |done].
      intros t. rewrite Ht. simpl. intros H%removeFirst_elem. by left.
    + apply (farm_generate _ _ _ _ _ _ _ _ _ Hg).
      * simpl. destruct (Hd sock g1 Hpend) as [l Hl]. rewrite Hl. f_equal. by eapply Ha.
      * apply (farm_frame s); [done..| |done].
        intros t. simpl. intros H%removeFirst_elem. by left.
Qed.

(** X15. Along every run from the initial state every collectible of every
    room lies inside the sampling rectangle [100, 1900) x [100, 1400), is
    farther than 120 from each of the 25 obstacle points, and has a type and
    value from the table (crystal 5, coin 1, gem 10); no room ever holds more
    than 10 collectibles; and a room that has collectibles has its obstacle
    list. *)
Theorem collectibles_stay_well_placed (fuel : nat) (evs : list (Env * Event))
    (s : State) (out : list Effect) :
  run fuel initial_state evs = Some (s, out) →
  (∀ g m o fo,
     globalFarmObjects s !! g = Some m → m !! o = Some fo →
     inBounds (fo_position fo) ∧ fromTable fo ∧
     ∀ ob, ob ∈ roomObstacles →
       (120 * 120 <
          (x (fo_position fo) - inject_Z (ob_x ob)) * (x (fo_position fo) - inject_Z (ob_x ob)) +
          (y (fo_position fo) - inject_Z (ob_y ob)) * (y (fo_position fo) - inject_Z (ob_y ob)))%Q) ∧
  (∀ g m, globalFarmObjects s !! g = Some m →
          (size m ≤ 10)%nat ∧ obstacles s !! g = Some roomObstacles).
Proof.
  intros Hrun.
  assert (Hinv : farmWellPlaced s ∧ farmCapped s ∧ obstaclesReady s).
  { eapply (run_invariant fuel
              (λ s, farmWellPlaced s ∧ farmCapped s ∧ obstaclesReady s) (λ _, True));
      [|by apply Forall_true| |exact Hrun].
    - intros env ev s0 s1 out1 _ H0 Hst. by eapply step_farm.
    - split; [by intros g o fo|]. split; [by intros g m|].
      split; [by intros g l|]. split; [by intros g [? ?]|].
      by intros sock g ?%elem_of_nil. }
  destruct Hinv as (Hw & Hc & Ha & Hb & _). split.
  - intros g m o fo Hg Hfo.
    destruct (Hw g o fo) as (H1 & H2 & H3); [unfold objectAt; by rewrite Hg|].
    split; [done|]. split; [done|].
    intros ob Hob. apply farEnough_spec. unfold validPosition in H2.
    rewrite forallb_forall in H2. apply H2. by apply list_elem_of_In.
  - intros g m Hg. split; [by eapply Hc|].
    destruct (Hb g) as [l Hl]; [by eexists|]. rewrite Hl. f_equal. by eapply Ha.
Qed.

Lemma collectibles_stay_well_placed_witness :
  finished (run 1 initial_state skirmish) = true ∧
  ∀ g m, globalFarmObjects (outcome (run 1 initial_state skirmish)).1 !! g = Some m →
         (size m ≤ 10)%nat ∧
         obstacles (outcome (run 1 initial_state skirmish)).1 !! g = Some roomObstacles.
Proof.
  assert (Hrun : run 1 initial_state skirmish =
                 Some ((outcome (run 1 initial_state skirmish)).1,
                       (outcome (run 1 initial_state skirmish)).2))
    by (by apply finished_outcome; vm_compute).
  split; [by vm_compute|].
  exact (proj2 (collectibles_stay_well_placed 1 skirmish _ _ Hrun)).
Defined.
